(** * gravlax: the scanner and its driver

    A shallow embedding of the TypeScript scanner ([scanTokens] and the
    closures it declares) and of the command-line driver ([main],
    [run_file], [run_prompt], [run]), followed by the properties that the
    specification states about them.  The source holds three successive
    revisions of the program; the one embedded here is the last, whose
    scanner also lexes numbers and identifiers.

    Conventions.
    - A JavaScript string is a list of characters of type [ascii].  A code
      unit above 255 has no rule of its own in the scanner and behaves like
      any other character without one.  [charAt] out of range yields the
      empty string, written [None] here.
    - The closure variables [start], [current], [line], the scanner object
      and the process-wide [had_error] flag together with what was written
      to [console.error] are threaded explicitly as one [State].
    - Every [while] loop takes a fuel argument and answers [None] when the
      fuel runs out, so that termination is a theorem and not an assumption.
    - [trace] is a ghost field: it records the cursor after every assignment
      to [start], [current] or [line].  It has no counterpart in the source
      and is only read by the invariant theorems.
    - A number literal is the rational that its lexeme denotes; the double
      that [Number.parseFloat] returns is the one nearest to it. *)

From Stdlib Require Import Ascii String List Arith Bool Lia ZArith QArith.
Import ListNotations.
Local Open Scope nat_scope.
Local Open Scope list_scope.

(** ** Characters and strings *)

Definition jsstring := list ascii.

(** The characters that cannot be written inside a literal. *)
Definition NUL : ascii := ascii_of_nat 0.
Definition TAB : ascii := ascii_of_nat 9.
Definition LF : ascii := ascii_of_nat 10.
Definition CR : ascii := ascii_of_nat 13.
Definition DQUOTE : ascii := ascii_of_nat 34.

Definition str (s : string) : jsstring := list_ascii_of_string s.

(** [s.charAt(i)]: the one-character string at [i], or the empty string. *)
Definition charAt (s : jsstring) (i : nat) : option ascii := nth_error s i.

(** [s.substring(a, b)]: both indices are clamped to the length and swapped
    when they come in the wrong order. *)
Definition substring (s : jsstring) (a b : nat) : jsstring :=
  let a' := Nat.min a (length s) in
  let b' := Nat.min b (length s) in
  firstn (Nat.max a' b' - Nat.min a' b') (skipn (Nat.min a' b') s).

(** Comparison of a string of length at most one with a one-character
    string: [c == k]. *)
Definition char_is (c : option ascii) (k : ascii) : bool :=
  match c with
  | Some a => Ascii.eqb a k
  | None => false
  end.

(** ** Tokens *)

Inductive TokenType : Type :=
  | LEFT_PAREN | RIGHT_PAREN | LEFT_BRACE | RIGHT_BRACE
  | COMMA | DOT | MINUS | PLUS | SEMICOLON | SLASH | STAR
  | BANG | BANG_EQUAL | EQUAL | EQUAL_EQUAL
  | GREATER | GREATER_EQUAL | LESS | LESS_EQUAL
  | IDENTIFIER | STRING | NUMBER
  | AND | CLASS | ELSE | FALSE | FUN | FOR | IF | NIL | OR
  | PRINT | RETURN | SUPER | THIS | TRUE | VAR | WHILE
  | EOF.

(** What the [type] field of a token can hold at run time.  The static type
    is [TokenType], but [identifier] stores whatever [keywords[text]]
    evaluates to, and a property lookup on a plain object also finds the
    members that the object inherits from [Object.prototype]. *)
Inductive TypeValue : Type :=
  | Kind (t : TokenType)
  | Inherited (name : string).

(** A JavaScript number that [Number.parseFloat] can return here.
    [Decimal q] stands for the double nearest to the rational [q]; it is [q]
    itself whenever [q] is representable, which is the case of every literal
    the properties below mention. *)
Inductive JSNumber : Type :=
  | Decimal (q : Q)
  | NaN.

(** The [literal] field: [{}] when [addToken] gets no second argument. *)
Inductive Literal : Type :=
  | EmptyObject
  | StringValue (s : jsstring)
  | NumberValue (n : JSNumber).

Record Token : Type := mkToken {
  tk_type : TypeValue;
  tk_lexeme : jsstring;
  tk_literal : Literal;
  tk_line : nat
}.

(** ** The keyword table *)

Definition keywords : list (string * TokenType) :=
  [ ("and", AND); ("class", CLASS); ("else", ELSE); ("false", FALSE);
    ("for", FOR); ("fun", FUN); ("if", IF); ("nil", NIL); ("or", OR);
    ("print", PRINT); ("return", RETURN); ("super", SUPER); ("this", THIS);
    ("true", TRUE); ("var", VAR); ("while", WHILE) ]%string.

(** The property names of [Object.prototype], the prototype of the object
    literal [keywords]. *)
Definition Object_prototype : list string :=
  [ "constructor"; "hasOwnProperty"; "isPrototypeOf"; "propertyIsEnumerable";
    "toLocaleString"; "toString"; "valueOf"; "__proto__";
    "__defineGetter__"; "__defineSetter__";
    "__lookupGetter__"; "__lookupSetter__" ]%string.

Fixpoint own_property (table : list (string * TokenType)) (key : string)
  : option TokenType :=
  match table with
  | [] => None
  | (k, v) :: rest => if String.eqb k key then Some v else own_property rest key
  end.

(** [keywords[text]]: the own property when there is one, else the inherited
    one, else [undefined]. *)
Definition keywords_get (text : jsstring) : option TypeValue :=
  let key := string_of_list_ascii text in
  match own_property keywords key with
  | Some t => Some (Kind t)
  | None =>
      if existsb (String.eqb key) Object_prototype
      then Some (Inherited key)
      else None
  end.

(** ** Diagnostics *)

(** One call of [report]: the three values interpolated into the line it
    writes to [console.error]. *)
Record Diagnostic : Type := mkDiagnostic {
  d_line : nat;
  d_where : string;
  d_message : string
}.

Definition UnterminatedString : string := "Unterminated string."%string.
Definition UnexpectedCharacter : string := "Unexpected character."%string.

(** ** Scanner state *)

Record Cursor : Type := mkCursor {
  c_start : nat;
  c_current : nat;
  c_line : nat
}.

Record State : Type := mkState {
  source : jsstring;
  tokens : list Token;
  start : nat;
  current : nat;
  line : nat;
  had_error : bool;
  console_error : list Diagnostic;
  trace : list Cursor
}.

(** Assignments to the three closure variables; each one is logged. *)
Definition assign (s c l : nat) (st : State) : State :=
  mkState (source st) (tokens st) s c l (had_error st) (console_error st)
          (trace st ++ [mkCursor s c l]).

Definition set_start (n : nat) (st : State) : State :=
  assign n (current st) (line st) st.

Definition set_current (n : nat) (st : State) : State :=
  assign (start st) n (line st) st.

Definition set_line (n : nat) (st : State) : State :=
  assign (start st) (current st) n st.

Definition push (t : Token) (st : State) : State :=
  mkState (source st) (tokens st ++ [t]) (start st) (current st) (line st)
          (had_error st) (console_error st) (trace st).

Definition report (ln : nat) (where_ message : string) (st : State) : State :=
  mkState (source st) (tokens st) (start st) (current st) (line st)
          true (console_error st ++ [mkDiagnostic ln where_ message])
          (trace st).

Definition error (ln : nat) (message : string) (st : State) : State :=
  report ln EmptyString message st.

(** ** The closures of [scanTokens] *)

Definition isAtEnd (st : State) : bool :=
  length (source st) <=? current st.

Definition advance (st : State) : option ascii * State :=
  (charAt (source st) (current st), set_current (current st + 1) st).

Definition addToken (t : TypeValue) (l : option Literal) (st : State) : State :=
  let text := substring (source st) (start st) (current st) in
  push (mkToken t text
                (match l with None => EmptyObject | Some v => v end)
                (line st)) st.

Definition match_ (expected : ascii) (st : State) : bool * State :=
  if isAtEnd st then (false, st)
  else if negb (char_is (charAt (source st) (current st)) expected) then (false, st)
  else (true, set_current (current st + 1) st).

Definition peek (st : State) : option ascii :=
  if isAtEnd st then Some NUL else charAt (source st) (current st).

Definition peekNext (st : State) : option ascii :=
  if length (source st) <=? current st + 1 then Some NUL
  else charAt (source st) (current st + 1).

Definition isDigit (c : option ascii) : bool :=
  match c with
  | Some a => Ascii.leb "0" a && Ascii.leb a "9"
  | None => false
  end.

Definition isAlpha (c : option ascii) : bool :=
  match c with
  | Some a =>
      (Ascii.leb "a" a && Ascii.leb a "z")
      || (Ascii.leb "A" a && Ascii.leb a "Z")
      || Ascii.eqb a "_"
  | None => false
  end.

Definition isAlphaNumeric (c : option ascii) : bool :=
  isAlpha c || isDigit c.

(** ** [Number.parseFloat] *)

(** The leading run of digits of a text, and what follows it. *)
Fixpoint span_digits (s : jsstring) : jsstring * jsstring :=
  match s with
  | a :: r =>
      if isDigit (Some a)
      then let (d, r') := span_digits r in (a :: d, r')
      else ([], s)
  | [] => ([], [])
  end.

Definition digit_value (a : ascii) : Z := Z.of_nat (nat_of_ascii a - 48).

Definition decimal_value (ds : jsstring) : Z :=
  fold_left (fun acc a => (10 * acc + digit_value a)%Z) ds 0%Z.

(** [Number.parseFloat(s)] on a text that starts with a digit: the longest
    prefix made of a digit run, optionally followed by a dot and a second
    digit run, read in base ten.  [number] passes nothing else; signs,
    exponents, leading blanks and a leading dot are not modelled, and a text
    that starts with none of them is not a number. *)
Definition parseFloat (s : jsstring) : JSNumber :=
  let (ip, r) := span_digits s in
  match ip with
  | [] => NaN
  | _ :: _ =>
      let fp := match r with
                | a :: r' => if Ascii.eqb a "." then fst (span_digits r') else []
                | [] => []
                end in
      Decimal (Qred (Qmake (decimal_value (ip ++ fp))
                           (Z.to_pos (10 ^ Z.of_nat (length fp)))))
  end.

(** ** Loops *)

(** [while (cond) body], run for at most [fuel] tests of the condition. *)
Fixpoint while (fuel : nat) (cond : State -> bool)
         (body : State -> option State) (st : State) : option State :=
  match fuel with
  | 0 => None
  | S fuel' =>
      if cond st then
        match body st with
        | Some st' => while fuel' cond body st'
        | None => None
        end
      else Some st
  end.

(** The statement [advance();] with its result dropped. *)
Definition advance_ (st : State) : option State := Some (snd (advance st)).

(** ** Lexing functions *)

Definition string_ (fuel : nat) (st : State) : option State :=
  match
    while fuel
          (fun s => negb (char_is (peek s) DQUOTE) && negb (isAtEnd s))
          (fun s => advance_ (if char_is (peek s) LF
                              then set_line (line s + 1) s else s))
          st
  with
  | None => None
  | Some st =>
      if isAtEnd st then Some (error (line st) UnterminatedString st)
      else
        (* Consume the closing quote *)
        let st := snd (advance st) in
        (* Trim surrounding quotes *)
        let value := substring (source st) (start st + 1) (current st - 1) in
        Some (addToken (Kind STRING) (Some (StringValue value)) st)
  end.

Definition number (fuel : nat) (st : State) : option State :=
  match while fuel (fun s => isDigit (peek s)) advance_ st with
  | None => None
  | Some st =>
      (* Look for a fractional part *)
      match
        if char_is (peek st) "." && isDigit (peekNext st)
        then while fuel (fun s => isDigit (peek s)) advance_
                   (snd (advance st))
        else Some st
      with
      | None => None
      | Some st =>
          Some (addToken (Kind NUMBER)
                  (Some (NumberValue
                     (parseFloat
                        (substring (source st) (start st) (current st)))))
                  st)
      end
  end.

Definition identifier (fuel : nat) (st : State) : option State :=
  match while fuel (fun s => isAlphaNumeric (peek s)) advance_ st with
  | None => None
  | Some st =>
      let text := substring (source st) (start st) (current st) in
      let type := match keywords_get text with
                  | None => Kind IDENTIFIER
                  | Some v => v
                  end in
      Some (addToken type None st)
  end.

Definition scanToken (fuel : nat) (st : State) : option State :=
  let (c, st) := advance st in
  if char_is c "(" then Some (addToken (Kind LEFT_PAREN) None st)
  else if char_is c ")" then Some (addToken (Kind RIGHT_PAREN) None st)
  else if char_is c "{" then Some (addToken (Kind LEFT_BRACE) None st)
  else if char_is c "}" then Some (addToken (Kind RIGHT_BRACE) None st)
  else if char_is c "," then Some (addToken (Kind COMMA) None st)
  else if char_is c "." then Some (addToken (Kind DOT) None st)
  else if char_is c "-" then Some (addToken (Kind MINUS) None st)
  else if char_is c "+" then Some (addToken (Kind PLUS) None st)
  else if char_is c ";" then Some (addToken (Kind SEMICOLON) None st)
  else if char_is c "*" then Some (addToken (Kind STAR) None st)
  else if char_is c "!" then
    let (m, st) := match_ "=" st in
    Some (addToken (Kind (if m then BANG_EQUAL else BANG)) None st)
  else if char_is c "=" then
    let (m, st) := match_ "=" st in
    Some (addToken (Kind (if m then EQUAL_EQUAL else EQUAL)) None st)
  else if char_is c "<" then
    let (m, st) := match_ "=" st in
    Some (addToken (Kind (if m then LESS_EQUAL else LESS)) None st)
  else if char_is c ">" then
    let (m, st) := match_ "=" st in
    Some (addToken (Kind (if m then GREATER_EQUAL else GREATER)) None st)
  else if char_is c "/" then
    let (m, st) := match_ "/" st in
    if m then
      while fuel (fun s => negb (char_is (peek s) LF) && negb (isAtEnd s))
            advance_ st
    else Some (addToken (Kind SLASH) None st)
  else if char_is c " " || char_is c CR || char_is c TAB then
    (* ignore whitespace *)
    Some st
  else if char_is c LF then Some (set_line (line st + 1) st)
  else if char_is c DQUOTE then string_ fuel st
  else if isDigit c then number fuel st
  else if isAlpha c then identifier fuel st
  else Some (error (line st) UnexpectedCharacter st).

Definition EOF_token (ln : nat) : Token :=
  mkToken (Kind EOF) [] EmptyObject ln.

Definition scan (fuel : nat) (st : State) : option State :=
  match
    while fuel (fun s => negb (isAtEnd s))
          (fun s => scanToken fuel (set_start (current s) s)) st
  with
  | None => None
  | Some st => Some (push (EOF_token (line st)) st)
  end.

(** [scanTokens(s)] for a scanner object with source [src] and token array
    [toks], in a process whose error flag is [he] and whose error stream
    holds [ce]. *)
Definition scanTokens (fuel : nat) (src : jsstring) (toks : list Token)
           (he : bool) (ce : list Diagnostic) : option State :=
  scan fuel (mkState src toks 0 0 1 he ce [mkCursor 0 0 1]).

(** [run(source)]: a fresh scanner with an empty token array. *)
Definition run (fuel : nat) (src : jsstring) (he : bool)
           (ce : list Diagnostic) : option State :=
  scanTokens fuel src [] he ce.

(** A scan of [src] in a fresh process, as the properties below use it. *)
Definition scan_source (fuel : nat) (src : jsstring) : option State :=
  run fuel src false [].

(** ** The driver *)

(** What the driver can observe and change: the writes to [stdout], the
    error flag and the error stream.  [scanned] is a ghost field listing the
    sources handed to [run], in order. *)
Record Process : Type := mkProcess {
  stdout : list string;
  p_had_error : bool;
  p_console_error : list Diagnostic;
  scanned : list jsstring
}.

(** How a piece of the driver ends. *)
Inductive Completion : Type :=
  | Exits (code : nat)
  | Returns
  | Throws
  | OutOfFuel.

(** The status with which the process ends. *)
Definition exit_status (c : Completion) : option nat :=
  match c with
  | Exits code => Some code
  | Returns => Some 0
  | Throws => Some 1
  | OutOfFuel => None
  end.

Definition usage : string := "Usage: gravlax [script]"%string.
Definition prompt : string := "> "%string.

Definition stdout_write (s : string) (p : Process) : Process :=
  mkProcess (stdout p ++ [s]) (p_had_error p) (p_console_error p) (scanned p).

Definition set_had_error (b : bool) (p : Process) : Process :=
  mkProcess (stdout p) b (p_console_error p) (scanned p).

(** [run(source)] seen from the driver.  The tokens are dropped; the fuel is
    one more than the length of the source, which [scan_total] shows to be
    enough. *)
Definition run_process (src : jsstring) (p : Process) : option Process :=
  match run (S (length src)) src (p_had_error p) (p_console_error p) with
  | Some st =>
      Some (mkProcess (stdout p) (had_error st) (console_error st)
                      (scanned p ++ [src]))
  | None => None
  end.

(** [run_file(input_file)].  [fs] gives the text of the files that exist;
    [input_file] is [None] when the argument is [undefined]. *)
Definition run_file (fs : string -> option jsstring)
           (input_file : option string) (p : Process)
  : Completion * Process :=
  match input_file with
  | None => (Throws, p)
  | Some path =>
      match fs path with
      | None => (Throws, p)
      | Some text =>
          match run_process text p with
          | None => (OutOfFuel, p)
          | Some p' =>
              if p_had_error p' then (Exits 65, p') else (Returns, p')
          end
      end
  end.

(** The body of [run_prompt]'s loop over the lines read from the console. *)
Fixpoint prompt_loop (lines : list jsstring) (p : Process)
  : Completion * Process :=
  match lines with
  | [] => (Returns, p)
  | ln :: rest =>
      let p := stdout_write prompt p in
      if length ln =? 0 then (Returns, p)
      else
        match run_process ln p with
        | None => (OutOfFuel, p)
        | Some p' =>
            (* a mistake in interactive mode does not kill the session *)
            prompt_loop rest (set_had_error false p')
        end
  end.

Definition run_prompt (lines : list jsstring) (p : Process)
  : Completion * Process :=
  prompt_loop lines (stdout_write prompt p).

(** [main()], for a process started with [argv], the files [fs] and the
    console lines [lines]. *)
Definition main (argv : list string) (fs : string -> option jsstring)
           (lines : list jsstring) (p : Process) : Completion * Process :=
  if 2 <? length argv then (Exits 64, stdout_write usage p)
  else if length argv =? 1 then run_file fs (nth_error argv 1) p
  else run_prompt lines p.

(** [process.argv] as the runtime builds it: the path of the executable,
    the path of the script, then the arguments of the command line. *)
Definition process_argv (exe script : string) (args : list string)
  : list string :=
  exe :: script :: args.

(** ** Source positions *)

(** The 1-based number of the line that holds offset [p]: one more than the
    number of newlines before it. *)
Definition line_at (src : jsstring) (p : nat) : nat :=
  1 + count_occ ascii_dec (firstn p src) LF.

(** The number of lines of a text. *)
Definition line_count (src : jsstring) : nat :=
  1 + count_occ ascii_dec src LF.

(** ** States visited by the main loop *)

(** The states in which [scan] tests its loop condition, for the scan of
    [src] started by [run] in a fresh process. *)
Inductive loop_head (fuel : nat) (src : jsstring) : State -> Prop :=
  | loop_head_first :
      loop_head fuel src (mkState src [] 0 0 1 false [] [mkCursor 0 0 1])
  | loop_head_next : forall st st',
      loop_head fuel src st ->
      isAtEnd st = false ->
      scanToken fuel (set_start (current st) st) = Some st' ->
      loop_head fuel src st'.

(** The tokens that one call of [scanToken] pushed. *)
Definition pushed (before after : State) : list Token :=
  skipn (length (tokens before)) (tokens after).

(** ** Invariants of the cursor *)

Definition cursor_of (st : State) : Cursor :=
  mkCursor (start st) (current st) (line st).

(** [start <= current <= length(source)] for one logged cursor. *)
Definition cursor_ok (n : nat) (c : Cursor) : Prop :=
  c_start c <= c_current c /\ c_current c <= n.

Definition nondecreasing (l : list nat) : Prop :=
  forall i j a b,
    i <= j -> nth_error l i = Some a -> nth_error l j = Some b -> a <= b.

Record wf (st : State) : Prop := mk_wf {
  wf_bounds : start st <= current st /\ current st <= length (source st);
  wf_last : exists tr, trace st = tr ++ [cursor_of st];
  wf_trace : Forall (cursor_ok (length (source st))) (trace st);
  wf_lines : nondecreasing (map c_line (trace st))
}.

(** [later st st']: [st'] comes after [st] in the same scan. *)
Record later (st st' : State) : Prop := mk_later {
  later_source : source st' = source st;
  later_current : current st <= current st';
  later_line : line st <= line st';
  later_tokens : exists new,
      tokens st' = tokens st ++ new /\
      Forall (fun t => tk_type t <> Kind EOF) new;
  later_errors : exists new, console_error st' = console_error st ++ new;
  later_trace : exists new, trace st' = trace st ++ new
}.

(** ** Relations, measures and claims used by the statements below *)

(** [moved st st']: between [st] and [st'] only [current] grew. *)
Record moved (st st' : State) : Prop := mk_moved {
  moved_source : source st' = source st;
  moved_tokens : tokens st' = tokens st;
  moved_start : start st' = start st;
  moved_line : line st' = line st;
  moved_flag : had_error st' = had_error st;
  moved_errors : console_error st' = console_error st;
  moved_current : current st <= current st';
  moved_trace : exists new, trace st' = trace st ++ new
}.

(** The length of the longest prefix whose characters all satisfy [p]. *)
Fixpoint run_length (p : option ascii -> bool) (l : jsstring) : nat :=
  match l with
  | a :: r => if p (Some a) then S (run_length p r) else 0
  | [] => 0
  end.

Definition not_newline (c : option ascii) : bool := negb (char_is c LF).
Definition not_quote (c : option ascii) : bool := negb (char_is c DQUOTE).

(** [swept st st']: between [st] and [st'] only [current] and [line] grew. *)
Record swept (st st' : State) : Prop := mk_swept {
  swept_source : source st' = source st;
  swept_tokens : tokens st' = tokens st;
  swept_start : start st' = start st;
  swept_flag : had_error st' = had_error st;
  swept_errors : console_error st' = console_error st;
  swept_current : current st <= current st';
  swept_line : line st <= line st';
  swept_trace : exists new, trace st' = trace st ++ new
}.

Definition string_cond (s : State) : bool :=
  negb (char_is (peek s) DQUOTE) && negb (isAtEnd s).

Definition string_body (s : State) : option State :=
  advance_ (if char_is (peek s) LF then set_line (line s + 1) s else s).

(** The newlines among the first [n] characters of a text. *)
Definition newlines (n : nat) (l : jsstring) : nat :=
  count_occ ascii_dec (firstn n l) LF.

(** The fields of [r] that a lexing function started in [st] leaves alone,
    and the shape of what it adds: the tokens [ts] and the diagnostics
    [ds]. *)
Record outcome (st r : State) (ts : list Token) (ds : list Diagnostic)
  : Prop := mk_outcome {
  out_source : source r = source st;
  out_start : start r = start st;
  out_tokens : tokens r = tokens st ++ ts;
  out_errors : console_error r = console_error st ++ ds;
  out_flag : had_error r = match ds with [] => had_error st | _ :: _ => true end
}.

(** Whether a text starts with a dot followed by a digit. *)
Definition has_fraction (rest : jsstring) : bool :=
  match rest with
  | dot :: d :: _ => Ascii.eqb dot "." && isDigit (Some d)
  | _ => false
  end.

(** The length of the number at the start of a text: a maximal run of
    digits, then a dot and a second maximal run of digits when a digit
    follows the dot. *)
Definition number_length (rest : jsstring) : nat :=
  let n := run_length isDigit rest in
  if has_fraction (skipn n rest)
  then n + 1 + run_length isDigit (skipn (n + 1) rest)
  else n.

(** The kind under which [identifier] files a text. *)
Definition identifier_type (text : jsstring) : TypeValue :=
  match keywords_get text with
  | None => Kind IDENTIFIER
  | Some v => v
  end.

(** The punctuation that is a token on its own. *)
Definition single_kind (c : option ascii) : option TokenType :=
  if char_is c "(" then Some LEFT_PAREN
  else if char_is c ")" then Some RIGHT_PAREN
  else if char_is c "{" then Some LEFT_BRACE
  else if char_is c "}" then Some RIGHT_BRACE
  else if char_is c "," then Some COMMA
  else if char_is c "." then Some DOT
  else if char_is c "-" then Some MINUS
  else if char_is c "+" then Some PLUS
  else if char_is c ";" then Some SEMICOLON
  else if char_is c "*" then Some STAR
  else None.

(** The operators that an equal sign can follow: the kind with it and the
    kind without it. *)
Definition double_kind (c : option ascii) : option (TokenType * TokenType) :=
  if char_is c "!" then Some (BANG_EQUAL, BANG)
  else if char_is c "=" then Some (EQUAL_EQUAL, EQUAL)
  else if char_is c "<" then Some (LESS_EQUAL, LESS)
  else if char_is c ">" then Some (GREATER_EQUAL, GREATER)
  else None.

Definition is_blank (c : option ascii) : bool :=
  char_is c " " || char_is c CR || char_is c TAB.

(** A character for which [scanToken] has no rule. *)
Definition no_rule (c : option ascii) : bool :=
  match single_kind c, double_kind c with
  | None, None =>
      negb (char_is c "/" || is_blank c || char_is c LF || char_is c DQUOTE
            || isDigit c || isAlpha c)
  | _, _ => false
  end.

Definition comment_cond (s : State) : bool :=
  negb (char_is (peek s) LF) && negb (isAtEnd s).

(** The ways in which [scanToken] can go once it has read [c] and is in
    state [st]. *)
Inductive dispatch (fuel : nat) (c : option ascii) (st : State)
  : option State -> Prop :=
  | dispatch_single : forall t,
      single_kind c = Some t ->
      dispatch fuel c st (Some (addToken (Kind t) None st))
  | dispatch_double : forall a b,
      double_kind c = Some (a, b) ->
      dispatch fuel c st
        (Some (addToken (Kind (if fst (match_ "=" st) then a else b)) None
                        (snd (match_ "=" st))))
  | dispatch_comment :
      char_is c "/" = true ->
      fst (match_ "/" st) = true ->
      dispatch fuel c st
        (while fuel comment_cond advance_ (snd (match_ "/" st)))
  | dispatch_slash :
      char_is c "/" = true ->
      fst (match_ "/" st) = false ->
      dispatch fuel c st
        (Some (addToken (Kind SLASH) None (snd (match_ "/" st))))
  | dispatch_blank :
      is_blank c = true ->
      dispatch fuel c st (Some st)
  | dispatch_newline :
      char_is c LF = true ->
      dispatch fuel c st (Some (set_line (line st + 1) st))
  | dispatch_string :
      char_is c DQUOTE = true ->
      dispatch fuel c st (string_ fuel st)
  | dispatch_number :
      isDigit c = true ->
      dispatch fuel c st (number fuel st)
  | dispatch_identifier :
      isAlpha c = true ->
      dispatch fuel c st (identifier fuel st)
  | dispatch_error :
      no_rule c = true ->
      dispatch fuel c st (Some (error (line st) UnexpectedCharacter st)).

Definition scan_cond (s : State) : bool := negb (isAtEnd s).

Definition scan_body (fuel : nat) (s : State) : option State :=
  scanToken fuel (set_start (current s) s).

(** The state in which [scanToken] starts its dispatch. *)
Definition entered (st : State) : State :=
  snd (advance (set_start (current st) st)).

(** [line] is the number of the line that holds [current]. *)
Definition line_tracks (st : State) : Prop :=
  line st = line_at (source st) (current st).

(** The tokens pushed through [addToken] carry the text between [start] and
    [current] and the value of [line] at that moment; in every branch that
    is the state in which [scanToken] returns. *)
Definition stamped (st r : State) (t : Token) : Prop :=
  tk_lexeme t = substring (source st) (start st) (current r) /\
  tk_line t = line r.

(** The claim of the specification as it is worded: every token carries the
    number of the line on which its lexeme starts. *)
Definition lines_at_lexeme_start (fuel : nat) (src : jsstring) : Prop :=
  forall st r,
    loop_head fuel src st ->
    isAtEnd st = false ->
    scanToken fuel (set_start (current st) st) = Some r ->
    Forall (fun t => tk_line t = line_at src (current st)) (pushed st r).

(** A string literal over two lines. *)
Definition two_line_string : jsstring :=
  DQUOTE :: "a"%char :: LF :: "b"%char :: [DQUOTE].

(** A token and a diagnostic of a text that starts [L] lines further down. *)
Definition shift_token (L : nat) (t : Token) : Token :=
  mkToken (tk_type t) (tk_lexeme t) (tk_literal t) (L + tk_line t).

Definition shift_diagnostic (L : nat) (d : Diagnostic) : Diagnostic :=
  mkDiagnostic (L + d_line d) (d_where d) (d_message d).

(** The text [M] is scanned on its own by the first state and, inside
    [P ++ M ++ S], by the second one.  The second scan has already pushed
    [T0] and reported [E0], and its lines are [L] ahead. *)
Record spliced (P M S : jsstring) (L : nat) (T0 : list Token)
       (E0 : list Diagnostic) (s1 s2 : State) : Prop := mk_spliced {
  sp_wf : wf s1;
  sp_source1 : source s1 = M;
  sp_source2 : source s2 = P ++ M ++ S;
  sp_tokens : tokens s2 = T0 ++ map (shift_token L) (tokens s1);
  sp_errors :
    console_error s2 = E0 ++ map (shift_diagnostic L) (console_error s1);
  sp_start : start s2 = length P + start s1;
  sp_current : current s2 = length P + current s1;
  sp_line : line s2 = L + line s1
}.

(** The same relation where the main loop tests its condition: [start] is
    stale there and is assigned first thing in the body. *)
Definition heads (P M S : jsstring) (L : nat) (T0 : list Token)
           (E0 : list Diagnostic) (s1 s2 : State) : Prop :=
  spliced P M S L T0 E0
          (set_start (current s1) s1) (set_start (current s2) s2).

(** No diagnostic so far is [Unterminated string.]. *)
Definition no_unterminated (st : State) : Prop :=
  Forall (fun d => d_message d <> UnterminatedString) (console_error st).

Definition initial (src : jsstring) : State :=
  mkState src [] 0 0 1 false [] [mkCursor 0 0 1].

(** The kinds and the lexemes of a token array without its last token. *)
Definition kinds_and_lexemes (ts : list Token) : list (TypeValue * jsstring) :=
  map (fun t => (tk_type t, tk_lexeme t)) (removelast ts).

(** The claim of the specification as it is worded, for two given texts. *)
Definition concatenation_claim (A B : jsstring) : Prop :=
  forall fa fb f ra rb r,
    scan_source fa A = Some ra ->
    scan_source fb B = Some rb ->
    scan_source f (A ++ LF :: B) = Some r ->
    kinds_and_lexemes (tokens r)
    = kinds_and_lexemes (tokens ra) ++ kinds_and_lexemes (tokens rb).

(** ** Vocabulary of the properties of whole scans *)

(** A diagnostic as [scanToken] reports it when it returns in state [r]:
    no location text, the line of [r], and one of the two messages; the
    second one only at the end of the input. *)
Definition diagnostic_ok (r : State) (d : Diagnostic) : Prop :=
  d_where d = EmptyString /\ d_line d = line r /\
  (d_message d = UnexpectedCharacter \/
   d_message d = UnterminatedString /\ isAtEnd r = true).

(** One turn of the main loop, from [st] to [r]: the tokens [ts] and the
    diagnostics [ds] that it adds. *)
Record turn (st r : State) (ts : list Token) (ds : list Diagnostic)
  : Prop := mk_turn {
  turn_wf : wf r;
  turn_source : source r = source st;
  turn_current : current st < current r;
  turn_line : line st <= line r;
  turn_tokens : tokens r = tokens st ++ ts;
  turn_errors : console_error r = console_error st ++ ds;
  turn_flag :
    had_error r = match ds with [] => had_error st | _ :: _ => true end;
  turn_one : length ts + length ds <= 1;
  turn_stamped : Forall (stamped (entered st) r) ts;
  turn_reported : Forall (diagnostic_ok r) ds;
  turn_blame :
    ds <> [] ->
    char_is (charAt (source st) (current st)) DQUOTE = true \/
    no_rule (charAt (source st) (current st)) = true
}.

(** The state in which [run] starts the scan of [src], in a process whose
    error flag is [he] and whose error stream holds [ce]. *)
Definition started (src : jsstring) (he : bool) (ce : list Diagnostic)
  : State :=
  mkState src [] 0 0 1 he ce [mkCursor 0 0 1].

(** [slices src lo ts hi]: the lexemes of [ts] are non-empty pieces of
    [src] that follow one another without overlap between the offsets [lo]
    and [hi]. *)
Fixpoint slices (src : jsstring) (lo : nat) (ts : list Token) (hi : nat)
  : Prop :=
  match ts with
  | [] => lo <= hi
  | t :: ts' =>
      exists a b,
        lo <= a /\ a < b /\
        tk_lexeme t = substring src a b /\
        slices src b ts' hi
  end.

(** The literal that goes with the type of a token: the text between the
    quotes for a string, the value of the lexeme for a number, the empty
    object for every other token. *)
Definition literal_fits (t : Token) : Prop :=
  match tk_type t with
  | Kind STRING =>
      exists s,
        tk_lexeme t = DQUOTE :: s ++ [DQUOTE] /\
        tk_literal t = StringValue s /\
        ~ In DQUOTE s
  | Kind NUMBER =>
      exists q,
        tk_literal t = NumberValue (Decimal q) /\
        parseFloat (tk_lexeme t) = Decimal q
  | _ => tk_literal t = EmptyObject
  end.

(** The lines of the console up to the first empty one. *)
Fixpoint until_empty (lines : list jsstring) : list jsstring :=
  match lines with
  | [] => []
  | ln :: rest => if length ln =? 0 then [] else ln :: until_empty rest
  end.

(** * Proofs *)

(** ** Generic facts about [while] *)

Section While.

Variables (cond : State -> bool) (body : State -> option State).

Lemma while_mono : forall fuel fuel' st r,
    while fuel cond body st = Some r ->
    fuel <= fuel' ->
    while fuel' cond body st = Some r.
Proof.
  induction fuel as [|fuel IH]; intros fuel' st r H Hle; [discriminate|].
  destruct fuel' as [|fuel']; [lia|].
  simpl in *. destruct (cond st); [|assumption].
  destruct (body st) as [st'|]; [|discriminate].
  apply IH; [assumption|lia].
Qed.

(** The loop rule: an invariant of the body holds on exit, together with
    the negated condition. *)
Lemma while_rule (P : State -> Prop) :
  (forall s s', P s -> cond s = true -> body s = Some s' -> P s') ->
  forall fuel st r,
    P st -> while fuel cond body st = Some r -> P r /\ cond r = false.
Proof.
  intros Hbody. induction fuel as [|fuel IH]; intros st r HP H;
    [discriminate|].
  simpl in H. destruct (cond st) eqn:Hc.
  - destruct (body st) as [st'|] eqn:Hb; [|discriminate].
    eapply IH; [|eassumption]. eapply Hbody; eassumption.
  - injection H as <-. split; assumption.
Qed.

(** Termination: a measure that the body decreases bounds the fuel. *)
Lemma while_total (P : State -> Prop) (m : State -> nat) :
  (forall s, P s -> cond s = true ->
             exists s', body s = Some s' /\ P s' /\ m s' < m s) ->
  forall fuel st,
    P st -> m st < fuel -> exists r, while fuel cond body st = Some r.
Proof.
  intros Hbody. induction fuel as [|fuel IH]; intros st HP Hm; [lia|].
  simpl. destruct (cond st) eqn:Hc; [|eauto].
  destruct (Hbody st HP Hc) as (s' & -> & HP' & Hlt).
  apply IH; [assumption|lia].
Qed.

End While.

(** Two loops whose conditions agree and whose bodies preserve a relation
    between their states run in lockstep. *)
Lemma while_sim (R : State -> State -> Prop)
      (c1 c2 : State -> bool) (b1 b2 : State -> option State) :
  (forall s1 s2, R s1 s2 -> c1 s1 = c2 s2) ->
  (forall s1 s2 s1', R s1 s2 -> c1 s1 = true -> b1 s1 = Some s1' ->
                     exists s2', b2 s2 = Some s2' /\ R s1' s2') ->
  forall fuel s1 s2 r1,
    R s1 s2 -> while fuel c1 b1 s1 = Some r1 ->
    exists r2, while fuel c2 b2 s2 = Some r2 /\ R r1 r2.
Proof.
  intros Hc Hb. induction fuel as [|fuel IH]; intros s1 s2 r1 HR H;
    [discriminate|].
  simpl in *. rewrite <- (Hc _ _ HR). destruct (c1 s1) eqn:E.
  - destruct (b1 s1) as [s1'|] eqn:E1; [|discriminate].
    destruct (Hb _ _ _ HR E E1) as (s2' & -> & HR').
    eapply IH; eassumption.
  - injection H as <-. eauto.
Qed.

(** ** Lists and positions *)

Lemma nondecreasing_snoc : forall l y x,
    nondecreasing (l ++ [y]) -> y <= x -> nondecreasing ((l ++ [y]) ++ [x]).
Proof.
  intros l y x H Hyx i j a b Hij Hi Hj.
  assert (Hlen : length (l ++ [y]) = S (length l))
    by (rewrite length_app; simpl; lia).
  assert (Hy : nth_error (l ++ [y]) (length l) = Some y).
  { rewrite nth_error_app2 by lia. rewrite Nat.sub_diag. reflexivity. }
  destruct (Nat.lt_ge_cases j (length (l ++ [y]))) as [Hj'|Hj'].
  - rewrite nth_error_app1 in Hj by assumption.
    rewrite nth_error_app1 in Hi by lia.
    exact (H i j a b Hij Hi Hj).
  - rewrite nth_error_app2 in Hj by assumption.
    destruct (j - length (l ++ [y])) as [|k] eqn:Ek;
      [|destruct k; discriminate].
    simpl in Hj. injection Hj as <-.
    destruct (Nat.lt_ge_cases i (length (l ++ [y]))) as [Hi'|Hi'].
    + rewrite nth_error_app1 in Hi by assumption.
      assert (a <= y) by (apply (H i (length l) a y); [lia|exact Hi|exact Hy]).
      lia.
    + rewrite nth_error_app2 in Hi by assumption.
      destruct (i - length (l ++ [y])) as [|k]; [|destruct k; discriminate].
      simpl in Hi. injection Hi as <-. lia.
Qed.

Lemma nondecreasing_single : forall x, nondecreasing [x].
Proof.
  intros x i j a b _ Hi Hj.
  destruct i; [|destruct i; discriminate].
  destruct j; [|destruct j; discriminate].
  simpl in *. injection Hi as <-. injection Hj as <-. lia.
Qed.

Lemma later_refl : forall st, later st st.
Proof.
  intros st. split; try lia; try reflexivity.
  - exists []. rewrite app_nil_r. split; [reflexivity|constructor].
  - exists []. now rewrite app_nil_r.
  - exists []. now rewrite app_nil_r.
Qed.

Lemma later_trans : forall a b c, later a b -> later b c -> later a c.
Proof.
  intros a b c [S1 C1 L1 (t1 & T1 & F1) (e1 & E1) (r1 & R1)]
         [S2 C2 L2 (t2 & T2 & F2) (e2 & E2) (r2 & R2)].
  split; try lia; try congruence.
  - exists (t1 ++ t2). rewrite T2, T1, app_assoc. split; [reflexivity|].
    apply Forall_app. split; assumption.
  - exists (e1 ++ e2). rewrite E2, E1, app_assoc. reflexivity.
  - exists (r1 ++ r2). rewrite R2, R1, app_assoc. reflexivity.
Qed.

(** ** The primitive operations preserve the invariants *)

Lemma assign_wf : forall st s c l,
    wf st -> s <= c -> c <= length (source st) -> line st <= l ->
    wf (assign s c l st).
Proof.
  intros st s c l [Hb (tr & Hl) Ht Hn] Hsc Hc Hline.
  split; simpl.
  - lia.
  - exists (trace st). reflexivity.
  - apply Forall_app. split; [assumption|].
    constructor; [split; simpl; lia|constructor].
  - rewrite Hl in *. rewrite !map_app in *. simpl in *.
    apply nondecreasing_snoc; assumption.
Qed.

Lemma assign_later : forall st s c l,
    current st <= c -> line st <= l -> later st (assign s c l st).
Proof.
  intros st s c l Hc Hl. split; simpl; try assumption; try reflexivity.
  - exists []. rewrite app_nil_r. split; [reflexivity|constructor].
  - exists []. now rewrite app_nil_r.
  - eexists. reflexivity.
Qed.

Lemma push_wf : forall st t, wf st -> wf (push t st).
Proof. intros st t [Hb Hl Ht Hn]. split; assumption. Qed.

Lemma push_later : forall st t,
    tk_type t <> Kind EOF -> later st (push t st).
Proof.
  intros st t Ht. split; simpl; try lia; try reflexivity.
  - exists [t]. split; [reflexivity|]. constructor; [assumption|constructor].
  - exists []. now rewrite app_nil_r.
  - exists []. now rewrite app_nil_r.
Qed.

Lemma report_wf : forall st ln w m, wf st -> wf (report ln w m st).
Proof. intros st ln w m [Hb Hl Ht Hn]. split; assumption. Qed.

Lemma report_later : forall st ln w m, later st (report ln w m st).
Proof.
  intros st ln w m. split; simpl; try lia; try reflexivity.
  - exists []. rewrite app_nil_r. split; [reflexivity|constructor].
  - eexists. reflexivity.
  - exists []. now rewrite app_nil_r.
Qed.

Lemma isAtEnd_false : forall st,
    isAtEnd st = false <-> current st < length (source st).
Proof. intros st. unfold isAtEnd. apply Nat.leb_gt. Qed.

Lemma isAtEnd_true : forall st,
    isAtEnd st = true <-> length (source st) <= current st.
Proof. intros st. unfold isAtEnd. apply Nat.leb_le. Qed.

Lemma advance_wf : forall st,
    wf st -> isAtEnd st = false -> wf (snd (advance st)).
Proof.
  intros st Hwf He. apply isAtEnd_false in He.
  destruct (wf_bounds _ Hwf). simpl. apply assign_wf; try assumption; lia.
Qed.

Lemma advance_later : forall st, later st (snd (advance st)).
Proof. intros st. simpl. apply assign_later; lia. Qed.

Lemma addToken_wf : forall st t l, wf st -> wf (addToken t l st).
Proof. intros. apply push_wf. assumption. Qed.

Lemma addToken_later : forall st t l,
    t <> Kind EOF -> later st (addToken t l st).
Proof. intros. apply push_later. assumption. Qed.

Lemma match_wf : forall k st, wf st -> wf (snd (match_ k st)).
Proof.
  intros k st Hwf. unfold match_. destruct (isAtEnd st) eqn:He; [assumption|].
  destruct (negb _); [assumption|]. simpl.
  apply isAtEnd_false in He.
  destruct (wf_bounds _ Hwf). apply assign_wf; try assumption; lia.
Qed.

Lemma match_later : forall k st, later st (snd (match_ k st)).
Proof.
  intros k st. unfold match_. destruct (isAtEnd st); [apply later_refl|].
  destruct (negb _); [apply later_refl|]. simpl. apply assign_later; lia.
Qed.

Lemma peek_at_end : forall st, isAtEnd st = true -> peek st = Some NUL.
Proof. intros st H. unfold peek. now rewrite H. Qed.

Lemma peek_inside : forall st,
    isAtEnd st = false -> peek st = charAt (source st) (current st).
Proof. intros st H. unfold peek. now rewrite H. Qed.

Lemma isDigit_not_end : forall st, isDigit (peek st) = true -> isAtEnd st = false.
Proof.
  intros st H. destruct (isAtEnd st) eqn:He; [|reflexivity].
  rewrite (peek_at_end _ He) in H. discriminate.
Qed.

Lemma isAlphaNumeric_not_end : forall st,
    isAlphaNumeric (peek st) = true -> isAtEnd st = false.
Proof.
  intros st H. destruct (isAtEnd st) eqn:He; [|reflexivity].
  rewrite (peek_at_end _ He) in H. discriminate.
Qed.

(** ** Loops that only advance *)

Lemma moved_refl : forall st, moved st st.
Proof.
  intros st. split; try reflexivity; try lia.
  exists []. now rewrite app_nil_r.
Qed.

Lemma moved_trans : forall a b c, moved a b -> moved b c -> moved a c.
Proof.
  intros a b c [] []. split; try congruence; try lia.
  destruct moved_trace0 as (t1 & T1), moved_trace1 as (t2 & T2).
  exists (t1 ++ t2). rewrite T2, T1, app_assoc. reflexivity.
Qed.

Lemma moved_later : forall st st', moved st st' -> later st st'.
Proof.
  intros st st' []. split; try assumption; try lia.
  - exists []. rewrite app_nil_r. split; [assumption|constructor].
  - exists []. rewrite app_nil_r. assumption.
Qed.

Lemma advance_moved : forall st, moved st (snd (advance st)).
Proof.
  intros st. split; simpl; try reflexivity; try lia.
  eexists. reflexivity.
Qed.

Lemma match_moved : forall k st, moved st (snd (match_ k st)).
Proof.
  intros k st. unfold match_. destruct (isAtEnd st); [apply moved_refl|].
  destruct (negb _); [apply moved_refl|].
  split; simpl; try reflexivity; try lia. eexists. reflexivity.
Qed.

Lemma skipn_charAt : forall (s : jsstring) i,
    i < length s ->
    exists a, charAt s i = Some a /\ skipn i s = a :: skipn (S i) s.
Proof.
  induction s as [|x s IH]; intros i Hi; simpl in Hi; [lia|].
  destruct i as [|i].
  - exists x. split; reflexivity.
  - destruct (IH i) as (a & Ha & Hs); [lia|].
    exists a. split; [exact Ha|]. simpl. exact Hs.
Qed.

Section AdvanceLoop.

Variables (cond : State -> bool) (p : option ascii -> bool).
Hypothesis cond_peek : forall s, cond s = p (peek s) && negb (isAtEnd s).

Lemma advance_loop_spec : forall fuel st r,
    wf st ->
    while fuel cond advance_ st = Some r ->
    wf r /\ moved st r /\
    current r
    = current st + run_length p (skipn (current st) (source st)).
Proof.
  induction fuel as [|fuel IH]; intros st r Hwf H; [discriminate|].
  simpl in H. rewrite cond_peek in H.
  destruct (isAtEnd st) eqn:He.
  - rewrite andb_false_r in H. injection H as <-.
    apply isAtEnd_true in He.
    rewrite skipn_all2 by assumption. simpl.
    split; [assumption|]. split; [apply moved_refl|lia].
  - rewrite andb_true_r in H. rewrite (peek_inside _ He) in H.
    pose proof He as Hlt. apply isAtEnd_false in Hlt.
    destruct (skipn_charAt _ _ Hlt) as (a & Ha & Hs).
    rewrite Hs, Ha in *. cbn [run_length].
    destruct (p (Some a)).
    + unfold advance_ in H.
      destruct (IH _ _ (advance_wf _ Hwf He) H) as (Hw & Hm & Hc).
      split; [assumption|]. split.
      * eapply moved_trans; [apply advance_moved|exact Hm].
      * change (current (snd (advance st))) with (current st + 1) in Hc.
        change (source (snd (advance st))) with (source st) in Hc.
        replace (current st + 1) with (S (current st)) in Hc by lia.
        lia.
    + injection H as <-.
      split; [assumption|]. split; [apply moved_refl|lia].
Qed.

Lemma advance_loop_total : forall fuel st,
    wf st ->
    length (source st) - current st < fuel ->
    exists r, while fuel cond advance_ st = Some r.
Proof.
  intros fuel st Hwf Hf.
  apply (while_total cond advance_
           (fun s => wf s /\ length (source s) = length (source st))
           (fun s => length (source s) - current s)).
  - intros s [Hs Hlen] Hc. rewrite cond_peek in Hc.
    apply andb_prop in Hc. destruct Hc as [_ He].
    apply negb_true_iff in He.
    eexists. split; [reflexivity|]. split; [split|].
    + apply advance_wf; assumption.
    + simpl. assumption.
    + apply isAtEnd_false in He. simpl. lia.
  - split; [assumption|reflexivity].
  - assumption.
Qed.

End AdvanceLoop.

(** The three conditions of the advancing loops in the form above. *)
Lemma digit_cond : forall s,
    isDigit (peek s) = isDigit (peek s) && negb (isAtEnd s).
Proof.
  intros s. destruct (isDigit (peek s)) eqn:E; [|reflexivity].
  now rewrite (isDigit_not_end _ E).
Qed.

Lemma alnum_cond : forall s,
    isAlphaNumeric (peek s) = isAlphaNumeric (peek s) && negb (isAtEnd s).
Proof.
  intros s. destruct (isAlphaNumeric (peek s)) eqn:E; [|reflexivity].
  now rewrite (isAlphaNumeric_not_end _ E).
Qed.

(** ** The loop of [string] *)

Lemma moved_swept : forall st st', moved st st' -> swept st st'.
Proof. intros st st' []. split; try assumption. lia. Qed.

Lemma swept_refl : forall st, swept st st.
Proof. intros st. apply moved_swept, moved_refl. Qed.

Lemma swept_trans : forall a b c, swept a b -> swept b c -> swept a c.
Proof.
  intros a b c [] []. split; try congruence; try lia.
  destruct swept_trace0 as (t1 & T1), swept_trace1 as (t2 & T2).
  exists (t1 ++ t2). rewrite T2, T1, app_assoc. reflexivity.
Qed.

Lemma swept_later : forall st st', swept st st' -> later st st'.
Proof.
  intros st st' []. split; try assumption.
  - exists []. rewrite app_nil_r. split; [assumption|constructor].
  - exists []. rewrite app_nil_r. assumption.
Qed.

Lemma set_line_wf : forall st,
    wf st -> wf (set_line (line st + 1) st).
Proof.
  intros st Hwf. destruct (wf_bounds _ Hwf).
  apply assign_wf; try assumption; lia.
Qed.

Lemma set_line_swept : forall st, swept st (set_line (line st + 1) st).
Proof.
  intros st. split; simpl; try reflexivity; try lia. eexists. reflexivity.
Qed.

Lemma char_is_LF : forall a, char_is (Some a) LF = true <-> a = LF.
Proof. intros a. simpl. apply Ascii.eqb_eq. Qed.

Lemma newlines_cons : forall n a l,
    newlines (S n) (a :: l)
    = (if char_is (Some a) LF then 1 else 0) + newlines n l.
Proof.
  intros n a l. unfold newlines. simpl firstn. simpl count_occ.
  destruct (ascii_dec a LF) as [->|Hne].
  - reflexivity.
  - destruct (char_is (Some a) LF) eqn:E; [|reflexivity].
    apply char_is_LF in E. contradiction.
Qed.

Lemma string_loop_spec : forall fuel st r,
    wf st ->
    while fuel string_cond string_body st = Some r ->
    let n := run_length not_quote (skipn (current st) (source st)) in
    wf r /\ swept st r /\
    current r = current st + n /\
    line r = line st + newlines n (skipn (current st) (source st)).
Proof.
  induction fuel as [|fuel IH]; intros st r Hwf H; [discriminate|].
  simpl in H. unfold string_cond at 1 in H.
  destruct (isAtEnd st) eqn:He.
  - rewrite andb_false_r in H. injection H as <-.
    apply isAtEnd_true in He.
    rewrite skipn_all2 by assumption. simpl.
    split; [assumption|]. split; [apply swept_refl|]. unfold newlines. simpl. lia.
  - rewrite andb_true_r in H. unfold string_body at 1 in H.
    rewrite (peek_inside _ He) in H.
    pose proof He as Hlt. apply isAtEnd_false in Hlt.
    destruct (skipn_charAt _ _ Hlt) as (a & Ha & Hs).
    rewrite Hs, Ha in *. cbn [run_length].
    change (not_quote (Some a)) with (negb (char_is (Some a) DQUOTE)).
    destruct (negb (char_is (Some a) DQUOTE)).
    + set (st1 := if char_is (Some a) LF then set_line (line st + 1) st else st) in *.
      assert (H1 : wf st1 /\ swept st st1 /\ current st1 = current st
                   /\ source st1 = source st /\ isAtEnd st1 = false
                   /\ line st1 = line st + (if char_is (Some a) LF then 1 else 0)).
      { subst st1. destruct (char_is (Some a) LF).
        - split; [apply set_line_wf; assumption|].
          split; [apply set_line_swept|]. repeat split; simpl; try lia. exact He.
        - split; [assumption|]. split; [apply swept_refl|].
          repeat split; try lia. exact He. }
      destruct H1 as (Hw1 & Hs1 & Hc1 & Hsrc1 & He1 & Hl1).
      unfold advance_ in H.
      destruct (IH _ _ (advance_wf _ Hw1 He1) H) as (Hw & Hm & Hc & Hl).
      change (current (snd (advance st1))) with (current st1 + 1) in *.
      change (source (snd (advance st1))) with (source st1) in *.
      change (line (snd (advance st1))) with (line st1) in *.
      rewrite Hc1, Hsrc1 in *.
      replace (current st + 1) with (S (current st)) in * by lia.
      split; [assumption|]. split.
      * eapply swept_trans; [exact Hs1|].
        eapply swept_trans; [apply moved_swept, advance_moved|exact Hm].
      * rewrite newlines_cons. split; lia.
    + injection H as <-.
      split; [assumption|]. split; [apply swept_refl|].
      unfold newlines. simpl. lia.
Qed.

Lemma string_loop_total : forall fuel st,
    wf st ->
    length (source st) - current st < fuel ->
    exists r, while fuel string_cond string_body st = Some r.
Proof.
  intros fuel st Hwf Hf.
  apply (while_total string_cond string_body
           (fun s => wf s /\ length (source s) = length (source st))
           (fun s => length (source s) - current s)).
  - intros s [Hs Hlen] Hc. unfold string_cond in Hc.
    apply andb_prop in Hc. destruct Hc as [_ He].
    apply negb_true_iff in He.
    eexists. split; [reflexivity|].
    pose proof He as Hlt. apply isAtEnd_false in Hlt.
    destruct (char_is (peek s) LF).
    + split; [split|].
      * apply advance_wf; [apply set_line_wf; assumption|exact He].
      * simpl. assumption.
      * simpl. lia.
    + split; [split|].
      * apply advance_wf; assumption.
      * simpl. assumption.
      * simpl. lia.
  - split; [assumption|reflexivity].
  - assumption.
Qed.

(** ** What each lexing function does *)

Lemma swept_outcome : forall st r, swept st r -> outcome st r [] [].
Proof.
  intros st r []. split; try assumption; rewrite app_nil_r; assumption.
Qed.

Lemma outcome_swept_l : forall st st' r ts ds,
    swept st st' -> outcome st' r ts ds -> outcome st r ts ds.
Proof.
  intros st st' r ts ds [] []. split; try congruence.
  rewrite out_flag0. destruct ds; congruence.
Qed.

Lemma outcome_addToken : forall st t l,
    outcome st (addToken t l st)
      [mkToken t (substring (source st) (start st) (current st))
               (match l with None => EmptyObject | Some v => v end)
               (line st)] [].
Proof.
  intros. split; simpl; try reflexivity. now rewrite app_nil_r.
Qed.

Lemma outcome_error : forall st ln m,
    outcome st (error ln m st) [] [mkDiagnostic ln EmptyString m].
Proof.
  intros. split; simpl; try reflexivity. now rewrite app_nil_r.
Qed.

Lemma string_spec : forall fuel st r,
    wf st ->
    string_ fuel st = Some r ->
    let rest := skipn (current st) (source st) in
    let n := run_length not_quote rest in
    let ln := line st + newlines n rest in
    wf r /\ later st r /\ line r = ln /\
    if current st + n <? length (source st) then
      current r = current st + n + 1 /\
      outcome st r
        [mkToken (Kind STRING)
           (substring (source st) (start st) (current st + n + 1))
           (StringValue
              (substring (source st) (start st + 1) (current st + n + 1 - 1)))
           ln] []
    else
      current r = current st + n /\
      outcome st r [] [mkDiagnostic ln EmptyString UnterminatedString].
Proof.
  intros fuel st r Hwf H. unfold string_ in H.
  destruct (while fuel _ _ st) as [st1|] eqn:Hloop; [|discriminate].
  destruct (string_loop_spec _ _ _ Hwf Hloop) as (Hw1 & Hs1 & Hc1 & Hl1).
  cbv zeta. pose proof Hs1 as [Hsrc Htok Hst Hfl Her _ _ _].
  destruct (isAtEnd st1) eqn:He.
  - injection H as <-.
    split; [apply report_wf; assumption|].
    split; [eapply later_trans; [apply swept_later; exact Hs1|apply report_later]|].
    split; [exact Hl1|].
    assert (Hge : (current st + run_length not_quote (skipn (current st) (source st))
                  <? length (source st)) = false).
    { apply Nat.ltb_ge. apply isAtEnd_true in He. rewrite <- Hc1, <- Hsrc. exact He. }
    rewrite Hge. split; [exact Hc1|].
    eapply outcome_swept_l; [exact Hs1|].
    rewrite <- Hl1. apply outcome_error.
  - injection H as <-.
    set (st2 := snd (advance st1)).
    assert (Hw2 : wf st2) by (apply advance_wf; assumption).
    split; [apply addToken_wf; assumption|].
    split.
    { eapply later_trans; [apply swept_later; exact Hs1|].
      eapply later_trans; [apply advance_later|].
      apply addToken_later. discriminate. }
    split; [exact Hl1|].
    assert (Hlt : (current st + run_length not_quote (skipn (current st) (source st))
                  <? length (source st)) = true).
    { apply Nat.ltb_lt. apply isAtEnd_false in He. rewrite <- Hc1, <- Hsrc. exact He. }
    rewrite Hlt. split; [simpl; lia|].
    eapply outcome_swept_l;
      [eapply swept_trans; [exact Hs1|apply moved_swept, advance_moved]|].
    fold st2.
    replace (current st + run_length not_quote (skipn (current st) (source st)) + 1)
      with (current st2) by (simpl; lia).
    rewrite <- Hl1.
    change (line st1) with (line st2).
    rewrite <- Hsrc, <- Hst.
    change (source st1) with (source st2). change (start st1) with (start st2).
    apply outcome_addToken.
Qed.

Lemma string_total : forall fuel st,
    wf st ->
    length (source st) - current st < fuel ->
    exists r, string_ fuel st = Some r.
Proof.
  intros fuel st Hwf Hf. unfold string_.
  destruct (string_loop_total fuel st Hwf Hf) as (st1 & H1).
  unfold string_cond, string_body in H1. rewrite H1.
  destruct (isAtEnd st1); eauto.
Qed.

Lemma peek_skipn : forall st,
    peek st = match skipn (current st) (source st) with
              | a :: _ => Some a
              | [] => Some NUL
              end.
Proof.
  intros st. destruct (isAtEnd st) eqn:He.
  - rewrite (peek_at_end _ He). apply isAtEnd_true in He.
    now rewrite skipn_all2.
  - rewrite (peek_inside _ He). apply isAtEnd_false in He.
    destruct (skipn_charAt _ _ He) as (a & -> & ->). reflexivity.
Qed.

Lemma peekNext_skipn : forall st,
    peekNext st = match skipn (current st) (source st) with
                  | _ :: b :: _ => Some b
                  | _ => Some NUL
                  end.
Proof.
  intros st. unfold peekNext.
  destruct (length (source st) <=? current st + 1) eqn:E.
  - apply Nat.leb_le in E.
    destruct (Nat.lt_ge_cases (current st) (length (source st))) as [Hlt|Hge].
    + destruct (skipn_charAt _ _ Hlt) as (a & _ & ->).
      rewrite skipn_all2 by lia. reflexivity.
    + now rewrite skipn_all2.
  - apply Nat.leb_gt in E.
    destruct (skipn_charAt (source st) (current st)) as (a & _ & ->); [lia|].
    destruct (skipn_charAt (source st) (S (current st))) as (b & Hb & ->); [lia|].
    replace (current st + 1) with (S (current st)) by lia. exact Hb.
Qed.

Lemma fraction_test : forall st,
    char_is (peek st) "." && isDigit (peekNext st)
    = has_fraction (skipn (current st) (source st)).
Proof.
  intros st. rewrite peek_skipn, peekNext_skipn.
  destruct (skipn (current st) (source st)) as [|a [|b l]]; try reflexivity.
  simpl. now rewrite andb_false_r.
Qed.

Lemma number_spec : forall fuel st r,
    wf st ->
    number fuel st = Some r ->
    let n := number_length (skipn (current st) (source st)) in
    let text := substring (source st) (start st) (current st + n) in
    wf r /\ later st r /\ line r = line st /\ current r = current st + n /\
    outcome st r
      [mkToken (Kind NUMBER) text (NumberValue (parseFloat text)) (line st)]
      [].
Proof.
  intros fuel st r Hwf H. unfold number in H.
  destruct (while fuel _ _ st) as [st1|] eqn:Hloop1; [|discriminate].
  destruct (advance_loop_spec _ isDigit digit_cond _ _ _ Hwf Hloop1)
    as (Hw1 & Hm1 & Hc1).
  pose proof Hm1 as [Hsrc1 _ Hst1 Hl1 _ _ _ _].
  rewrite fraction_test in H.
  cbv zeta. unfold number_length.
  assert (Hrest : skipn (current st1) (source st1)
                  = skipn (run_length isDigit (skipn (current st) (source st)))
                          (skipn (current st) (source st))).
  { rewrite skipn_skipn, Hc1, Hsrc1. f_equal. lia. }
  rewrite <- Hrest.
  destruct (has_fraction (skipn (current st1) (source st1))) eqn:Hf.
  - destruct (while fuel _ _ (snd (advance st1))) as [st2|] eqn:Hloop2;
      [|discriminate].
    injection H as <-.
    assert (He1 : isAtEnd st1 = false).
    { destruct (isAtEnd st1) eqn:He; [|reflexivity].
      apply isAtEnd_true in He. rewrite skipn_all2 in Hf by assumption.
      discriminate. }
    destruct (advance_loop_spec _ isDigit digit_cond _ _ _
                (advance_wf _ Hw1 He1) Hloop2) as (Hw2 & Hm2 & Hc2).
    assert (Hm : moved st st2).
    { eapply moved_trans; [exact Hm1|].
      eapply moved_trans; [apply advance_moved|exact Hm2]. }
    pose proof Hm as [Hsrc2 _ Hst2 Hl2 _ _ _ _].
    change (current (snd (advance st1))) with (current st1 + 1) in Hc2.
    change (source (snd (advance st1))) with (source st1) in Hc2.
    assert (Hcur : current st2
                   = current st
                     + (run_length isDigit (skipn (current st) (source st)) + 1
                        + run_length isDigit
                            (skipn (run_length isDigit
                                      (skipn (current st) (source st)) + 1)
                                   (skipn (current st) (source st))))).
    { rewrite Hc2, Hc1, Hsrc1. rewrite skipn_skipn.
      replace (run_length isDigit (skipn (current st) (source st)) + 1
               + current st)
        with (current st + run_length isDigit (skipn (current st) (source st))
              + 1) by lia.
      lia. }
    split; [apply addToken_wf; assumption|].
    split.
    { eapply later_trans; [apply moved_later; exact Hm|].
      apply addToken_later. discriminate. }
    split; [simpl; exact Hl2|]. split; [exact Hcur|].
    eapply outcome_swept_l; [apply moved_swept; exact Hm|].
    rewrite <- Hcur, <- Hsrc2, <- Hst2, <- Hl2. apply outcome_addToken.
  - injection H as <-.
    split; [apply addToken_wf; assumption|].
    split.
    { eapply later_trans; [apply moved_later; exact Hm1|].
      apply addToken_later. discriminate. }
    split; [simpl; exact Hl1|]. split; [exact Hc1|].
    eapply outcome_swept_l; [apply moved_swept; exact Hm1|].
    rewrite <- Hc1, <- Hsrc1, <- Hst1, <- Hl1. apply outcome_addToken.
Qed.

Lemma number_total : forall fuel st,
    wf st ->
    length (source st) - current st < fuel ->
    exists r, number fuel st = Some r.
Proof.
  intros fuel st Hwf Hf. unfold number.
  destruct (advance_loop_total _ isDigit digit_cond fuel st Hwf Hf)
    as (st1 & H1).
  rewrite H1.
  destruct (advance_loop_spec _ isDigit digit_cond _ _ _ Hwf H1)
    as (Hw1 & Hm1 & Hc1).
  destruct (char_is (peek st1) "." && isDigit (peekNext st1)) eqn:E; [|eauto].
  assert (He1 : isAtEnd st1 = false).
  { destruct (isAtEnd st1) eqn:He; [|reflexivity].
    rewrite (peek_at_end _ He) in E. discriminate. }
  destruct (advance_loop_total _ isDigit digit_cond fuel (snd (advance st1)))
    as (st2 & H2).
  - apply advance_wf; assumption.
  - simpl. rewrite (moved_source _ _ Hm1). lia.
  - rewrite H2. eauto.
Qed.

Lemma own_property_not_EOF : forall table key,
    Forall (fun kv => snd kv <> EOF) table ->
    own_property table key <> Some EOF.
Proof.
  induction table as [|[k v] table IH]; intros key HF; simpl; [discriminate|].
  inversion HF; subst. destruct (String.eqb k key).
  - simpl in *. congruence.
  - apply IH. assumption.
Qed.

Lemma identifier_type_not_EOF : forall text, identifier_type text <> Kind EOF.
Proof.
  intros text. unfold identifier_type, keywords_get.
  destruct (own_property keywords _) as [t|] eqn:E.
  - intros H. injection H as ->.
    revert E. apply own_property_not_EOF.
    unfold keywords. repeat constructor; discriminate.
  - destruct (existsb _ _); discriminate.
Qed.

Lemma identifier_spec : forall fuel st r,
    wf st ->
    identifier fuel st = Some r ->
    let n := run_length isAlphaNumeric (skipn (current st) (source st)) in
    let text := substring (source st) (start st) (current st + n) in
    wf r /\ later st r /\ line r = line st /\ current r = current st + n /\
    outcome st r [mkToken (identifier_type text) text EmptyObject (line st)] [].
Proof.
  intros fuel st r Hwf H. unfold identifier in H.
  destruct (while fuel _ _ st) as [st1|] eqn:Hloop1; [|discriminate].
  destruct (advance_loop_spec _ isAlphaNumeric alnum_cond _ _ _ Hwf Hloop1)
    as (Hw1 & Hm1 & Hc1).
  pose proof Hm1 as [Hsrc1 _ Hst1 Hl1 _ _ _ _].
  injection H as <-. cbv zeta.
  split; [apply addToken_wf; assumption|].
  split.
  { eapply later_trans; [apply moved_later; exact Hm1|].
    apply addToken_later. apply identifier_type_not_EOF. }
  split; [simpl; exact Hl1|]. split; [exact Hc1|].
  eapply outcome_swept_l; [apply moved_swept; exact Hm1|].
  rewrite <- Hc1, <- Hsrc1, <- Hst1, <- Hl1.
  apply (outcome_addToken st1 _ None).
Qed.

Lemma identifier_total : forall fuel st,
    wf st ->
    length (source st) - current st < fuel ->
    exists r, identifier fuel st = Some r.
Proof.
  intros fuel st Hwf Hf. unfold identifier.
  destruct (advance_loop_total _ isAlphaNumeric alnum_cond fuel st Hwf Hf)
    as (st1 & H1).
  rewrite H1. eauto.
Qed.

(** ** The dispatch of [scanToken] *)

Lemma comment_cond_peek : forall s,
    comment_cond s = not_newline (peek s) && negb (isAtEnd s).
Proof. reflexivity. Qed.

Ltac head_test :=
  match goal with
  | |- context [if char_is ?c ?k then _ else _] =>
      let E := fresh "E" in destruct (char_is c k) eqn:E
  end.

Lemma scanToken_dispatch : forall fuel st,
    dispatch fuel (fst (advance st)) (snd (advance st)) (scanToken fuel st).
Proof.
  intros fuel st. unfold scanToken.
  destruct (advance st) as [c st1]. cbn [fst snd].
  do 10 (head_test;
         [apply dispatch_single; unfold single_kind;
          repeat match goal with H : char_is _ _ = _ |- _ =>
                                 rewrite H; clear H end;
          reflexivity|]).
  do 4 (head_test;
        [destruct (match_ "=" st1) as [m st2] eqn:Em;
         change m with (fst (m, st2)); change st2 with (snd (m, st2)) at 2;
         rewrite <- Em;
         apply dispatch_double; unfold double_kind;
         repeat match goal with H : char_is _ _ = _ |- _ =>
                                rewrite H; clear H end;
         reflexivity|]).
  head_test.
  { destruct (match_ "/" st1) as [m st2] eqn:Em. destruct m.
    - change st2 with (snd (true, st2)). rewrite <- Em.
      apply dispatch_comment; [assumption|now rewrite Em].
    - change st2 with (snd (false, st2)). rewrite <- Em.
      apply dispatch_slash; [assumption|now rewrite Em]. }
  destruct (char_is c " " || char_is c CR || char_is c TAB) eqn:Eb.
  { apply dispatch_blank. exact Eb. }
  destruct (char_is c LF) eqn:El.
  { apply dispatch_newline. exact El. }
  destruct (char_is c DQUOTE) eqn:Eq.
  { apply dispatch_string. exact Eq. }
  destruct (isDigit c) eqn:Ed.
  { apply dispatch_number. exact Ed. }
  destruct (isAlpha c) eqn:Ea.
  { apply dispatch_identifier. exact Ea. }
  apply dispatch_error. unfold no_rule, single_kind, double_kind, is_blank.
  repeat match goal with H : _ = false |- _ => rewrite H; clear H end.
  reflexivity.
Qed.

Lemma single_kind_not_EOF : forall c t, single_kind c = Some t -> t <> EOF.
Proof.
  intros c t. unfold single_kind.
  repeat match goal with
         | |- context [if ?b then _ else _] => destruct b
         end; intros H; inversion H; discriminate.
Qed.

Lemma double_kind_not_EOF : forall c a b,
    double_kind c = Some (a, b) -> a <> EOF /\ b <> EOF.
Proof.
  intros c a b. unfold double_kind.
  repeat match goal with
         | |- context [if ?b then _ else _] => destruct b
         end; intros H; inversion H; split; discriminate.
Qed.

Lemma Kind_not_EOF : forall t, t <> EOF -> Kind t <> Kind EOF.
Proof. intros t H E. injection E as ->. contradiction. Qed.

(** Every way of [scanToken] keeps the invariants and leaves [start]
    alone. *)
Lemma dispatch_step : forall fuel c st r,
    wf st ->
    dispatch fuel c st (Some r) ->
    wf r /\ later st r /\ start r = start st.
Proof.
  intros fuel c st r Hwf H.
  remember (Some r) as res eqn:Hres.
  destruct H.
  - injection Hres as <-.
    split; [apply addToken_wf; assumption|].
    split; [|reflexivity].
    apply addToken_later, Kind_not_EOF. eapply single_kind_not_EOF; eassumption.
  - injection Hres as <-.
    destruct (double_kind_not_EOF _ _ _ H) as [Ha Hb].
    split; [apply addToken_wf, match_wf; assumption|].
    split; [|exact (moved_start _ _ (match_moved _ _))].
    eapply later_trans; [apply match_later|].
    apply addToken_later, Kind_not_EOF. destruct (fst _); assumption.
  - destruct (advance_loop_spec _ _ comment_cond_peek _ _ _
                (match_wf _ _ Hwf) Hres) as (Hw & Hm & _).
    split; [assumption|].
    pose proof (moved_trans _ _ _ (match_moved _ _) Hm) as Hm'.
    split; [apply moved_later; assumption|exact (moved_start _ _ Hm')].
  - injection Hres as <-.
    split; [apply addToken_wf, match_wf; assumption|].
    split; [|exact (moved_start _ _ (match_moved _ _))].
    eapply later_trans; [apply match_later|].
    apply addToken_later. discriminate.
  - injection Hres as <-.
    split; [assumption|]. split; [apply later_refl|reflexivity].
  - injection Hres as <-.
    split; [apply set_line_wf; assumption|].
    split; [apply swept_later, set_line_swept|reflexivity].
  - destruct (string_spec _ _ _ Hwf Hres) as (Hw & Hl & _ & Hif).
    split; [assumption|]. split; [assumption|].
    destruct (_ <? _); destruct Hif as [_ Ho]; exact (out_start _ _ _ _ Ho).
  - destruct (number_spec _ _ _ Hwf Hres) as (Hw & Hl & _ & _ & Ho).
    split; [assumption|]. split; [assumption|exact (out_start _ _ _ _ Ho)].
  - destruct (identifier_spec _ _ _ Hwf Hres) as (Hw & Hl & _ & _ & Ho).
    split; [assumption|]. split; [assumption|exact (out_start _ _ _ _ Ho)].
  - injection Hres as <-.
    split; [apply report_wf; assumption|].
    split; [apply report_later|reflexivity].
Qed.

Lemma dispatch_total : forall fuel c st res,
    wf st ->
    length (source st) - current st < fuel ->
    dispatch fuel c st res ->
    exists r, res = Some r.
Proof.
  intros fuel c st res Hwf Hf H. destruct H; eauto.
  - apply (advance_loop_total _ _ comment_cond_peek).
    + apply match_wf. assumption.
    + pose proof (match_moved "/" st) as [Hs _ _ _ _ _ Hc _].
      rewrite Hs. lia.
  - apply string_total; assumption.
  - apply number_total; assumption.
  - apply identifier_total; assumption.
Qed.

Lemma scanToken_step : forall fuel st r,
    wf st ->
    isAtEnd st = false ->
    scanToken fuel st = Some r ->
    wf r /\ later st r /\ current st < current r /\ start r = start st.
Proof.
  intros fuel st r Hwf He H.
  pose proof (scanToken_dispatch fuel st) as Hd. rewrite H in Hd.
  destruct (dispatch_step _ _ _ _ (advance_wf _ Hwf He) Hd) as (Hw & Hl & Hs).
  split; [assumption|].
  split; [eapply later_trans; [apply advance_later|exact Hl]|].
  split; [|exact Hs].
  pose proof (later_current _ _ Hl) as Hc. simpl in Hc. lia.
Qed.

Lemma scanToken_total : forall fuel st,
    wf st ->
    isAtEnd st = false ->
    length (source st) - current st <= fuel ->
    exists r, scanToken fuel st = Some r.
Proof.
  intros fuel st Hwf He Hf.
  apply (dispatch_total fuel (fst (advance st)) (snd (advance st))).
  - apply advance_wf; assumption.
  - apply isAtEnd_false in He. simpl. lia.
  - apply scanToken_dispatch.
Qed.

(** ** The main loop *)

Lemma set_start_wf : forall st, wf st -> wf (set_start (current st) st).
Proof.
  intros st Hwf. destruct (wf_bounds _ Hwf).
  apply assign_wf; try assumption; lia.
Qed.

Lemma set_start_later : forall st, later st (set_start (current st) st).
Proof. intros st. apply assign_later; lia. Qed.

Lemma scan_body_step : forall fuel st r,
    wf st ->
    scan_cond st = true ->
    scan_body fuel st = Some r ->
    wf r /\ later st r /\ current st < current r.
Proof.
  intros fuel st r Hwf Hc H. unfold scan_cond in Hc.
  apply negb_true_iff in Hc. unfold scan_body in H.
  destruct (scanToken_step fuel _ _ (set_start_wf _ Hwf) Hc H)
    as (Hw & Hl & Hlt & _).
  split; [assumption|].
  split; [eapply later_trans; [apply set_start_later|exact Hl]|exact Hlt].
Qed.

Lemma scan_loop_spec : forall fuel n st r,
    wf st ->
    while n scan_cond (scan_body fuel) st = Some r ->
    wf r /\ later st r /\ isAtEnd r = true.
Proof.
  intros fuel n st r Hwf H.
  destruct (while_rule scan_cond (scan_body fuel)
              (fun s => wf s /\ later st s)) with (fuel := n) (st := st) (r := r)
    as ((Hw & Hl) & Hc).
  - intros s s' [Hs Hls] Hc Hb.
    destruct (scan_body_step _ _ _ Hs Hc Hb) as (Hw' & Hl' & _).
    split; [assumption|eapply later_trans; eassumption].
  - split; [assumption|apply later_refl].
  - assumption.
  - split; [assumption|]. split; [assumption|].
    unfold scan_cond in Hc. now apply negb_false_iff in Hc.
Qed.

Lemma scan_loop_total : forall fuel n st,
    wf st ->
    length (source st) < fuel ->
    length (source st) - current st < n ->
    exists r, while n scan_cond (scan_body fuel) st = Some r.
Proof.
  intros fuel n st Hwf Hf Hn.
  apply (while_total scan_cond (scan_body fuel)
           (fun s => wf s /\ source s = source st)
           (fun s => length (source s) - current s)).
  - intros s [Hs Hsrc] Hc.
    assert (He : isAtEnd s = false)
      by (unfold scan_cond in Hc; now apply negb_true_iff in Hc).
    destruct (scanToken_total fuel (set_start (current s) s)) as (s' & Hs').
    + apply set_start_wf. assumption.
    + exact He.
    + simpl. rewrite Hsrc. lia.
    + exists s'. split; [exact Hs'|].
      destruct (scan_body_step _ _ _ Hs Hc Hs') as (Hw' & Hl' & Hlt).
      pose proof (later_source _ _ Hl') as Hsrc'.
      split; [split; [assumption|congruence]|].
      apply isAtEnd_false in He. rewrite Hsrc'. lia.
  - split; [assumption|reflexivity].
  - assumption.
Qed.

Lemma initial_wf : forall src toks he ce,
    wf (mkState src toks 0 0 1 he ce [mkCursor 0 0 1]).
Proof.
  intros. split; simpl.
  - lia.
  - exists []. reflexivity.
  - constructor; [split; simpl; lia|constructor].
  - apply nondecreasing_single.
Qed.

(** ** More fuel changes nothing *)

Lemma while_mono2 : forall cond (b b' : State -> option State),
    (forall s s', b s = Some s' -> b' s = Some s') ->
    forall fuel fuel' st r,
      while fuel cond b st = Some r ->
      fuel <= fuel' ->
      while fuel' cond b' st = Some r.
Proof.
  intros cond b b' Hb.
  induction fuel as [|fuel IH]; intros fuel' st r H Hle; [discriminate|].
  destruct fuel' as [|fuel']; [lia|].
  simpl in *. destruct (cond st); [|assumption].
  destruct (b st) as [st'|] eqn:E; [|discriminate].
  rewrite (Hb _ _ E). apply IH; [assumption|lia].
Qed.

Lemma string_mono : forall fuel fuel' st r,
    string_ fuel st = Some r -> fuel <= fuel' -> string_ fuel' st = Some r.
Proof.
  intros fuel fuel' st r H Hle. unfold string_ in *.
  destruct (while fuel _ _ st) as [st1|] eqn:E; [|discriminate].
  rewrite (while_mono _ _ _ _ _ _ E Hle). assumption.
Qed.

Lemma number_mono : forall fuel fuel' st r,
    number fuel st = Some r -> fuel <= fuel' -> number fuel' st = Some r.
Proof.
  intros fuel fuel' st r H Hle. unfold number in *.
  destruct (while fuel _ _ st) as [st1|] eqn:E; [|discriminate].
  rewrite (while_mono _ _ _ _ _ _ E Hle).
  destruct (char_is (peek st1) "." && isDigit (peekNext st1)); [|assumption].
  destruct (while fuel _ _ (snd (advance st1))) as [st2|] eqn:E2;
    [|discriminate].
  rewrite (while_mono _ _ _ _ _ _ E2 Hle). assumption.
Qed.

Lemma identifier_mono : forall fuel fuel' st r,
    identifier fuel st = Some r -> fuel <= fuel' ->
    identifier fuel' st = Some r.
Proof.
  intros fuel fuel' st r H Hle. unfold identifier in *.
  destruct (while fuel _ _ st) as [st1|] eqn:E; [|discriminate].
  rewrite (while_mono _ _ _ _ _ _ E Hle). assumption.
Qed.

Lemma scanToken_mono : forall fuel fuel' st r,
    scanToken fuel st = Some r -> fuel <= fuel' ->
    scanToken fuel' st = Some r.
Proof.
  intros fuel fuel' st r. unfold scanToken.
  destruct (advance st) as [c st1].
  repeat match goal with
         | |- context [match_ ?k ?s] => destruct (match_ k s)
         | |- context [if ?b then _ else _] => destruct b
         end;
    intros H Hle;
    first [ assumption
          | eapply while_mono; eassumption
          | eapply string_mono; eassumption
          | eapply number_mono; eassumption
          | eapply identifier_mono; eassumption ].
Qed.

Lemma scan_mono : forall fuel fuel' st r,
    scan fuel st = Some r -> fuel <= fuel' -> scan fuel' st = Some r.
Proof.
  intros fuel fuel' st r H Hle. unfold scan in *.
  destruct (while fuel _ _ st) as [st1|] eqn:E; [|discriminate].
  erewrite while_mono2; [exact H| |exact E|exact Hle].
  intros s s' Hs. cbv beta in *. eapply scanToken_mono; eassumption.
Qed.

(** The result of a scan does not depend on the fuel that was enough. *)
Lemma scan_deterministic : forall fuel fuel' src r r',
    scan_source fuel src = Some r ->
    scan_source fuel' src = Some r' ->
    r = r'.
Proof.
  intros fuel fuel' src r r' H H'. unfold scan_source, run, scanTokens in *.
  apply scan_mono with (fuel' := Nat.max fuel fuel') in H; [|lia].
  apply scan_mono with (fuel' := Nat.max fuel fuel') in H'; [|lia].
  congruence.
Qed.

Lemma scan_spec : forall fuel st r,
    wf st ->
    scan fuel st = Some r ->
    exists st1,
      r = push (EOF_token (line st1)) st1 /\
      wf st1 /\ later st st1 /\ isAtEnd st1 = true.
Proof.
  intros fuel st r Hwf H. unfold scan in H.
  destruct (while fuel _ _ st) as [st1|] eqn:E; [|discriminate].
  injection H as <-. exists st1. split; [reflexivity|].
  exact (scan_loop_spec fuel fuel st st1 Hwf E).
Qed.

Lemma scan_total : forall fuel st,
    wf st ->
    length (source st) < fuel ->
    exists r, scan fuel st = Some r.
Proof.
  intros fuel st Hwf Hf. unfold scan.
  destruct (scan_loop_total fuel fuel st Hwf Hf) as (st1 & H1); [lia|].
  unfold scan_cond, scan_body in H1. rewrite H1. eauto.
Qed.

Lemma scan_source_total : forall src extra,
    exists r, scan_source (S (length src) + extra) src = Some r.
Proof.
  intros src extra. unfold scan_source, run, scanTokens.
  apply scan_total; [apply initial_wf|simpl; lia].
Qed.

(** C1. Whatever the input, the scan ends: one more unit of fuel than the
    input has characters is enough, and more changes nothing.  The whole
    input is then consumed and the token array is the non-EOF tokens
    followed by a single EOF token with an empty lexeme; for the empty
    input it is that token alone. *)
Theorem scan_ends_with_one_EOF : forall src extra,
    exists r,
      scan_source (S (length src) + extra) src = Some r /\
      isAtEnd r = true /\
      exists ts,
        tokens r = ts ++ [mkToken (Kind EOF) [] EmptyObject (line r)] /\
        Forall (fun t => tk_type t <> Kind EOF) ts /\
        match src with [] => ts = [] | _ :: _ => True end.
Proof.
  intros src extra. unfold scan_source, run, scanTokens.
  set (st0 := mkState src [] 0 0 1 false [] [mkCursor 0 0 1]).
  assert (Hwf : wf st0) by apply initial_wf.
  destruct (scan_total (S (length src) + extra) st0 Hwf) as (r & Hr);
    [simpl; lia|].
  exists r. split; [exact Hr|].
  destruct (scan_spec _ _ _ Hwf Hr) as (st1 & -> & Hw1 & Hl1 & He1).
  split; [exact He1|].
  destruct (later_tokens _ _ Hl1) as (ts & Hts & Hall).
  exists ts. simpl. split; [rewrite Hts; reflexivity|].
  split; [exact Hall|].
  destruct src; [|exact I].
  (* the empty input: the loop does not run *)
  assert (Hr' : scan (S (length (@nil ascii)) + extra) st0
                = Some (push (EOF_token 1) st0)) by reflexivity.
  rewrite Hr in Hr'.
  apply (f_equal (option_map tokens)) in Hr'. simpl in Hr'. rewrite Hts in Hr'.
  simpl in Hr'.
  injection Hr' as Hr'.
  apply (app_inj_tail ts []) in Hr'. tauto.
Qed.

(** C5. Every value that the cursor takes during a scan, from the
    declarations of [start], [current] and [line] to the last assignment,
    satisfies [start <= current <= length(source)], and the successive
    values of [line] never decrease. *)
Theorem cursor_invariant : forall fuel src r,
    scan_source fuel src = Some r ->
    Forall (cursor_ok (length src)) (trace r) /\
    nondecreasing (map c_line (trace r)) /\
    In (cursor_of r) (trace r).
Proof.
  intros fuel src r H. unfold scan_source, run, scanTokens in H.
  destruct (scan_spec _ _ _ (initial_wf src [] false []) H)
    as (st1 & -> & [Hb (tr & Hlast) Ht Hn] & Hl1 & _).
  pose proof (later_source _ _ Hl1) as Hsrc. simpl in Hsrc.
  rewrite Hsrc in Ht. simpl.
  split; [exact Ht|]. split; [exact Hn|].
  rewrite Hlast. apply in_or_app. right. left. reflexivity.
Qed.

Lemma cursor_invariant_witness :
  exists r,
    scan_source 4 (str "1.5") = Some r /\
    Forall (cursor_ok 3) (trace r) /\
    nondecreasing (map c_line (trace r)) /\
    In (cursor_of r) (trace r).
Proof.
  eexists. split; [vm_compute; reflexivity|].
  apply (cursor_invariant 4 (str "1.5")). vm_compute. reflexivity.
Defined.

(** ** The states of the main loop *)

Lemma loop_head_wf : forall fuel src st,
    loop_head fuel src st -> wf st /\ source st = src.
Proof.
  induction 1 as [|st st' Hh [IHw IHs] He Hs].
  - split; [apply initial_wf|reflexivity].
  - destruct (scanToken_step _ _ _ (set_start_wf _ IHw) He Hs)
      as (Hw & Hl & _).
    split; [assumption|].
    rewrite (later_source _ _ Hl). exact IHs.
Qed.

Lemma entered_fields : forall st,
    source (entered st) = source st /\
    tokens (entered st) = tokens st /\
    start (entered st) = current st /\
    current (entered st) = current st + 1 /\
    line (entered st) = line st /\
    had_error (entered st) = had_error st /\
    console_error (entered st) = console_error st.
Proof. intros st. repeat split. Qed.

Lemma entered_wf : forall st,
    wf st -> isAtEnd st = false -> wf (entered st).
Proof.
  intros st Hwf He. apply advance_wf; [apply set_start_wf; assumption|exact He].
Qed.

(** ** The branches of [scanToken], one character at a time *)

Lemma scanToken_quote : forall fuel st,
    charAt (source st) (current st) = Some DQUOTE ->
    scanToken fuel (set_start (current st) st) = string_ fuel (entered st).
Proof.
  intros fuel st H. unfold scanToken, entered, advance.
  change (source (set_start (current st) st)) with (source st).
  change (current (set_start (current st) st)) with (current st).
  rewrite H. reflexivity.
Qed.

Lemma scanToken_digit : forall fuel st a,
    charAt (source st) (current st) = Some a ->
    isDigit (Some a) = true ->
    scanToken fuel (set_start (current st) st) = number fuel (entered st).
Proof.
  intros fuel st a H Hd. unfold scanToken, entered, advance.
  change (source (set_start (current st) st)) with (source st).
  change (current (set_start (current st) st)) with (current st).
  rewrite H. cbn [snd].
  destruct a as [[] [] [] [] [] [] [] []]; try discriminate Hd; reflexivity.
Qed.

Lemma no_rule_tests : forall c,
    no_rule c = true ->
    single_kind c = None /\ double_kind c = None /\
    char_is c "/" = false /\ is_blank c = false /\ char_is c LF = false /\
    char_is c DQUOTE = false /\ isDigit c = false /\ isAlpha c = false.
Proof.
  intros c H. unfold no_rule in H.
  destruct (single_kind c); [discriminate|].
  destruct (double_kind c); [discriminate|].
  apply negb_true_iff in H.
  repeat (apply orb_false_iff in H; destruct H as [H ?]).
  repeat split; assumption.
Qed.

Lemma scanToken_no_rule : forall fuel st,
    no_rule (charAt (source st) (current st)) = true ->
    scanToken fuel (set_start (current st) st)
    = Some (error (line st) UnexpectedCharacter (entered st)).
Proof.
  intros fuel st H. unfold scanToken, entered, advance.
  change (source (set_start (current st) st)) with (source st).
  change (current (set_start (current st) st)) with (current st).
  cbn [snd].
  destruct (no_rule_tests _ H) as (Hs & Hd & Hsl & Hb & Hl & Hq & Hdg & Ha).
  unfold single_kind in Hs. unfold double_kind in Hd. unfold is_blank in Hb.
  set (c := charAt (source st) (current st)) in *.
  repeat match type of Hs with
         | context [if char_is c ?k then _ else _] =>
             destruct (char_is c k); [discriminate Hs|]
         end.
  repeat match type of Hd with
         | context [if char_is c ?k then _ else _] =>
             destruct (char_is c k); [discriminate Hd|]
         end.
  rewrite Hsl, Hb, Hl, Hq, Hdg, Ha. reflexivity.
Qed.

Lemma scanToken_comment : forall fuel st,
    charAt (source st) (current st) = Some "/"%char ->
    charAt (source st) (current st + 1) = Some "/"%char ->
    scanToken fuel (set_start (current st) st)
    = while fuel comment_cond advance_
            (set_current (current st + 2) (entered st)).
Proof.
  intros fuel st H1 H2. unfold scanToken, entered, advance.
  change (source (set_start (current st) st)) with (source st).
  change (current (set_start (current st) st)) with (current st).
  rewrite H1. cbn [snd char_is Ascii.eqb]. cbn.
  unfold match_.
  assert (He : isAtEnd (set_current (current st + 1)
                          (set_start (current st) st)) = false).
  { apply isAtEnd_false. cbn.
    apply nth_error_Some. unfold charAt in H2. rewrite H2. discriminate. }
  rewrite He. cbn [source current set_current assign set_start].
  rewrite H2. cbn.
  replace (current st + 1 + 1) with (current st + 2) by lia.
  reflexivity.
Qed.

Lemma scanToken_alpha : forall fuel st a,
    charAt (source st) (current st) = Some a ->
    isAlpha (Some a) = true ->
    scanToken fuel (set_start (current st) st) = identifier fuel (entered st).
Proof.
  intros fuel st a H Hd. unfold scanToken, entered, advance.
  change (source (set_start (current st) st)) with (source st).
  change (current (set_start (current st) st)) with (current st).
  rewrite H. cbn [snd].
  destruct a as [[] [] [] [] [] [] [] []]; try discriminate Hd; reflexivity.
Qed.

Lemma charAt_Some_not_end : forall st a,
    charAt (source st) (current st) = Some a -> isAtEnd st = false.
Proof.
  intros st a H. apply isAtEnd_false. apply nth_error_Some.
  unfold charAt in H. rewrite H. discriminate.
Qed.

Lemma run_length_all : forall p l,
    (forall a, In a l -> p (Some a) = true) -> run_length p l = length l.
Proof.
  induction l as [|a l IH]; intros H; [reflexivity|].
  simpl. rewrite (H a) by (left; reflexivity).
  rewrite IH; [reflexivity|]. intros b Hb. apply H. right. exact Hb.
Qed.

Lemma not_quote_true : forall a, a <> DQUOTE -> not_quote (Some a) = true.
Proof.
  intros a H. unfold not_quote. simpl. apply negb_true_iff.
  apply Ascii.eqb_neq. exact H.
Qed.

Lemma run_length_cons : forall p a l,
    p (Some a) = true -> run_length p (a :: l) = S (run_length p l).
Proof. intros p a l H. simpl. now rewrite H. Qed.

Lemma number_length_cons : forall a l,
    isDigit (Some a) = true -> number_length (a :: l) = S (number_length l).
Proof.
  intros a l H. unfold number_length.
  rewrite (run_length_cons _ _ _ H).
  change (skipn (S (run_length isDigit l)) (a :: l))
    with (skipn (run_length isDigit l) l).
  change (skipn (S (run_length isDigit l) + 1) (a :: l))
    with (skipn (run_length isDigit l + 1) l).
  destruct (has_fraction _); lia.
Qed.

(** C3. A string literal that is opened and not closed before the end of
    the input pushes no token and reports exactly one diagnostic,
    [Unterminated string.], at the line where the scan stopped; the scan is
    then at the end of the input.  Scanning a quote followed by [abc] gives
    the EOF token alone and that one diagnostic. *)
Theorem unterminated_string :
  (forall fuel src st,
      length src < fuel ->
      loop_head fuel src st ->
      charAt src (current st) = Some DQUOTE ->
      ~ In DQUOTE (skipn (current st + 1) src) ->
      exists r,
        scanToken fuel (set_start (current st) st) = Some r /\
        tokens r = tokens st /\
        console_error r
        = console_error st
          ++ [mkDiagnostic (line r) EmptyString UnterminatedString] /\
        had_error r = true /\
        isAtEnd r = true)
  /\
  (exists r,
      scan_source 5 (DQUOTE :: str "abc") = Some r /\
      tokens r = [mkToken (Kind EOF) [] EmptyObject 1] /\
      console_error r = [mkDiagnostic 1 EmptyString UnterminatedString]).
Proof.
  split; [|eexists; split; [vm_compute; reflexivity|split; reflexivity]].
  intros fuel src st Hf Hh Hq Hno.
  destruct (loop_head_wf _ _ _ Hh) as [Hwf Hsrc]. subst src.
  pose proof (charAt_Some_not_end _ _ Hq) as He.
  pose proof (entered_wf _ Hwf He) as Hw1.
  rewrite (scanToken_quote _ _ Hq).
  destruct (string_total fuel (entered st) Hw1) as (r & Hr); [simpl; lia|].
  exists r. split; [exact Hr|].
  destruct (string_spec _ _ _ Hw1 Hr) as (Hw & Hl & Hln & Hif).
  change (current (entered st)) with (current st + 1) in *.
  change (source (entered st)) with (source st) in *.
  rewrite (run_length_all not_quote) in *.
  2:{ intros a Ha. apply not_quote_true. intros ->. contradiction. }
  2:{ intros a Ha. apply not_quote_true. intros ->. contradiction. }
  rewrite length_skipn in *.
  apply isAtEnd_false in He.
  assert (Hge : (current st + 1 + (length (source st) - (current st + 1))
                 <? length (source st)) = false) by (apply Nat.ltb_ge; lia).
  rewrite Hge in Hif. destruct Hif as [Hc [_ _ Ht Hd Hfl]].
  split; [rewrite Ht; apply app_nil_r|].
  split; [rewrite Hd, Hln; reflexivity|].
  split; [exact Hfl|].
  apply isAtEnd_true. rewrite (later_source _ _ Hl). simpl. lia.
Qed.

Lemma unterminated_string_witness :
  exists r,
    scanToken 5 (set_start 0
                   (mkState (DQUOTE :: str "abc") [] 0 0 1 false []
                            [mkCursor 0 0 1])) = Some r /\
    tokens r = [] /\
    console_error r = [mkDiagnostic (line r) EmptyString UnterminatedString] /\
    had_error r = true /\
    isAtEnd r = true.
Proof.
  apply (proj1 unterminated_string 5 (DQUOTE :: str "abc")
               (mkState (DQUOTE :: str "abc") [] 0 0 1 false []
                        [mkCursor 0 0 1])).
  - simpl. lia.
  - apply loop_head_first.
  - reflexivity.
  - simpl. intros [H|[H|[H|[]]]]; discriminate H.
Defined.

(** C6. A character for which no rule exists is reported once as
    [Unexpected character.] at the current line; no token is pushed, the
    line does not change and the main loop goes on with the next
    character.  Scanning [@123] reports one such diagnostic at line 1 and
    then gives the NUMBER token of [123]. *)
Theorem unexpected_character :
  (forall fuel src st,
      loop_head fuel src st ->
      isAtEnd st = false ->
      no_rule (charAt src (current st)) = true ->
      exists r,
        scanToken fuel (set_start (current st) st) = Some r /\
        loop_head fuel src r /\
        tokens r = tokens st /\
        console_error r
        = console_error st
          ++ [mkDiagnostic (line st) EmptyString UnexpectedCharacter] /\
        current r = current st + 1 /\
        line r = line st)
  /\
  (exists r,
      scan_source 5 (str "@123") = Some r /\
      console_error r = [mkDiagnostic 1 EmptyString UnexpectedCharacter] /\
      tokens r = [mkToken (Kind NUMBER) (str "123")
                          (NumberValue (Decimal (123 # 1))) 1;
                  mkToken (Kind EOF) [] EmptyObject 1]).
Proof.
  split; [|eexists; split; [vm_compute; reflexivity|split; reflexivity]].
  intros fuel src st Hh He Hno.
  destruct (loop_head_wf _ _ _ Hh) as [Hwf Hsrc]. subst src.
  pose proof (scanToken_no_rule fuel _ Hno) as Hs.
  eexists. split; [exact Hs|].
  split; [eapply loop_head_next; eassumption|].
  repeat split.
Qed.

Lemma unexpected_character_witness :
  exists r,
    scanToken 5 (set_start 0
                   (mkState (str "@123") [] 0 0 1 false [] [mkCursor 0 0 1]))
    = Some r /\
    loop_head 5 (str "@123") r /\
    tokens r = [] /\
    console_error r = [mkDiagnostic 1 EmptyString UnexpectedCharacter] /\
    current r = 1 /\
    line r = 1.
Proof.
  apply (proj1 unexpected_character 5 (str "@123")
               (mkState (str "@123") [] 0 0 1 false [] [mkCursor 0 0 1])).
  - apply loop_head_first.
  - reflexivity.
  - reflexivity.
Defined.

(** C7. Two slashes open a comment: the characters up to the next newline
    or the end of the input are consumed, the newline itself is not, no
    token is pushed, nothing is reported and the line does not change, so
    that the newline is counted by the next turn of the main loop.
    Scanning a comment, a newline and [123] gives one NUMBER token, at
    line 2. *)
Theorem line_comment :
  (forall fuel src st,
      length src < fuel ->
      loop_head fuel src st ->
      charAt src (current st) = Some "/"%char ->
      charAt src (current st + 1) = Some "/"%char ->
      exists r,
        scanToken fuel (set_start (current st) st) = Some r /\
        tokens r = tokens st /\
        console_error r = console_error st /\
        line r = line st /\
        current r
        = current st + 2
          + run_length not_newline (skipn (current st + 2) src) /\
        (isAtEnd r = true \/ charAt src (current r) = Some LF))
  /\
  (exists r,
      scan_source 15 (str "// comment" ++ LF :: str "123") = Some r /\
      console_error r = [] /\
      tokens r = [mkToken (Kind NUMBER) (str "123")
                          (NumberValue (Decimal (123 # 1))) 2;
                  mkToken (Kind EOF) [] EmptyObject 2]).
Proof.
  split; [|eexists; split; [vm_compute; reflexivity|split; reflexivity]].
  intros fuel src st Hf Hh H1 H2.
  destruct (loop_head_wf _ _ _ Hh) as [Hwf Hsrc]. subst src.
  pose proof (charAt_Some_not_end _ _ H1) as He.
  pose proof (entered_wf _ Hwf He) as Hw1.
  assert (Hlt : current st + 1 < length (source st)).
  { apply nth_error_Some. unfold charAt in H2. rewrite H2. discriminate. }
  assert (Hw2 : wf (set_current (current st + 2) (entered st))).
  { apply assign_wf; simpl; try assumption; lia. }
  rewrite (scanToken_comment _ _ H1 H2).
  destruct (advance_loop_total _ _ comment_cond_peek fuel _ Hw2) as (r & Hr);
    [simpl; lia|].
  exists r. split; [exact Hr|].
  destruct (advance_loop_spec _ _ comment_cond_peek _ _ _ Hw2 Hr)
    as (Hw & [Hs Ht _ Hl _ Hd _ _] & Hc).
  split; [exact Ht|]. split; [exact Hd|]. split; [exact Hl|].
  split; [exact Hc|].
  destruct (while_rule comment_cond advance_ (fun _ => True)
                       (fun _ _ _ _ _ => I) _ _ _ I Hr) as [_ Hcond].
  unfold comment_cond in Hcond.
  destruct (isAtEnd r) eqn:Her; [left; reflexivity|right].
  rewrite andb_true_r in Hcond. apply negb_false_iff in Hcond.
  rewrite (peek_inside _ Her), Hs in Hcond. simpl in Hcond.
  destruct (charAt (source st) (current r)) as [a|]; [|discriminate].
  apply char_is_LF in Hcond. now subst a.
Qed.

Lemma line_comment_witness :
  exists r,
    scanToken 4 (set_start 0
                   (mkState (str "//a") [] 0 0 1 false [] [mkCursor 0 0 1]))
    = Some r /\
    tokens r = [] /\
    console_error r = [] /\
    line r = 1 /\
    current r = 0 + 2 + run_length not_newline (skipn (0 + 2) (str "//a")) /\
    (isAtEnd r = true \/ charAt (str "//a") (current r) = Some LF).
Proof.
  apply (proj1 line_comment 4 (str "//a")
               (mkState (str "//a") [] 0 0 1 false [] [mkCursor 0 0 1])).
  - simpl. lia.
  - apply loop_head_first.
  - reflexivity.
  - reflexivity.
Defined.

(** C8. A digit opens a number.  Its lexeme is the longest run of digits
    and, only when a dot with a digit right after it follows, that dot and
    the longest run of digits after it; one NUMBER token is pushed whose
    literal is the value of the lexeme.  A dot that no digit follows is left
    for the next token.  Scanning [12.5] gives one NUMBER token of value
    12.5; scanning [12.] gives a NUMBER token of value 12 and a DOT
    token. *)
Theorem number_lexing :
  (forall fuel src st a,
      length src < fuel ->
      loop_head fuel src st ->
      charAt src (current st) = Some a ->
      isDigit (Some a) = true ->
      let n := number_length (skipn (current st) src) in
      let text := substring src (current st) (current st + n) in
      exists r,
        scanToken fuel (set_start (current st) st) = Some r /\
        tokens r
        = tokens st
          ++ [mkToken (Kind NUMBER) text (NumberValue (parseFloat text))
                      (line st)] /\
        console_error r = console_error st /\
        current r = current st + n /\
        line r = line st)
  /\
  (exists r,
      scan_source 5 (str "12.5") = Some r /\
      tokens r = [mkToken (Kind NUMBER) (str "12.5")
                          (NumberValue (Decimal (25 # 2))) 1;
                  mkToken (Kind EOF) [] EmptyObject 1])
  /\
  (exists r,
      scan_source 4 (str "12.") = Some r /\
      tokens r = [mkToken (Kind NUMBER) (str "12")
                          (NumberValue (Decimal (12 # 1))) 1;
                  mkToken (Kind DOT) (str ".") EmptyObject 1;
                  mkToken (Kind EOF) [] EmptyObject 1]).
Proof.
  split; [|split; eexists; (split; [vm_compute; reflexivity|reflexivity])].
  intros fuel src st a Hf Hh Ha Hd.
  destruct (loop_head_wf _ _ _ Hh) as [Hwf Hsrc]. subst src.
  pose proof (charAt_Some_not_end _ _ Ha) as He.
  pose proof (entered_wf _ Hwf He) as Hw1.
  rewrite (scanToken_digit _ _ _ Ha Hd).
  destruct (number_total fuel (entered st) Hw1) as (r & Hr); [simpl; lia|].
  cbv zeta. exists r. split; [exact Hr|].
  destruct (number_spec _ _ _ Hw1 Hr) as (Hw & Hl & Hln & Hc & [_ _ Ht Hds _]).
  change (current (entered st)) with (current st + 1) in *.
  change (source (entered st)) with (source st) in *.
  change (start (entered st)) with (current st) in *.
  change (line (entered st)) with (line st) in *.
  change (tokens (entered st)) with (tokens st) in *.
  change (console_error (entered st)) with (console_error st) in *.
  apply isAtEnd_false in He.
  destruct (skipn_charAt _ _ He) as (a' & Ha' & Hsk).
  rewrite Ha in Ha'. injection Ha' as <-.
  rewrite Hsk, (number_length_cons _ _ Hd).
  replace (current st + 1) with (S (current st)) in * by lia.
  replace (current st + S (number_length (skipn (S (current st)) (source st))))
    with (S (current st) + number_length (skipn (S (current st)) (source st)))
    by lia.
  split; [exact Ht|]. split; [rewrite Hds; apply app_nil_r|].
  split; [exact Hc|exact Hln].
Qed.

Lemma number_lexing_witness :
  exists r,
    scanToken 5 (set_start 0
                   (mkState (str "12.5") [] 0 0 1 false [] [mkCursor 0 0 1]))
    = Some r /\
    tokens r = [mkToken (Kind NUMBER) (str "12.5")
                        (NumberValue (Decimal (25 # 2))) 1] /\
    console_error r = [] /\
    current r = 4 /\
    line r = 1.
Proof.
  apply (proj1 number_lexing 5 (str "12.5")
               (mkState (str "12.5") [] 0 0 1 false [] [mkCursor 0 0 1])
               "1"%char).
  - simpl. lia.
  - apply loop_head_first.
  - reflexivity.
  - reflexivity.
Defined.

Lemma own_property_In : forall table key t,
    own_property table key = Some t -> In (key, t) table.
Proof.
  induction table as [|[k v] table IH]; intros key t H; simpl in H;
    [discriminate|].
  destruct (String.eqb k key) eqn:E.
  - apply String.eqb_eq in E. injection H as ->. subst k. left. reflexivity.
  - right. apply IH. exact H.
Qed.

Lemma isAlpha_isAlphaNumeric : forall c,
    isAlpha c = true -> isAlphaNumeric c = true.
Proof. intros c H. unfold isAlphaNumeric. now rewrite H. Qed.

(** C9. A letter or an underscore opens an identifier: the lexeme is the
    longest run of letters, digits and underscores, and one token is pushed
    whose type is what the lookup of the whole lexeme in [keywords] gives.
    That is a reserved word exactly when the lexeme is a key of the table,
    so [or] gives OR and [orchid] gives IDENTIFIER.  A lexeme that names a
    member of [Object.prototype], such as [toString], is given neither a
    reserved word nor IDENTIFIER: its type is the inherited member. *)
Theorem identifier_lexing :
  (forall fuel src st a,
      length src < fuel ->
      loop_head fuel src st ->
      charAt src (current st) = Some a ->
      isAlpha (Some a) = true ->
      let n := run_length isAlphaNumeric (skipn (current st) src) in
      let text := substring src (current st) (current st + n) in
      exists r,
        scanToken fuel (set_start (current st) st) = Some r /\
        tokens r
        = tokens st
          ++ [mkToken (identifier_type text) text EmptyObject (line st)] /\
        console_error r = console_error st /\
        current r = current st + n /\
        line r = line st)
  /\
  (forall text t,
      identifier_type text = Kind t ->
      t = IDENTIFIER \/ In (string_of_list_ascii text, t) keywords)
  /\
  (exists r,
      scan_source 10 (str "or orchid") = Some r /\
      tokens r = [mkToken (Kind OR) (str "or") EmptyObject 1;
                  mkToken (Kind IDENTIFIER) (str "orchid") EmptyObject 1;
                  mkToken (Kind EOF) [] EmptyObject 1])
  /\
  (exists r,
      scan_source 9 (str "toString") = Some r /\
      tokens r = [mkToken (Inherited "toString") (str "toString")
                          EmptyObject 1;
                  mkToken (Kind EOF) [] EmptyObject 1]).
Proof.
  split; [|split; [|split; eexists;
                     (split; [vm_compute; reflexivity|reflexivity])]].
  - intros fuel src st a Hf Hh Ha Hd.
    destruct (loop_head_wf _ _ _ Hh) as [Hwf Hsrc]. subst src.
    pose proof (charAt_Some_not_end _ _ Ha) as He.
    pose proof (entered_wf _ Hwf He) as Hw1.
    rewrite (scanToken_alpha _ _ _ Ha Hd).
    destruct (identifier_total fuel (entered st) Hw1) as (r & Hr);
      [simpl; lia|].
    cbv zeta. exists r. split; [exact Hr|].
    destruct (identifier_spec _ _ _ Hw1 Hr)
      as (Hw & Hl & Hln & Hc & [_ _ Ht Hds _]).
    change (current (entered st)) with (current st + 1) in *.
    change (source (entered st)) with (source st) in *.
    change (start (entered st)) with (current st) in *.
    change (line (entered st)) with (line st) in *.
    change (tokens (entered st)) with (tokens st) in *.
    change (console_error (entered st)) with (console_error st) in *.
    apply isAtEnd_false in He.
    destruct (skipn_charAt _ _ He) as (a' & Ha' & Hsk).
    rewrite Ha in Ha'. injection Ha' as <-.
    rewrite Hsk, (run_length_cons _ _ _ (isAlpha_isAlphaNumeric _ Hd)).
    replace (current st + 1) with (S (current st)) in * by lia.
    replace (current st
             + S (run_length isAlphaNumeric
                    (skipn (S (current st)) (source st))))
      with (S (current st)
            + run_length isAlphaNumeric (skipn (S (current st)) (source st)))
      by lia.
    split; [exact Ht|]. split; [rewrite Hds; apply app_nil_r|].
    split; [exact Hc|exact Hln].
  - intros text t H. unfold identifier_type, keywords_get in H.
    destruct (own_property keywords _) as [k|] eqn:E.
    + injection H as <-. right. apply own_property_In. exact E.
    + destruct (existsb _ _); [discriminate|]. injection H as <-.
      left. reflexivity.
Qed.

Lemma identifier_lexing_witness :
  exists r,
    scanToken 9 (set_start 0
                   (mkState (str "toString") [] 0 0 1 false []
                            [mkCursor 0 0 1]))
    = Some r /\
    tokens r = [mkToken (Inherited "toString") (str "toString")
                        EmptyObject 1] /\
    console_error r = [] /\
    current r = 8 /\
    line r = 1.
Proof.
  apply (proj1 identifier_lexing 9 (str "toString")
               (mkState (str "toString") [] 0 0 1 false [] [mkCursor 0 0 1])
               "t"%char).
  - simpl. lia.
  - apply loop_head_first.
  - reflexivity.
  - reflexivity.
Defined.

(** ** The driver *)

Lemma run_process_total : forall src p,
    exists st,
      run (S (length src)) src (p_had_error p) (p_console_error p) = Some st
      /\ run_process src p
         = Some (mkProcess (stdout p) (had_error st) (console_error st)
                           (scanned p ++ [src])).
Proof.
  intros src p. unfold run_process, run, scanTokens.
  destruct (scan_total (S (length src))
              (mkState src [] 0 0 1 (p_had_error p) (p_console_error p)
                       [mkCursor 0 0 1])) as (st & Hst).
  - apply initial_wf.
  - simpl. lia.
  - exists st. rewrite Hst. split; reflexivity.
Qed.

(** [run_file] on its own does what batch mode is meant to do: it scans the
    text of the file once and exits with status 65 when an error was
    reported. *)
Lemma run_file_exit_status : forall fs path text p,
    fs path = Some text ->
    exists p',
      run_process text p = Some p' /\
      scanned p' = scanned p ++ [text] /\
      run_file fs (Some path) p
      = (if p_had_error p' then Exits 65 else Returns, p').
Proof.
  intros fs path text p Hfs.
  destruct (run_process_total text p) as (st & _ & Hp).
  eexists. split; [exact Hp|]. split; [reflexivity|].
  unfold run_file. rewrite Hfs, Hp. cbn [p_had_error].
  destruct (had_error st); reflexivity.
Qed.

(** C10. [process.argv] starts with the paths of the executable and of the
    script, so one path on the command line gives three entries: [main]
    takes its first branch, writes the usage message and exits with status
    64 without reading or scanning anything, as it does for more than one
    path.  The branch that calls [run_file] is taken only when [argv] has
    one entry, and then [argv[1]] is undefined. *)
Theorem main_batch_mode :
  (forall exe script path fs lines p,
      main (process_argv exe script [path]) fs lines p
      = (Exits 64, stdout_write usage p)
      /\ exit_status (fst (main (process_argv exe script [path]) fs lines p))
         = Some 64
      /\ scanned (snd (main (process_argv exe script [path]) fs lines p))
         = scanned p)
  /\
  (forall exe script path path' rest fs lines p,
      main (process_argv exe script (path :: path' :: rest)) fs lines p
      = (Exits 64, stdout_write usage p))
  /\
  (forall exe fs lines p,
      main [exe] fs lines p = run_file fs None p /\
      run_file fs None p = (Throws, p)).
Proof.
  split; [|split].
  - intros. repeat split.
  - intros. reflexivity.
  - intros. split; reflexivity.
Qed.

(** ** The line counter and the line of the cursor *)

Lemma firstn_succ_charAt : forall (s : jsstring) i a,
    charAt s i = Some a -> firstn (i + 1) s = firstn i s ++ [a].
Proof.
  induction s as [|x s IH]; intros i a H.
  - destruct i; discriminate.
  - destruct i as [|i]; simpl in *.
    + injection H as ->. reflexivity.
    + f_equal. apply IH. exact H.
Qed.

Lemma line_at_succ : forall src i a,
    charAt src i = Some a ->
    line_at src (i + 1)
    = line_at src i + (if char_is (Some a) LF then 1 else 0).
Proof.
  intros src i a H. unfold line_at.
  rewrite (firstn_succ_charAt _ _ _ H), count_occ_app. simpl.
  destruct (ascii_dec a LF) as [->|Hne].
  - simpl. lia.
  - destruct (Ascii.eqb a LF) eqn:E; [|lia].
    apply Ascii.eqb_eq in E. contradiction.
Qed.

Lemma advance_tracks : forall st,
    line_tracks st ->
    isAtEnd st = false ->
    char_is (peek st) LF = false ->
    line_tracks (snd (advance st)).
Proof.
  intros st HJ He Hc. unfold line_tracks in *. simpl.
  rewrite (peek_inside _ He) in Hc. apply isAtEnd_false in He.
  destruct (skipn_charAt _ _ He) as (a & Ha & _).
  rewrite (line_at_succ _ _ _ Ha). rewrite Ha in Hc. rewrite Hc. lia.
Qed.

Lemma match_tracks : forall k st,
    k <> LF -> line_tracks st -> line_tracks (snd (match_ k st)).
Proof.
  intros k st Hk HJ. unfold match_.
  destruct (isAtEnd st) eqn:He; [exact HJ|].
  destruct (char_is (charAt (source st) (current st)) k) eqn:E;
    [|exact HJ].
  cbn [negb snd]. unfold line_tracks in *. simpl.
  destruct (charAt (source st) (current st)) as [a|] eqn:Ha; [|discriminate].
  rewrite (line_at_succ _ _ _ Ha).
  simpl in E. apply Ascii.eqb_eq in E. subst a.
  destruct (char_is (Some k) LF) eqn:E'; [|lia].
  apply char_is_LF in E'. contradiction.
Qed.

Lemma advance_loop_tracks : forall cond,
    (forall s, cond s = true ->
               isAtEnd s = false /\ char_is (peek s) LF = false) ->
    forall fuel st r,
      line_tracks st ->
      while fuel cond advance_ st = Some r ->
      line_tracks r.
Proof.
  intros cond Hcond fuel st r HJ H.
  apply (while_rule cond advance_ line_tracks) with (fuel := fuel) (st := st);
    try assumption.
  intros s s' Hs Hc Hb. unfold advance_ in Hb. injection Hb as <-.
  destruct (Hcond _ Hc). apply advance_tracks; assumption.
Qed.

Lemma isDigit_not_LF : forall c, isDigit c = true -> char_is c LF = false.
Proof.
  intros [a|] H; [|reflexivity].
  destruct (char_is (Some a) LF) eqn:E; [|reflexivity].
  apply char_is_LF in E. subst a. discriminate.
Qed.

Lemma isAlphaNumeric_not_LF : forall c,
    isAlphaNumeric c = true -> char_is c LF = false.
Proof.
  intros [a|] H; [|reflexivity].
  destruct (char_is (Some a) LF) eqn:E; [|reflexivity].
  apply char_is_LF in E. subst a. discriminate.
Qed.

Lemma digit_loop_tracks : forall fuel st r,
    line_tracks st ->
    while fuel (fun s => isDigit (peek s)) advance_ st = Some r ->
    line_tracks r.
Proof.
  apply advance_loop_tracks. intros s H.
  split; [apply isDigit_not_end|apply isDigit_not_LF]; exact H.
Qed.

Lemma string_loop_tracks : forall fuel st r,
    line_tracks st ->
    while fuel string_cond string_body st = Some r ->
    line_tracks r.
Proof.
  intros fuel st r HJ H.
  apply (while_rule string_cond string_body line_tracks)
    with (fuel := fuel) (st := st); try assumption.
  intros s s' Hs Hc Hb. unfold string_cond in Hc.
  apply andb_prop in Hc. destruct Hc as [_ He]. apply negb_true_iff in He.
  unfold string_body, advance_ in Hb. injection Hb as <-.
  unfold line_tracks in *.
  pose proof He as Hlt. apply isAtEnd_false in Hlt.
  destruct (skipn_charAt _ _ Hlt) as (a & Ha & _).
  rewrite (peek_inside _ He), Ha.
  destruct (char_is (Some a) LF) eqn:E; simpl;
    rewrite (line_at_succ _ _ _ Ha), E; lia.
Qed.

Lemma string_tracks : forall fuel st r,
    line_tracks st -> string_ fuel st = Some r -> line_tracks r.
Proof.
  intros fuel st r HJ H. unfold string_ in H.
  destruct (while fuel _ _ st) as [st1|] eqn:E; [|discriminate].
  pose proof (string_loop_tracks _ _ _ HJ E) as H1.
  destruct (isAtEnd st1) eqn:He.
  - injection H as <-. exact H1.
  - injection H as <-.
    assert (Hq : char_is (peek st1) LF = false).
    { destruct (while_rule _ _ (fun _ => True) (fun _ _ _ _ _ => I)
                           _ _ _ I E) as [_ Hc].
      cbv beta in Hc. rewrite He, andb_true_r in Hc.
      apply negb_false_iff in Hc.
      destruct (peek st1) as [a|]; [|reflexivity].
      simpl in Hc. apply Ascii.eqb_eq in Hc. subst a. reflexivity. }
    exact (advance_tracks _ H1 He Hq).
Qed.

Lemma number_tracks : forall fuel st r,
    line_tracks st -> number fuel st = Some r -> line_tracks r.
Proof.
  intros fuel st r HJ H. unfold number in H.
  destruct (while fuel _ _ st) as [st1|] eqn:E; [|discriminate].
  pose proof (digit_loop_tracks _ _ _ HJ E) as H1.
  destruct (char_is (peek st1) "." && isDigit (peekNext st1)) eqn:Ef.
  - destruct (while fuel _ _ (snd (advance st1))) as [st2|] eqn:E2;
      [|discriminate].
    injection H as <-.
    apply andb_prop in Ef. destruct Ef as [Ef _].
    assert (He : isAtEnd st1 = false).
    { destruct (isAtEnd st1) eqn:He; [|reflexivity].
      rewrite (peek_at_end _ He) in Ef. discriminate. }
    assert (Hq : char_is (peek st1) LF = false).
    { destruct (peek st1) as [a|]; [|reflexivity].
      simpl in Ef. apply Ascii.eqb_eq in Ef. subst a. reflexivity. }
    apply (digit_loop_tracks _ _ _ (advance_tracks _ H1 He Hq) E2).
  - injection H as <-. exact H1.
Qed.

Lemma identifier_tracks : forall fuel st r,
    line_tracks st -> identifier fuel st = Some r -> line_tracks r.
Proof.
  intros fuel st r HJ H. unfold identifier in H.
  destruct (while fuel _ _ st) as [st1|] eqn:E; [|discriminate].
  injection H as <-.
  refine (advance_loop_tracks _ _ _ _ _ HJ E).
  intros s Hs.
  split; [apply isAlphaNumeric_not_end|apply isAlphaNumeric_not_LF]; exact Hs.
Qed.

(** What the dispatch knows of a newline. *)
Lemma newline_tests : forall c,
    char_is c LF = true ->
    single_kind c = None /\ double_kind c = None /\
    char_is c "/" = false /\ is_blank c = false /\
    char_is c DQUOTE = false /\ isDigit c = false /\ isAlpha c = false /\
    no_rule c = false.
Proof.
  intros [a|] H; [|discriminate].
  apply char_is_LF in H. subst a. repeat split.
Qed.

Lemma dispatch_tracks : forall fuel c st r,
    line st + (if char_is c LF then 1 else 0)
    = line_at (source st) (current st) ->
    dispatch fuel c st (Some r) ->
    line_tracks r.
Proof.
  intros fuel c st r HJ H.
  remember (Some r) as res eqn:Hres.
  destruct (char_is c LF) eqn:El.
  - destruct (newline_tests _ El)
      as (Hs & Hd & Hsl & Hb & Hq & Hdg & Ha & Hn).
    destruct H; try congruence.
    assert (Hr : r = set_line (line st + 1) st) by congruence.
    subst r. unfold line_tracks. simpl. lia.
  - assert (HJ' : line_tracks st) by (unfold line_tracks; lia).
    destruct H; try congruence.
    + injection Hres as <-. exact HJ'.
    + injection Hres as <-.
      apply (match_tracks "="%char st); [discriminate|exact HJ'].
    + refine (advance_loop_tracks _ _ _ _ _
                (match_tracks "/"%char st _ HJ') Hres); [|discriminate].
      intros s Hs. unfold comment_cond in Hs.
      apply andb_prop in Hs. destruct Hs as [Hs1 Hs2].
      split; [now apply negb_true_iff in Hs2|now apply negb_true_iff in Hs1].
    + injection Hres as <-.
      apply (match_tracks "/"%char st); [discriminate|exact HJ'].
    + eapply string_tracks; eassumption.
    + eapply number_tracks; eassumption.
    + eapply identifier_tracks; eassumption.
    + injection Hres as <-. exact HJ'.
Qed.

Lemma scanToken_tracks : forall fuel st r,
    line_tracks st ->
    isAtEnd st = false ->
    scanToken fuel (set_start (current st) st) = Some r ->
    line_tracks r.
Proof.
  intros fuel st r HJ He H.
  pose proof (scanToken_dispatch fuel (set_start (current st) st)) as Hd.
  rewrite H in Hd. refine (dispatch_tracks _ _ _ _ _ Hd).
  cbn [fst snd advance source current line set_current set_start assign].
  apply isAtEnd_false in He.
  destruct (skipn_charAt _ _ He) as (a & Ha & _).
  rewrite (line_at_succ _ _ _ Ha), Ha. unfold line_tracks in HJ. lia.
Qed.

Lemma loop_head_tracks : forall fuel src st,
    loop_head fuel src st -> line_tracks st.
Proof.
  induction 1 as [|st st' Hh IH He Hs].
  - reflexivity.
  - eapply scanToken_tracks; eassumption.
Qed.

(** ** The tokens that one turn of the main loop pushes *)

Lemma pushed_outcome : forall st r ts ds,
    outcome st r ts ds -> pushed st r = ts.
Proof.
  intros st r ts ds [_ _ Ht _ _]. unfold pushed. rewrite Ht.
  rewrite skipn_app, Nat.sub_diag, skipn_all. reflexivity.
Qed.

Lemma moved_outcome : forall st r, moved st r -> outcome st r [] [].
Proof. intros st r H. apply swept_outcome, moved_swept, H. Qed.

Lemma dispatch_pushed : forall fuel c st r,
    wf st ->
    dispatch fuel c st (Some r) ->
    Forall (stamped st r) (pushed st r).
Proof.
  intros fuel c st r Hwf H.
  remember (Some r) as res eqn:Hres.
  destruct H.
  - injection Hres as <-.
    rewrite (pushed_outcome _ _ _ _ (outcome_addToken st (Kind t) None)).
    constructor; [split; reflexivity|constructor].
  - injection Hres as <-.
    pose proof (match_moved "="%char st) as Hm.
    rewrite (pushed_outcome _ _ _ _
               (outcome_swept_l _ _ _ _ _ (moved_swept _ _ Hm)
                  (outcome_addToken _ _ None))).
    destruct Hm as [Hs _ Hst _ _ _ _ _].
    constructor; [split; simpl; congruence|constructor].
  - destruct (advance_loop_spec _ _ comment_cond_peek _ _ _
                (match_wf _ _ Hwf) Hres) as (_ & Hm & _).
    rewrite (pushed_outcome _ _ _ _
               (moved_outcome _ _ (moved_trans _ _ _ (match_moved _ _) Hm))).
    constructor.
  - injection Hres as <-.
    pose proof (match_moved "/"%char st) as Hm.
    rewrite (pushed_outcome _ _ _ _
               (outcome_swept_l _ _ _ _ _ (moved_swept _ _ Hm)
                  (outcome_addToken _ _ None))).
    destruct Hm as [Hs _ Hst _ _ _ _ _].
    constructor; [split; simpl; congruence|constructor].
  - injection Hres as <-.
    rewrite (pushed_outcome _ _ _ _ (moved_outcome _ _ (moved_refl st))).
    constructor.
  - injection Hres as <-.
    rewrite (pushed_outcome _ _ _ _
               (swept_outcome _ _ (set_line_swept st))).
    constructor.
  - destruct (string_spec _ _ _ Hwf Hres) as (_ & _ & Hln & Hif).
    destruct (_ <? _); destruct Hif as [Hc Ho];
      rewrite (pushed_outcome _ _ _ _ Ho); [|constructor].
    constructor; [|constructor]. split; simpl; congruence.
  - destruct (number_spec _ _ _ Hwf Hres) as (_ & _ & Hln & Hc & Ho).
    rewrite (pushed_outcome _ _ _ _ Ho).
    constructor; [|constructor]. split; simpl; congruence.
  - destruct (identifier_spec _ _ _ Hwf Hres) as (_ & _ & Hln & Hc & Ho).
    rewrite (pushed_outcome _ _ _ _ Ho).
    constructor; [|constructor]. split; simpl; congruence.
  - injection Hres as <-.
    rewrite (pushed_outcome _ _ _ _ (outcome_error _ _ _)).
    constructor.
Qed.

Lemma firstn_split : forall (l : jsstring) s e,
    s <= e -> firstn e l = firstn s l ++ firstn (e - s) (skipn s l).
Proof.
  induction l as [|x l IH]; intros s e Hle.
  - rewrite skipn_nil, !firstn_nil. reflexivity.
  - destruct s as [|s].
    + rewrite Nat.sub_0_r. reflexivity.
    + destruct e as [|e]; [lia|]. simpl. f_equal. apply IH. lia.
Qed.

Lemma substring_inside : forall (src : jsstring) s e,
    s <= e -> e <= length src ->
    substring src s e = firstn (e - s) (skipn s src).
Proof.
  intros src s e Hse He. unfold substring.
  rewrite (Nat.min_l s) by lia. rewrite (Nat.min_l e) by lia.
  rewrite Nat.min_l, Nat.max_r by lia. reflexivity.
Qed.

Lemma line_at_substring : forall src s e,
    s <= e -> e <= length src ->
    ~ In LF (substring src s e) ->
    line_at src e = line_at src s.
Proof.
  intros src s e Hse He Hno. unfold line_at.
  rewrite (firstn_split src s e Hse), count_occ_app.
  rewrite <- (substring_inside src s e Hse He).
  rewrite (proj1 (count_occ_not_In ascii_dec _ _) Hno). lia.
Qed.

(** C2, as worded, fails: the STRING token of a literal that starts on
    line 1 and ends on line 2 carries line 2. *)
Lemma multi_line_string_line :
  ~ lines_at_lexeme_start 6 two_line_string.
Proof.
  intros H.
  specialize (H (mkState two_line_string [] 0 0 1 false [] [mkCursor 0 0 1])).
  destruct (scanToken 6 _) as [r|] eqn:E in H; [|discriminate E].
  specialize (H r (loop_head_first _ _) eq_refl eq_refl).
  vm_compute in E. injection E as <-.
  vm_compute in H. inversion H as [|t ts Ht _]. discriminate Ht.
Qed.

(** C2, amended.  A token carries the value that [line] has when it is
    pushed, which is the number of the line on which its lexeme ends.  That
    is the line on which the lexeme starts whenever the lexeme holds no
    newline; a string literal with embedded newlines carries the line of its
    closing quote.  The EOF token carries the number of the last line. *)
Theorem token_lines :
  (forall fuel src st r,
      loop_head fuel src st ->
      isAtEnd st = false ->
      scanToken fuel (set_start (current st) st) = Some r ->
      Forall (fun t =>
                tk_lexeme t = substring src (current st) (current r) /\
                tk_line t = line_at src (current r) /\
                (~ In LF (tk_lexeme t) ->
                 tk_line t = line_at src (current st)))
             (pushed st r))
  /\
  (forall fuel src r,
      scan_source fuel src = Some r ->
      exists ts,
        tokens r
        = ts ++ [mkToken (Kind EOF) [] EmptyObject (line_count src)])
  /\
  (exists r,
      scan_source 6 two_line_string = Some r /\
      tokens r = [mkToken (Kind STRING) two_line_string
                          (StringValue ["a"%char; LF; "b"%char]) 2;
                  mkToken (Kind EOF) [] EmptyObject 2]).
Proof.
  split; [|split].
  - intros fuel src st r Hh He Hs.
    destruct (loop_head_wf _ _ _ Hh) as [Hwf Hsrc].
    pose proof (loop_head_next _ _ _ _ Hh He Hs) as Hh'.
    pose proof (loop_head_tracks _ _ _ Hh') as HJ.
    destruct (loop_head_wf _ _ _ Hh') as [Hwf' Hsrc'].
    destruct (scanToken_step _ _ _ (set_start_wf _ Hwf) He Hs)
      as (_ & Hl & Hlt & _).
    pose proof (scanToken_dispatch fuel (set_start (current st) st)) as Hd.
    rewrite Hs in Hd.
    pose proof (dispatch_pushed _ _ _ _ (entered_wf _ Hwf He) Hd) as Hp.
    change (pushed (entered st) r) with (pushed st r) in Hp.
    eapply Forall_impl; [|exact Hp].
    intros t [Hlex Hline].
    change (source (entered st)) with (source st) in Hlex.
    change (start (entered st)) with (current st) in Hlex.
    rewrite Hsrc in Hlex. unfold line_tracks in HJ. rewrite Hsrc' in HJ.
    split; [exact Hlex|]. split; [congruence|].
    intros Hno. rewrite Hline, HJ.
    apply line_at_substring.
    + simpl in Hlt. lia.
    + destruct (wf_bounds _ Hwf') as [_ Hb]. rewrite Hsrc' in Hb. exact Hb.
    + rewrite <- Hlex. exact Hno.
  - intros fuel src r H. unfold scan_source, run, scanTokens in H.
    unfold scan in H.
    destruct (while fuel _ _ _) as [st1|] eqn:E; [|discriminate].
    injection H as <-.
    assert (Hh : loop_head fuel src st1).
    { refine (proj1 (while_rule scan_cond (scan_body fuel)
                       (loop_head fuel src) _ _ _ _ _ E)).
      - intros s s' Hs Hc Hb. unfold scan_cond in Hc.
        apply negb_true_iff in Hc.
        eapply loop_head_next; eassumption.
      - apply loop_head_first. }
    pose proof (loop_head_tracks _ _ _ Hh) as HJ.
    destruct (loop_head_wf _ _ _ Hh) as [Hwf Hsrc].
    destruct (while_rule _ _ (fun _ => True) (fun _ _ _ _ _ => I)
                         _ _ _ I E) as [_ Hc].
    cbv beta in Hc. apply negb_false_iff in Hc. apply isAtEnd_true in Hc.
    destruct (wf_bounds _ Hwf) as [_ Hb].
    exists (tokens st1). simpl. unfold EOF_token. do 3 f_equal.
    unfold line_tracks in HJ. rewrite HJ. unfold line_at, line_count.
    rewrite Hsrc in *. rewrite firstn_all2 by lia. reflexivity.
  - eexists. split; [vm_compute; reflexivity|reflexivity].
Qed.

Lemma token_lines_witness :
  exists r,
    scanToken 6 (set_start 0
                   (mkState two_line_string [] 0 0 1 false []
                            [mkCursor 0 0 1])) = Some r /\
    Forall (fun t =>
              tk_lexeme t = substring two_line_string 0 (current r) /\
              tk_line t = line_at two_line_string (current r) /\
              (~ In LF (tk_lexeme t) ->
               tk_line t = line_at two_line_string 0))
           (pushed (mkState two_line_string [] 0 0 1 false []
                            [mkCursor 0 0 1]) r).
Proof.
  eexists. split; [vm_compute; reflexivity|].
  apply (proj1 token_lines 6 two_line_string
               (mkState two_line_string [] 0 0 1 false [] [mkCursor 0 0 1])).
  - apply loop_head_first.
  - reflexivity.
  - vm_compute. reflexivity.
Defined.

(** ** Scanning a text inside a larger one *)

Lemma isAtEnd_skipn : forall st,
    isAtEnd st = match skipn (current st) (source st) with
                 | [] => true
                 | _ :: _ => false
                 end.
Proof.
  intros st. destruct (isAtEnd st) eqn:He.
  - apply isAtEnd_true in He. now rewrite skipn_all2.
  - apply isAtEnd_false in He.
    destruct (skipn_charAt _ _ He) as (a & _ & ->). reflexivity.
Qed.

Lemma charAt_skipn : forall (s : jsstring) i,
    charAt s i = hd_error (skipn i s).
Proof.
  intros s i. unfold charAt.
  destruct (Nat.lt_ge_cases i (length s)) as [Hlt|Hge].
  - destruct (skipn_charAt _ _ Hlt) as (a & Ha & ->). exact Ha.
  - rewrite skipn_all2 by assumption. apply nth_error_None. assumption.
Qed.

Lemma substring_splice : forall (P M S : jsstring) a b,
    a <= length M -> b <= length M ->
    substring (P ++ M ++ S) (length P + a) (length P + b) = substring M a b.
Proof.
  intros P M S a b Ha Hb. unfold substring.
  rewrite !length_app.
  rewrite (Nat.min_l (length P + a)) by lia.
  rewrite (Nat.min_l (length P + b)) by lia.
  rewrite (Nat.min_l a) by lia. rewrite (Nat.min_l b) by lia.
  replace (Nat.max (length P + a) (length P + b)
           - Nat.min (length P + a) (length P + b))
    with (Nat.max a b - Nat.min a b) by lia.
  replace (Nat.min (length P + a) (length P + b))
    with (length P + Nat.min a b) by lia.
  rewrite skipn_app.
  rewrite skipn_all2 by lia.
  replace (length P + Nat.min a b - length P) with (Nat.min a b) by lia.
  simpl. rewrite skipn_app, firstn_app.
  rewrite length_skipn.
  replace (Nat.max a b - Nat.min a b - (length M - Nat.min a b)) with 0
    by lia.
  rewrite firstn_0, app_nil_r. reflexivity.
Qed.

Section Splice.

(** The text [M] is scanned on its own by the first state and, inside
    [P ++ M ++ S], by the second one.  What follows [M] is nothing or starts
    with a newline.  The second scan has already pushed [T0] and reported
    [E0], and its lines are [L] ahead. *)
Variables (P M S : jsstring) (L : nat).
Variables (T0 : list Token) (E0 : list Diagnostic).
Hypothesis after_M : S = [] \/ exists S', S = LF :: S'.

Local Abbreviation related := (spliced P M S L T0 E0).

Lemma spliced_rest : forall s1 s2,
    related s1 s2 ->
    skipn (current s2) (source s2)
    = skipn (current s1) (source s1) ++ S.
Proof.
  intros s1 s2 [Hwf H1 H2 _ _ _ Hc _].
  destruct (wf_bounds _ Hwf) as [_ Hb].
  rewrite H1, H2, Hc in *.
  rewrite skipn_app, skipn_all2 by lia.
  replace (length P + current s1 - length P) with (current s1) by lia.
  simpl. rewrite skipn_app.
  replace (current s1 - length M) with 0 by lia. reflexivity.
Qed.

Lemma spliced_inside : forall s1 s2,
    related s1 s2 ->
    isAtEnd s1 = false ->
    isAtEnd s2 = false /\
    charAt (source s2) (current s2) = charAt (source s1) (current s1) /\
    peek s2 = peek s1.
Proof.
  intros s1 s2 H He.
  pose proof (spliced_rest _ _ H) as Hr.
  rewrite !peek_skipn, !charAt_skipn, (isAtEnd_skipn s2), Hr.
  rewrite isAtEnd_skipn in He.
  destruct (skipn (current s1) (source s1)); [discriminate|].
  repeat split.
Qed.

(** At the end of [M] the larger text shows nothing or a newline. *)
Lemma spliced_edge : forall s1 s2,
    related s1 s2 ->
    isAtEnd s1 = true ->
    peek s1 = Some NUL /\
    (S = [] /\ isAtEnd s2 = true /\ peek s2 = Some NUL
     \/ (exists S', S = LF :: S') /\ isAtEnd s2 = false
        /\ peek s2 = Some LF).
Proof.
  intros s1 s2 H He.
  pose proof (spliced_rest _ _ H) as Hr.
  rewrite !peek_skipn, (isAtEnd_skipn s2), Hr.
  rewrite isAtEnd_skipn in He.
  destruct (skipn (current s1) (source s1)); [|discriminate].
  split; [reflexivity|].
  destruct after_M as [->|(S' & ->)]; [left|right]; repeat split.
  exists S'. reflexivity.
Qed.

(** A test of the next character gives the same answer in both scans when
    it rejects the end of the input and the newline alike. *)
Lemma spliced_peek_test : forall (p : option ascii -> bool) s1 s2,
    p (Some NUL) = p (Some LF) ->
    related s1 s2 ->
    p (peek s2) = p (peek s1).
Proof.
  intros p s1 s2 Hp H. destruct (isAtEnd s1) eqn:He.
  - destruct (spliced_edge _ _ H He) as (-> & [(_ & _ & ->)|(_ & _ & ->)]);
      congruence.
  - destruct (spliced_inside _ _ H He) as (_ & _ & ->). reflexivity.
Qed.

Lemma spliced_advance : forall s1 s2,
    related s1 s2 ->
    isAtEnd s1 = false ->
    fst (advance s2) = fst (advance s1) /\
    related (snd (advance s1)) (snd (advance s2)).
Proof.
  intros s1 s2 H He.
  destruct (spliced_inside _ _ H He) as (_ & Hc & _).
  split; [exact Hc|].
  destruct H as [Hwf H1 H2 Ht Hd Hs Hcur Hl].
  split; simpl; try assumption; try lia.
  apply (advance_wf _ Hwf He).
Qed.

Lemma spliced_addToken : forall s1 s2 t l,
    related s1 s2 ->
    related (addToken t l s1) (addToken t l s2).
Proof.
  intros s1 s2 t l [Hwf H1 H2 Ht Hd Hs Hcur Hl].
  destruct (wf_bounds _ Hwf) as [Hb1 Hb2]. rewrite H1 in Hb2.
  split; simpl; try assumption.
  - apply addToken_wf. assumption.
  - rewrite Ht, map_app, app_assoc. simpl. unfold shift_token at 2. simpl.
    rewrite H1, H2, Hs, Hcur, Hl.
    rewrite substring_splice by lia. reflexivity.
Qed.

Lemma spliced_error : forall s1 s2 m,
    related s1 s2 ->
    related (error (line s1) m s1) (error (line s2) m s2).
Proof.
  intros s1 s2 m [Hwf H1 H2 Ht Hd Hs Hcur Hl].
  split; simpl; try assumption.
  - apply report_wf. assumption.
  - rewrite Hd, map_app, app_assoc. simpl. unfold shift_diagnostic at 2.
    simpl. rewrite Hl. reflexivity.
Qed.

Lemma spliced_set_line : forall s1 s2,
    related s1 s2 ->
    related (set_line (line s1 + 1) s1) (set_line (line s2 + 1) s2).
Proof.
  intros s1 s2 [Hwf H1 H2 Ht Hd Hs Hcur Hl].
  split; simpl; try assumption; try lia.
  apply set_line_wf. assumption.
Qed.

Lemma spliced_match : forall k s1 s2,
    k <> LF ->
    related s1 s2 ->
    fst (match_ k s2) = fst (match_ k s1) /\
    related (snd (match_ k s1)) (snd (match_ k s2)).
Proof.
  intros k s1 s2 Hk H. unfold match_.
  destruct (isAtEnd s1) eqn:He.
  - destruct (spliced_edge _ _ H He)
      as (_ & [(_ & -> & _)|(_ & He2 & Hp2)]).
    + split; [reflexivity|exact H].
    + rewrite He2. rewrite <- (peek_inside _ He2), Hp2.
      assert (E : char_is (Some LF) k = false).
      { unfold char_is. apply Ascii.eqb_neq. congruence. }
      rewrite E. split; [reflexivity|exact H].
  - destruct (spliced_inside _ _ H He) as (-> & -> & _).
    destruct (negb _); [split; [reflexivity|exact H]|].
    split; [reflexivity|]. apply spliced_advance; assumption.
Qed.

Lemma spliced_text : forall s1 s2,
    related s1 s2 ->
    substring (source s2) (start s2) (current s2)
    = substring (source s1) (start s1) (current s1).
Proof.
  intros s1 s2 [Hwf H1 H2 _ _ Hs Hc _].
  destruct (wf_bounds _ Hwf) as [Hb1 Hb2].
  rewrite H1, H2, Hs, Hc in *. apply substring_splice; lia.
Qed.

Lemma spliced_while : forall cond,
    (forall s1 s2, related s1 s2 -> cond s1 = cond s2) ->
    (forall s, cond s = true -> isAtEnd s = false) ->
    forall fuel s1 s2 r1,
      related s1 s2 ->
      while fuel cond advance_ s1 = Some r1 ->
      exists r2, while fuel cond advance_ s2 = Some r2 /\ related r1 r2.
Proof.
  intros cond Hagree Hin.
  apply (while_sim related cond cond advance_ advance_ Hagree).
  intros s1 s2 s1' HR Hc Hb. unfold advance_ in *. injection Hb as <-.
  eexists. split; [reflexivity|].
  apply spliced_advance; [exact HR|apply Hin; exact Hc].
Qed.

Lemma spliced_digit_cond : forall s1 s2,
    related s1 s2 -> isDigit (peek s1) = isDigit (peek s2).
Proof.
  intros s1 s2 H. symmetry. apply (spliced_peek_test isDigit); auto.
Qed.

Lemma spliced_alnum_cond : forall s1 s2,
    related s1 s2 -> isAlphaNumeric (peek s1) = isAlphaNumeric (peek s2).
Proof.
  intros s1 s2 H. symmetry. apply (spliced_peek_test isAlphaNumeric); auto.
Qed.

Lemma spliced_comment_cond : forall s1 s2,
    related s1 s2 -> comment_cond s1 = comment_cond s2.
Proof.
  intros s1 s2 H. unfold comment_cond. destruct (isAtEnd s1) eqn:He.
  - destruct (spliced_edge _ _ H He) as (-> & [(_ & -> & ->)|(_ & -> & ->)]);
      reflexivity.
  - destruct (spliced_inside _ _ H He) as (-> & _ & ->). reflexivity.
Qed.

Lemma comment_cond_not_end : forall s,
    comment_cond s = true -> isAtEnd s = false.
Proof.
  intros s H. unfold comment_cond in H. apply andb_prop in H.
  destruct H as [_ H]. now apply negb_true_iff in H.
Qed.

Lemma spliced_string_loop : forall fuel s1 s2 r1,
    related s1 s2 ->
    while fuel string_cond string_body s1 = Some r1 ->
    S = [] \/ isAtEnd r1 = false ->
    exists r2,
      while fuel string_cond string_body s2 = Some r2 /\ related r1 r2.
Proof.
  induction fuel as [|fuel IH]; intros s1 s2 r1 HR H Hend; [discriminate|].
  simpl in *. unfold string_cond at 1 in H. unfold string_cond at 1.
  destruct (isAtEnd s1) eqn:He.
  - rewrite andb_false_r in H. injection H as <-.
    destruct Hend as [HS|Hend]; [|congruence].
    destruct (spliced_edge _ _ HR He)
      as (_ & [(_ & -> & _)|((S' & HS') & _)]); [|congruence].
    rewrite andb_false_r. eauto.
  - destruct (spliced_inside _ _ HR He) as (-> & _ & Hp).
    rewrite Hp. rewrite andb_true_r in *.
    destruct (negb (char_is (peek s1) DQUOTE)); [|injection H as <-; eauto].
    destruct (char_is (peek s1) LF).
    + refine (IH _ _ _ _ H Hend).
      apply (spliced_advance (set_line (line s1 + 1) s1)
                             (set_line (line s2 + 1) s2));
        [apply spliced_set_line; exact HR|exact He].
    + refine (IH _ _ _ _ H Hend).
      apply (spliced_advance s1 s2); assumption.
Qed.
Lemma spliced_string : forall fuel s1 s2 r1,
    related s1 s2 ->
    string_ fuel s1 = Some r1 ->
    S = [] \/ no_unterminated r1 ->
    exists r2, string_ fuel s2 = Some r2 /\ related r1 r2.
Proof.
  intros fuel s1 s2 r1 HR H Hun. unfold string_ in *.
  destruct (while fuel _ _ s1) as [st1|] eqn:E; [|discriminate].
  destruct (isAtEnd st1) eqn:He1.
  - injection H as <-.
    assert (HS : S = []).
    { destruct Hun as [HS|Hun]; [exact HS|exfalso].
      unfold no_unterminated in Hun. simpl in Hun.
      apply Forall_app in Hun. destruct Hun as [_ Hun].
      inversion Hun as [|d ds Hd _]. apply Hd. reflexivity. }
    destruct (spliced_string_loop _ _ _ _ HR E (or_introl HS))
      as (st2 & E2 & HR2).
    unfold string_cond, string_body in E2. rewrite E2.
    destruct (spliced_edge _ _ HR2 He1)
      as (_ & [(_ & -> & _)|((S' & HS') & _)]); [|congruence].
    eexists. split; [reflexivity|]. apply spliced_error. exact HR2.
  - injection H as <-.
    destruct (spliced_string_loop _ _ _ _ HR E (or_intror He1))
      as (st2 & E2 & HR2).
    unfold string_cond, string_body in E2. rewrite E2.
    destruct (spliced_inside _ _ HR2 He1) as (-> & _ & _).
    eexists. split; [reflexivity|].
    destruct (spliced_advance _ _ HR2 He1) as [_ HR3].
    assert (Hv : substring (source (snd (advance st2)))
                           (start (snd (advance st2)) + 1)
                           (current (snd (advance st2)) - 1)
                 = substring (source (snd (advance st1)))
                             (start (snd (advance st1)) + 1)
                             (current (snd (advance st1)) - 1)).
    { destruct HR2 as [Hwf H1 H2 _ _ Hs Hc _].
      destruct (wf_bounds _ Hwf) as [Hb1 Hb2].
      apply isAtEnd_false in He1.
      cbn [source start current snd advance set_current assign].
      rewrite H1, H2, Hs, Hc in *.
      replace (length P + start st1 + 1) with (length P + (start st1 + 1))
        by lia.
      replace (length P + current st1 + 1 - 1)
        with (length P + (current st1 + 1 - 1)) by lia.
      apply substring_splice; lia. }
    rewrite Hv. apply spliced_addToken. exact HR3.
Qed.

Lemma has_fraction_edge : forall rest,
    has_fraction (rest ++ S) = has_fraction rest.
Proof.
  intros [|a [|b rest]]; try reflexivity;
    destruct after_M as [->|(S' & ->)]; try reflexivity.
  - destruct S'; reflexivity.
  - simpl. apply andb_false_r.
Qed.

Lemma spliced_fraction_test : forall s1 s2,
    related s1 s2 ->
    char_is (peek s2) "." && isDigit (peekNext s2)
    = char_is (peek s1) "." && isDigit (peekNext s1).
Proof.
  intros s1 s2 H. rewrite !fraction_test, (spliced_rest _ _ H).
  apply has_fraction_edge.
Qed.

Lemma spliced_number : forall fuel s1 s2 r1,
    related s1 s2 ->
    number fuel s1 = Some r1 ->
    exists r2, number fuel s2 = Some r2 /\ related r1 r2.
Proof.
  intros fuel s1 s2 r1 HR H. unfold number in *.
  destruct (while fuel _ _ s1) as [st1|] eqn:E; [|discriminate].
  destruct (spliced_while _ spliced_digit_cond isDigit_not_end _ _ _ _ HR E)
    as (st2 & -> & HR2).
  rewrite (spliced_fraction_test _ _ HR2).
  destruct (char_is (peek st1) "." && isDigit (peekNext st1)) eqn:Ef.
  - destruct (while fuel _ _ (snd (advance st1))) as [st1'|] eqn:E';
      [|discriminate].
    injection H as <-.
    assert (He1 : isAtEnd st1 = false).
    { destruct (isAtEnd st1) eqn:He; [|reflexivity].
      rewrite (peek_at_end _ He) in Ef. discriminate. }
    destruct (spliced_advance _ _ HR2 He1) as [_ HR3].
    destruct (spliced_while _ spliced_digit_cond isDigit_not_end
                            _ _ _ _ HR3 E') as (st2' & -> & HR4).
    eexists. split; [reflexivity|].
    rewrite (spliced_text _ _ HR4). apply spliced_addToken. exact HR4.
  - injection H as <-. eexists. split; [reflexivity|].
    rewrite (spliced_text _ _ HR2). apply spliced_addToken. exact HR2.
Qed.

Lemma spliced_identifier : forall fuel s1 s2 r1,
    related s1 s2 ->
    identifier fuel s1 = Some r1 ->
    exists r2, identifier fuel s2 = Some r2 /\ related r1 r2.
Proof.
  intros fuel s1 s2 r1 HR H. unfold identifier in *.
  destruct (while fuel _ _ s1) as [st1|] eqn:E; [|discriminate].
  destruct (spliced_while _ spliced_alnum_cond isAlphaNumeric_not_end
                          _ _ _ _ HR E) as (st2 & -> & HR2).
  injection H as <-. eexists. split; [reflexivity|].
  rewrite (spliced_text _ _ HR2). apply spliced_addToken. exact HR2.
Qed.

Lemma spliced_scanToken : forall fuel s1 s2 r1,
    related s1 s2 ->
    isAtEnd s1 = false ->
    scanToken fuel s1 = Some r1 ->
    S = [] \/ no_unterminated r1 ->
    exists r2, scanToken fuel s2 = Some r2 /\ related r1 r2.
Proof.
  intros fuel s1 s2 r1 HR He H Hun. unfold scanToken in *.
  destruct (spliced_advance _ _ HR He) as [Hc Ha].
  destruct (advance s1) as [c a1], (advance s2) as [c2 a2].
  cbn [fst snd] in Hc, Ha. subst c2.
  destruct (spliced_match "="%char a1 a2) as [Hm1 Hs1];
    [discriminate|exact Ha|].
  destruct (spliced_match "/"%char a1 a2) as [Hm2 Hs2];
    [discriminate|exact Ha|].
  destruct (match_ "=" a1) as [m1 b1], (match_ "=" a2) as [m1' b1'].
  destruct (match_ "/" a1) as [m2 b2], (match_ "/" a2) as [m2' b2'].
  cbn [fst snd] in Hm1, Hs1, Hm2, Hs2. subst m1' m2'.
  revert H.
  repeat match goal with
         | |- context [if char_is c ?k then _ else _] =>
             destruct (char_is c k)
         end;
    try (destruct (_ || _));
    try (destruct (isDigit c));
    try (destruct (isAlpha c));
    try (destruct m2);
    intros H;
    first
      [ injection H as <-; eexists; split; [reflexivity|];
        first [ assumption
              | apply spliced_addToken; assumption
              | apply spliced_set_line; assumption
              | apply spliced_error; assumption ]
      | eapply spliced_string; eassumption
      | eapply spliced_number; eassumption
      | eapply spliced_identifier; eassumption
      | eapply (spliced_while comment_cond spliced_comment_cond
                              comment_cond_not_end); eassumption ].
Qed.

End Splice.

(** ** The main loop inside a larger text *)

Section SpliceLoop.

Variables (P M S : jsstring) (L : nat).
Variables (T0 : list Token) (E0 : list Diagnostic).
Hypothesis after_M : S = [] \/ exists S', S = LF :: S'.

Local Abbreviation at_heads := (heads P M S L T0 E0).

Lemma spliced_heads : forall s1 s2,
    spliced P M S L T0 E0 s1 s2 -> at_heads s1 s2.
Proof.
  intros s1 s2 [Hwf H1 H2 Ht Hd Hs Hc Hl].
  split; simpl; try assumption.
  apply set_start_wf. assumption.
Qed.

Lemma no_unterminated_later : forall st r,
    later st r -> no_unterminated r -> no_unterminated st.
Proof.
  intros st r Hl H. unfold no_unterminated in *.
  destruct (later_errors _ _ Hl) as (new & Hn). rewrite Hn in H.
  apply Forall_app in H. tauto.
Qed.

(** The second scan follows the first one to the end of [M]; from there it
    goes on as a scan of its own. *)
Lemma heads_follow : forall F n s1 s2 r1,
    at_heads s1 s2 ->
    while n scan_cond (scan_body F) s1 = Some r1 ->
    S = [] \/ no_unterminated r1 ->
    exists r2,
      at_heads r1 r2 /\
      forall m res,
        while m scan_cond (scan_body F) r2 = Some res ->
        exists m', while m' scan_cond (scan_body F) s2 = Some res.
Proof.
  intros F. induction n as [|n IH]; intros s1 s2 r1 HR H Hun;
    [discriminate|].
  simpl in H. destruct (scan_cond s1) eqn:Hc.
  - destruct (scan_body F s1) as [s1'|] eqn:Hb; [|discriminate].
    unfold scan_cond in Hc. apply negb_true_iff in Hc.
    assert (Hun' : S = [] \/ no_unterminated s1').
    { destruct Hun as [HS|Hun]; [left; exact HS|right].
      refine (no_unterminated_later _ _ _ Hun).
      destruct (scanToken_step _ _ _ (sp_wf _ _ _ _ _ _ _ _ HR) Hc Hb)
        as (Hw' & _).
      exact (proj1 (proj2 (scan_loop_spec _ _ _ _ Hw' H))). }
    destruct (spliced_scanToken P M S L T0 E0 after_M F _ _ _ HR Hc Hb Hun')
      as (s2' & Hb2 & HR').
    destruct (IH _ _ _ (spliced_heads _ _ HR') H Hun) as (r2 & Hh & Hfollow).
    exists r2. split; [exact Hh|].
    intros m res Hres. destruct (Hfollow m res Hres) as (m' & Hm').
    exists (Datatypes.S m'). simpl.
    destruct (spliced_inside P M S L T0 E0 _ _ HR Hc) as (He2 & _).
    unfold scan_cond at 1. change (isAtEnd s2) with
      (isAtEnd (set_start (current s2) s2)). rewrite He2. simpl.
    unfold scan_body at 1. rewrite Hb2. exact Hm'.
  - injection H as <-. exists s2. split; [exact HR|]. eauto.
Qed.

End SpliceLoop.

Lemma shift_token_0 : forall t, shift_token 0 t = t.
Proof. intros []. reflexivity. Qed.

Lemma shift_diagnostic_0 : forall d, shift_diagnostic 0 d = d.
Proof. intros []. reflexivity. Qed.

Lemma map_shift_token_0 : forall ts, map (shift_token 0) ts = ts.
Proof.
  induction ts as [|t ts IH]; simpl; [reflexivity|].
  now rewrite shift_token_0, IH.
Qed.

Lemma map_shift_diagnostic_0 : forall ds, map (shift_diagnostic 0) ds = ds.
Proof.
  induction ds as [|d ds IH]; simpl; [reflexivity|].
  now rewrite shift_diagnostic_0, IH.
Qed.

Lemma scanToken_newline : forall fuel st,
    charAt (source st) (current st) = Some LF ->
    scanToken fuel (set_start (current st) st)
    = Some (set_line (line st + 1) (entered st)).
Proof.
  intros fuel st H. unfold scanToken, entered, advance.
  change (source (set_start (current st) st)) with (source st).
  change (current (set_start (current st) st)) with (current st).
  rewrite H. reflexivity.
Qed.

(** The loop of [scan] on a fresh scanner: where it stops. *)
Lemma scan_source_loop : forall fuel src r,
    scan_source fuel src = Some r ->
    exists st,
      while fuel scan_cond (scan_body fuel) (initial src) = Some st /\
      r = push (EOF_token (line st)) st /\
      wf st /\ isAtEnd st = true /\ source st = src /\
      line st = line_count src.
Proof.
  intros fuel src r H. unfold scan_source, run, scanTokens, scan in H.
  fold (initial src) in H.
  destruct (while fuel _ _ (initial src)) as [st|] eqn:E; [|discriminate].
  injection H as <-. exists st. split; [reflexivity|]. split; [reflexivity|].
  destruct (scan_loop_spec fuel fuel _ _ (initial_wf src [] false []) E)
    as (Hw & Hl & He).
  assert (Hh : loop_head fuel src st).
  { refine (proj1 (while_rule scan_cond (scan_body fuel)
                     (loop_head fuel src) _ _ _ _ _ E)).
    - intros s s' Hs Hc Hb. unfold scan_cond in Hc.
      apply negb_true_iff in Hc. eapply loop_head_next; eassumption.
    - apply loop_head_first. }
  pose proof (loop_head_tracks _ _ _ Hh) as HJ.
  destruct (loop_head_wf _ _ _ Hh) as [_ Hsrc].
  split; [exact Hw|]. split; [exact He|]. split; [exact Hsrc|].
  unfold line_tracks in HJ. rewrite HJ, Hsrc. unfold line_at, line_count.
  apply isAtEnd_true in He. rewrite Hsrc in He.
  rewrite firstn_all2 by exact He. reflexivity.
Qed.

(** ** Scanning two texts joined by a newline *)

Lemma scan_loop_more_fuel : forall fuel fuel' st r,
    while fuel scan_cond (scan_body fuel) st = Some r ->
    fuel <= fuel' ->
    forall n, fuel <= n ->
    while n scan_cond (scan_body fuel') st = Some r.
Proof.
  intros fuel fuel' st r H Hle n Hn.
  refine (while_mono2 scan_cond (scan_body fuel) (scan_body fuel') _
                      _ _ _ _ H Hn).
  intros s s' Hs. unfold scan_body in *. eapply scanToken_mono; eassumption.
Qed.

Lemma at_end_current : forall st,
    wf st -> isAtEnd st = true -> current st = length (source st).
Proof.
  intros st Hwf He. apply isAtEnd_true in He.
  destruct (wf_bounds _ Hwf). lia.
Qed.

Lemma charAt_middle : forall (A B : jsstring) a,
    charAt (A ++ a :: B) (length A) = Some a.
Proof.
  intros A B a. unfold charAt.
  rewrite nth_error_app2 by lia. rewrite Nat.sub_diag. reflexivity.
Qed.

(** C4, as worded, fails: a quote scanned alone is an unterminated string
    and gives no token, but two quotes with a newline between them are one
    string literal. *)
Lemma unterminated_string_joins :
  ~ concatenation_claim [DQUOTE] [DQUOTE].
Proof.
  intros H.
  destruct (scan_source 2 [DQUOTE]) as [ra|] eqn:Ea; [|discriminate Ea].
  destruct (scan_source 4 ([DQUOTE] ++ LF :: [DQUOTE])) as [r|] eqn:E;
    [|discriminate E].
  specialize (H 2 2 4 ra ra r Ea Ea E).
  vm_compute in Ea. injection Ea as <-.
  vm_compute in E. injection E as <-.
  vm_compute in H. discriminate H.
Qed.

(** C4, amended.  When the scan of [A] reports no unterminated string, the
    scan of [A], a newline and [B] gives the tokens of [A] without its EOF
    token, followed by the tokens of [B] with [A]'s line count added to
    their lines; types, lexemes and literals are the same, and the one EOF
    token is the shifted EOF token of [B].  The diagnostics combine in the
    same way. *)
Theorem scan_concatenation : forall A B fa fb ra rb,
    scan_source fa A = Some ra ->
    scan_source fb B = Some rb ->
    no_unterminated ra ->
    exists r,
      scan_source (S (length (A ++ LF :: B))) (A ++ LF :: B) = Some r /\
      tokens r
      = removelast (tokens ra)
        ++ map (shift_token (line_count A)) (tokens rb) /\
      console_error r
      = console_error ra
        ++ map (shift_diagnostic (line_count A)) (console_error rb).
Proof.
  intros A B fa fb ra rb HA HB Hun.
  destruct (scan_source_loop _ _ _ HA)
    as (stA & EA & -> & HwA & HeA & HsA & HlA).
  destruct (scan_source_loop _ _ _ HB)
    as (stB & EB & -> & HwB & HeB & HsB & HlB).
  set (F := Nat.max fa fb).
  assert (EA' := scan_loop_more_fuel _ F _ _ EA (Nat.le_max_l _ _) fa
                                     (Nat.le_refl _)).
  assert (EB' := scan_loop_more_fuel _ F _ _ EB (Nat.le_max_r _ _) fb
                                     (Nat.le_refl _)).
  set (AB := A ++ LF :: B).
  (* the first scan, up to the end of [A] *)
  assert (H0 : heads [] A (LF :: B) 0 [] [] (initial A) (initial AB)).
  { split; try reflexivity. apply set_start_wf, initial_wf. }
  destruct (heads_follow [] A (LF :: B) 0 [] []
              (or_intror (ex_intro _ B eq_refl)) F fa _ _ _ H0 EA'
              (or_intror Hun))
    as (r2 & [_ _ Hs2 Ht2 Hd2 _ Hc2 Hl2] & Hfollow).
  cbn [source tokens console_error current line set_start assign] in *.
  rewrite map_shift_token_0 in Ht2. rewrite map_shift_diagnostic_0 in Hd2.
  cbn [app length Nat.add] in *.
  rewrite (at_end_current _ HwA HeA), HsA in Hc2. rewrite HlA in Hl2.
  (* the newline *)
  assert (Hnl : charAt (source r2) (current r2) = Some LF).
  { rewrite Hs2, Hc2. apply charAt_middle. }
  pose proof (scanToken_newline F _ Hnl) as Hstep.
  set (r2n := set_line (line r2 + 1) (entered r2)) in *.
  (* the second scan, from the start of [B] *)
  assert (H1 : heads (A ++ [LF]) B [] (line_count A)
                     (tokens stA) (console_error stA) (initial B) r2n).
  { unfold r2n.
    split; cbn [source tokens console_error start current line
                set_start set_line set_current assign entered snd advance
                initial map]; try reflexivity.
    - apply set_start_wf, initial_wf.
    - rewrite Hs2, app_nil_r, <- app_assoc. reflexivity.
    - rewrite app_nil_r. exact Ht2.
    - rewrite app_nil_r. exact Hd2.
    - rewrite Hc2, length_app. simpl. lia.
    - rewrite Hc2, length_app. simpl. lia.
    - rewrite Hl2. lia. }
  destruct (heads_follow (A ++ [LF]) B [] (line_count A)
              (tokens stA) (console_error stA) (or_introl eq_refl)
              F fb _ _ _ H1 EB' (or_introl eq_refl))
    as (r2f & Hh & Hfollow').
  assert (He2f : isAtEnd r2f = true).
  { destruct (spliced_edge _ _ _ _ _ _ (or_introl eq_refl) _ _ Hh HeB)
      as (_ & [(_ & He & _)|((S' & HS') & _)]); [exact He|discriminate]. }
  destruct Hh as [_ _ Hsf Htf Hdf _ Hcf Hlf].
  cbn [source tokens console_error current line set_start assign] in *.
  destruct (Hfollow' 1 r2f) as (m1 & Hm1).
  { simpl. unfold scan_cond. rewrite He2f. reflexivity. }
  destruct (Hfollow (Datatypes.S m1) r2f) as (m' & Hm').
  { simpl. unfold scan_cond at 1.
    rewrite (charAt_Some_not_end _ _ Hnl). simpl.
    unfold scan_body at 1. rewrite Hstep. exact Hm1. }
  (* the whole scan *)
  set (N := Nat.max m' F).
  assert (HN : scan_source N AB
               = Some (push (EOF_token (line r2f)) r2f)).
  { unfold scan_source, run, scanTokens, scan. fold (initial AB).
    rewrite (while_mono2 scan_cond (scan_body F) (scan_body N))
      with (fuel := m') (r := r2f); [reflexivity| |exact Hm'|apply Nat.le_max_l].
    intros s s' Hs. unfold scan_body in *.
    eapply scanToken_mono; [exact Hs|apply Nat.le_max_r]. }
  destruct (scan_source_total AB 0) as (r & Hr).
  rewrite Nat.add_0_r in Hr.
  exists r. split; [exact Hr|].
  rewrite (scan_deterministic _ _ _ _ _ Hr HN).
  cbn [tokens console_error push]. rewrite Htf, Hdf.
  split; [|reflexivity].
  rewrite removelast_last, map_app, <- app_assoc.
  cbn [map]. unfold shift_token at 2, EOF_token.
  cbn [tk_type tk_lexeme tk_literal tk_line].
  rewrite Hlf. reflexivity.
Qed.

Lemma scan_concatenation_witness :
  exists r,
    scan_source 6 (str "a" ++ LF :: str "b" ++ [LF; "c"%char]) = Some r /\
    tokens r
    = [mkToken (Kind IDENTIFIER) (str "a") EmptyObject 1;
       mkToken (Kind IDENTIFIER) (str "b") EmptyObject 2;
       mkToken (Kind IDENTIFIER) (str "c") EmptyObject 3;
       mkToken (Kind EOF) [] EmptyObject 3] /\
    console_error r = [].
Proof.
  destruct (scan_source 2 (str "a")) as [ra|] eqn:Ea; [|discriminate Ea].
  destruct (scan_source 4 (str "b" ++ [LF; "c"%char])) as [rb|] eqn:Eb;
    [|discriminate Eb].
  assert (Hun : no_unterminated ra).
  { vm_compute in Ea. injection Ea as <-. constructor. }
  destruct (scan_concatenation _ _ _ _ _ _ Ea Eb Hun) as (r & Hr & Ht & Hd).
  exists r. split; [exact Hr|].
  vm_compute in Ea. injection Ea as <-.
  vm_compute in Eb. injection Eb as <-.
  split; [exact Ht|exact Hd].
Defined.

(** * Further properties of the scanner and the driver *)

(** ** What one turn of the main loop adds *)

Lemma outcome_one_token : forall (c : option ascii) st r t,
    outcome st r [t] [] ->
    exists ts ds,
      outcome st r ts ds /\ length ts + length ds <= 1 /\
      Forall (diagnostic_ok r) ds /\
      (ds <> [] -> char_is c DQUOTE = true \/ no_rule c = true).
Proof.
  intros c st r t H. exists [t], []. split; [exact H|].
  split; [simpl; lia|]. split; [constructor|]. intros Hne. now elim Hne.
Qed.

Lemma outcome_nothing : forall (c : option ascii) st r,
    outcome st r [] [] ->
    exists ts ds,
      outcome st r ts ds /\ length ts + length ds <= 1 /\
      Forall (diagnostic_ok r) ds /\
      (ds <> [] -> char_is c DQUOTE = true \/ no_rule c = true).
Proof.
  intros c st r H. exists [], []. split; [exact H|].
  split; [simpl; lia|]. split; [constructor|]. intros Hne. now elim Hne.
Qed.

Lemma dispatch_outcome : forall fuel c st r,
    wf st ->
    dispatch fuel c st (Some r) ->
    exists ts ds,
      outcome st r ts ds /\ length ts + length ds <= 1 /\
      Forall (diagnostic_ok r) ds /\
      (ds <> [] -> char_is c DQUOTE = true \/ no_rule c = true).
Proof.
  intros fuel c st r Hwf H.
  remember (Some r) as res eqn:Hres.
  destruct H.
  - injection Hres as <-. eapply outcome_one_token, outcome_addToken.
  - injection Hres as <-. eapply outcome_one_token.
    eapply outcome_swept_l;
      [apply moved_swept, (match_moved "="%char)|apply outcome_addToken].
  - destruct (advance_loop_spec _ _ comment_cond_peek _ _ _
                (match_wf _ _ Hwf) Hres) as (_ & Hm & _).
    apply outcome_nothing, moved_outcome.
    eapply moved_trans; [apply match_moved|exact Hm].
  - injection Hres as <-. eapply outcome_one_token.
    eapply outcome_swept_l;
      [apply moved_swept, (match_moved "/"%char)|apply outcome_addToken].
  - injection Hres as <-. apply outcome_nothing, moved_outcome, moved_refl.
  - injection Hres as <-.
    apply outcome_nothing, swept_outcome, set_line_swept.
  - destruct (string_spec _ _ _ Hwf Hres) as (_ & _ & Hln & Hif).
    destruct (_ <? _) eqn:Hlt; destruct Hif as [Hc Ho].
    + eapply outcome_one_token. exact Ho.
    + eexists [], [_]. split; [exact Ho|]. split; [simpl; lia|].
      split; [|intros _; left; assumption].
      constructor; [|constructor].
      split; [reflexivity|]. split; [simpl; congruence|right].
      split; [reflexivity|].
      apply isAtEnd_true. rewrite (out_source _ _ _ _ Ho).
      apply Nat.ltb_ge in Hlt. lia.
  - destruct (number_spec _ _ _ Hwf Hres) as (_ & _ & _ & _ & Ho).
    eapply outcome_one_token. exact Ho.
  - destruct (identifier_spec _ _ _ Hwf Hres) as (_ & _ & _ & _ & Ho).
    eapply outcome_one_token. exact Ho.
  - injection Hres as <-. eexists [], [_].
    split; [apply outcome_error|]. split; [simpl; lia|].
    split; [|intros _; right; assumption].
    constructor; [|constructor].
    split; [reflexivity|]. split; [reflexivity|left; reflexivity].
Qed.

Lemma scanToken_entered : forall fuel st r,
    scanToken fuel (set_start (current st) st) = Some r ->
    dispatch fuel (charAt (source st) (current st)) (entered st) (Some r).
Proof.
  intros fuel st r H.
  pose proof (scanToken_dispatch fuel (set_start (current st) st)) as Hd.
  rewrite H in Hd. exact Hd.
Qed.

Lemma scanToken_turn : forall fuel st r,
    wf st ->
    isAtEnd st = false ->
    scanToken fuel (set_start (current st) st) = Some r ->
    exists ts ds, turn st r ts ds.
Proof.
  intros fuel st r Hwf He H.
  destruct (scanToken_step _ _ _ (set_start_wf _ Hwf) He H)
    as (Hw & Hl & Hlt & _).
  pose proof (scanToken_entered _ _ _ H) as Hd.
  pose proof (entered_wf _ Hwf He) as Hwe.
  destruct (dispatch_outcome _ _ _ _ Hwe Hd)
    as (ts & ds & Ho & Hone & Hds & Hblame).
  pose proof (dispatch_pushed _ _ _ _ Hwe Hd) as Hp.
  rewrite (pushed_outcome _ _ _ _ Ho) in Hp.
  destruct Ho as [Hs _ Ht He' Hf].
  exists ts, ds. split; try assumption.
  exact (later_line _ _ Hl).
Qed.

(** An invariant of the turns of the main loop holds when [scan] returns. *)
Lemma scan_invariant (P : State -> Prop) : forall fuel st0 res,
    wf st0 ->
    P st0 ->
    (forall st r ts ds,
        wf st -> P st -> isAtEnd st = false ->
        scanToken fuel (set_start (current st) st) = Some r ->
        turn st r ts ds -> P r) ->
    scan fuel st0 = Some res ->
    exists st,
      res = push (EOF_token (line st)) st /\
      wf st /\ P st /\ isAtEnd st = true /\ later st0 st.
Proof.
  intros fuel st0 res Hwf HP Hstep H. unfold scan in H.
  destruct (while fuel _ _ st0) as [st|] eqn:E; [|discriminate].
  injection H as <-. exists st. split; [reflexivity|].
  destruct (while_rule scan_cond (scan_body fuel)
              (fun s => wf s /\ P s /\ later st0 s) )
    with (fuel := fuel) (st := st0) (r := st) as ((Hw & Hp & Hl) & Hc).
  - intros s s' (Hs & Hps & Hls) Hc Hb.
    unfold scan_cond in Hc. apply negb_true_iff in Hc.
    unfold scan_body in Hb.
    destruct (scanToken_turn _ _ _ Hs Hc Hb) as (ts & ds & Ht).
    destruct (scan_body_step _ _ _ Hs (proj2 (negb_true_iff _) Hc) Hb)
      as (Hw' & Hl' & _).
    split; [exact Hw'|]. split; [exact (Hstep s s' ts ds Hs Hps Hc Hb Ht)|].
    eapply later_trans; eassumption.
  - split; [assumption|]. split; [assumption|apply later_refl].
  - exact E.
  - split; [assumption|]. split; [assumption|].
    split; [|assumption].
    unfold scan_cond in Hc. now apply negb_false_iff in Hc.
Qed.

(** ** Properties of a whole scan *)

Lemma run_invariant (P : State -> Prop) : forall fuel src he ce res,
    P (started src he ce) ->
    (forall st r ts ds,
        wf st -> P st -> isAtEnd st = false ->
        scanToken fuel (set_start (current st) st) = Some r ->
        turn st r ts ds -> P r) ->
    run fuel src he ce = Some res ->
    exists st,
      res = push (EOF_token (line st)) st /\
      wf st /\ P st /\ isAtEnd st = true /\ source st = src.
Proof.
  intros fuel src he ce res HP Hstep H. unfold run, scanTokens in H.
  destruct (scan_invariant P fuel _ _ (initial_wf src [] he ce) HP Hstep H)
    as (st & Hres & Hw & Hp & He & Hl).
  exists st. repeat (split; [assumption|]).
  exact (later_source _ _ Hl).
Qed.

(** X1. Every character of the input gives at most one token or one
    diagnostic: the tokens of a scan, without the EOF token, and the
    diagnostics that it adds to the error stream are together no more than
    the characters of the input. *)
Theorem token_budget : forall fuel src he ce r,
    run fuel src he ce = Some r ->
    length (tokens r) + length (console_error r)
    <= length src + 1 + length ce.
Proof.
  intros fuel src he ce r H.
  pose (P := fun st : State =>
               length (tokens st) + length (console_error st)
               <= current st + length ce).
  assert (Hstep : forall st r' ts ds,
             wf st -> P st -> isAtEnd st = false ->
             scanToken fuel (set_start (current st) st) = Some r' ->
             turn st r' ts ds -> P r').
  { intros st r' ts ds Hw Hp He _ [_ _ Hc _ Ht Hd _ Hone _ _].
    unfold P in *. rewrite Ht, Hd, !length_app. lia. }
  destruct (run_invariant P _ _ _ _ _ (Nat.le_refl _) Hstep H)
    as (st & -> & Hw & Hp & He & Hs).
  destruct (wf_bounds _ Hw) as [_ Hb]. rewrite Hs in Hb.
  unfold P in Hp. simpl. rewrite length_app. simpl. lia.
Qed.

Lemma token_budget_witness :
  exists r,
    run 5 (str "a @1") false [] = Some r /\
    length (tokens r) + length (console_error r) <= 4 + 1 + 0.
Proof.
  eexists. split; [vm_compute; reflexivity|].
  apply (token_budget 5 (str "a @1") false []). vm_compute. reflexivity.
Defined.

Lemma scan_flag : forall fuel st0 res,
    wf st0 ->
    scan fuel st0 = Some res ->
    had_error res
    = had_error st0
      || (length (console_error st0) <? length (console_error res)).
Proof.
  intros fuel st0 res Hwf H.
  pose (P := fun st : State =>
               had_error st
               = had_error st0
                 || (length (console_error st0) <? length (console_error st))
               /\ length (console_error st0) <= length (console_error st)).
  assert (Hstep : forall st r' ts ds,
             wf st -> P st -> isAtEnd st = false ->
             scanToken fuel (set_start (current st) st) = Some r' ->
             turn st r' ts ds -> P r').
  { intros st r' ts ds Hw [Hp Hle] He _ [_ _ _ _ _ Hd Hf _ _ _].
    unfold P. rewrite Hd, Hf, length_app. destruct ds as [|d ds].
    - simpl. rewrite Nat.add_0_r. split; assumption.
    - split; [|lia].
      replace (length (console_error st0)
               <? length (console_error st) + length (d :: ds))
        with true; [now rewrite orb_true_r|].
      symmetry. apply Nat.ltb_lt. simpl. lia. }
  assert (H0 : P st0).
  { unfold P. rewrite Nat.ltb_irrefl, orb_false_r.
    split; [reflexivity|lia]. }
  destruct (scan_invariant P _ _ _ Hwf H0 Hstep H)
    as (st & -> & _ & [Hp _] & _).
  exact Hp.
Qed.

(** X2. The error flag tells whether something was reported: after a scan
    it is set exactly when it was set before or the scan added a diagnostic
    to the error stream. *)
Theorem error_flag : forall fuel src he ce r,
    run fuel src he ce = Some r ->
    had_error r = he || (length ce <? length (console_error r)).
Proof.
  intros fuel src he ce r H. unfold run, scanTokens in H.
  exact (scan_flag _ _ _ (initial_wf src [] he ce) H).
Qed.

Lemma error_flag_witness :
  exists r,
    run 2 (str "@") false [] = Some r /\
    had_error r = false || (0 <? length (console_error r)).
Proof.
  eexists. split; [vm_compute; reflexivity|].
  apply (error_flag 2 (str "@") false []). vm_compute. reflexivity.
Defined.

Lemma nondecreasing_app_one : forall l x,
    nondecreasing l -> (forall a, In a l -> a <= x) ->
    nondecreasing (l ++ [x]).
Proof.
  intros l x Hl Hx i j a b Hij Hi Hj.
  destruct (Nat.lt_ge_cases j (length l)) as [Hj'|Hj'].
  - rewrite nth_error_app1 in Hj by assumption.
    rewrite nth_error_app1 in Hi by lia.
    exact (Hl i j a b Hij Hi Hj).
  - rewrite nth_error_app2 in Hj by assumption.
    destruct (j - length l) as [|k]; [|destruct k; discriminate].
    simpl in Hj. injection Hj as <-.
    destruct (Nat.lt_ge_cases i (length l)) as [Hi'|Hi'].
    + rewrite nth_error_app1 in Hi by assumption.
      apply Hx. eapply nth_error_In. exact Hi.
    + rewrite nth_error_app2 in Hi by assumption.
      destruct (i - length l) as [|k]; [|destruct k; discriminate].
      simpl in Hi. injection Hi as <-. lia.
Qed.

Lemma nondecreasing_nil : nondecreasing [].
Proof. intros i j a b _ Hi. destruct i; discriminate. Qed.

Lemma line_tracks_positive : forall st, line_tracks st -> 1 <= line st.
Proof. intros st H. rewrite H. unfold line_at. lia. Qed.

Lemma line_tracks_at_end : forall st,
    line_tracks st -> wf st -> isAtEnd st = true ->
    line st = line_count (source st).
Proof.
  intros st H Hw He. rewrite H. unfold line_at, line_count.
  apply isAtEnd_true in He. now rewrite firstn_all2.
Qed.

(** X3. The lines of the tokens never decrease along the token array, the
    EOF token included, and every one of them is a line of the input:
    between 1 and its number of lines. *)
Theorem token_lines_sorted : forall fuel src he ce r,
    run fuel src he ce = Some r ->
    nondecreasing (map tk_line (tokens r)) /\
    Forall (fun t => 1 <= tk_line t /\ tk_line t <= line_count src)
           (tokens r).
Proof.
  intros fuel src he ce r H.
  pose (P := fun st : State =>
               line_tracks st /\
               nondecreasing (map tk_line (tokens st)) /\
               Forall (fun t => 1 <= tk_line t /\ tk_line t <= line st)
                      (tokens st)).
  assert (Hstep : forall st r' ts ds,
             wf st -> P st -> isAtEnd st = false ->
             scanToken fuel (set_start (current st) st) = Some r' ->
             turn st r' ts ds -> P r').
  { intros st r' ts ds Hw (HJ & Hn & Hall) He Hs
           [_ _ _ Hl Ht _ _ Hone Hst _].
    pose proof (scanToken_tracks _ _ _ HJ He Hs) as HJ'.
    assert (Hall' : Forall (fun t => 1 <= tk_line t /\ tk_line t <= line r')
                           (tokens st)).
    { eapply Forall_impl; [|exact Hall]. cbv beta. intros t [? ?]. lia. }
    unfold P. split; [exact HJ'|]. rewrite Ht.
    destruct ts as [|t [|t' ts]]; [| |simpl in Hone; lia].
    - rewrite app_nil_r. split; assumption.
    - inversion Hst as [|? ? [_ Hline] _]; subst.
      pose proof (line_tracks_positive _ HJ').
      split.
      + rewrite map_app. simpl. apply nondecreasing_app_one; [exact Hn|].
        intros a Ha. apply in_map_iff in Ha. destruct Ha as (t0 & <- & Hin).
        rewrite Forall_forall in Hall'. destruct (Hall' _ Hin). lia.
      + apply Forall_app. split; [exact Hall'|].
        constructor; [lia|constructor]. }
  assert (H0 : P (started src he ce)).
  { split; [reflexivity|]. split; [apply nondecreasing_nil|constructor]. }
  destruct (run_invariant P _ _ _ _ _ H0 Hstep H)
    as (st & -> & Hw & (HJ & Hn & Hall) & He & Hs).
  pose proof (line_tracks_at_end _ HJ Hw He) as Hlast. rewrite Hs in Hlast.
  pose proof (line_tracks_positive _ HJ).
  simpl. split.
  - rewrite map_app. simpl. apply nondecreasing_app_one; [exact Hn|].
    intros a Ha. apply in_map_iff in Ha. destruct Ha as (t0 & <- & Hin).
    rewrite Forall_forall in Hall. destruct (Hall _ Hin). lia.
  - apply Forall_app. split.
    + eapply Forall_impl; [|exact Hall]. cbv beta. intros t [? ?]. lia.
    + constructor; [simpl; lia|constructor].
Qed.

Lemma token_lines_sorted_witness :
  exists r,
    run 4 ("a"%char :: LF :: [ "b"%char ]) false [] = Some r /\
    nondecreasing (map tk_line (tokens r)) /\
    Forall (fun t => 1 <= tk_line t /\ tk_line t <= 2) (tokens r).
Proof.
  eexists. split; [vm_compute; reflexivity|].
  apply (token_lines_sorted 4 ("a"%char :: LF :: [ "b"%char ]) false []).
  vm_compute. reflexivity.
Defined.

(** X4. What a scan reports is appended to the error stream.  Every added
    diagnostic has an empty location text, a line of the input and one of
    the two messages; their lines never decrease, and [Unterminated
    string.] can only be the last of them. *)
Theorem diagnostics_shape : forall fuel src he ce r,
    run fuel src he ce = Some r ->
    exists ds,
      console_error r = ce ++ ds /\
      Forall (fun d =>
                d_where d = EmptyString /\
                1 <= d_line d /\ d_line d <= line_count src /\
                (d_message d = UnexpectedCharacter \/
                 d_message d = UnterminatedString)) ds /\
      nondecreasing (map d_line ds) /\
      Forall (fun d => d_message d = UnexpectedCharacter) (removelast ds).
Proof.
  intros fuel src he ce r H.
  pose (Q := fun (ln : nat) (d : Diagnostic) =>
               d_where d = EmptyString /\
               1 <= d_line d /\ d_line d <= ln /\
               (d_message d = UnexpectedCharacter \/
                d_message d = UnterminatedString)).
  pose (P := fun st : State =>
               line_tracks st /\
               exists ds,
                 console_error st = ce ++ ds /\
                 Forall (Q (line st)) ds /\
                 nondecreasing (map d_line ds) /\
                 Forall (fun d => d_message d = UnexpectedCharacter)
                        (removelast ds) /\
                 (isAtEnd st = false ->
                  Forall (fun d => d_message d = UnexpectedCharacter) ds)).
  assert (Hstep : forall st r' ts ds,
             wf st -> P st -> isAtEnd st = false ->
             scanToken fuel (set_start (current st) st) = Some r' ->
             turn st r' ts ds -> P r').
  { intros st r' ts ds Hw (HJ & old & Hce & Hall & Hn & _ & Hun) He Hs
           [_ _ _ Hl _ Hd _ Hone _ Hrep].
    pose proof (scanToken_tracks _ _ _ HJ He Hs) as HJ'.
    specialize (Hun He).
    assert (Hall' : Forall (Q (line r')) old).
    { eapply Forall_impl; [|exact Hall]. unfold Q.
      intros d (? & ? & ? & ?). repeat split; try assumption. lia. }
    unfold P. split; [exact HJ'|].
    destruct ds as [|d [|d' ds]]; [| |simpl in Hone; lia].
    - exists old. rewrite Hd, app_nil_r. split; [exact Hce|].
      split; [exact Hall'|]. split; [exact Hn|].
      split; [|intros _; exact Hun].
      clear - Hun. induction old as [|x [|y old] IH]; simpl in *;
        [constructor|constructor|].
      inversion Hun; subst. constructor; [assumption|]. apply IH. assumption.
    - inversion Hrep as [|? ? (Hwh & Hln & Hmsg) _]; subst.
      pose proof (line_tracks_positive _ HJ').
      exists (old ++ [d]). rewrite Hd, Hce, app_assoc.
      split; [reflexivity|]. split.
      { apply Forall_app. split; [exact Hall'|].
        constructor; [|constructor]. unfold Q.
        repeat split; try assumption; try lia.
        destruct Hmsg as [Hm|[Hm _]]; [left|right]; exact Hm. }
      split.
      { rewrite map_app. simpl. apply nondecreasing_app_one; [exact Hn|].
        intros a Ha. apply in_map_iff in Ha. destruct Ha as (d0 & <- & Hin).
        rewrite Forall_forall in Hall'. destruct (Hall' _ Hin) as (_ & _ & ? & _).
        lia. }
      split; [rewrite removelast_last; exact Hun|].
      intros He'. apply Forall_app. split; [exact Hun|].
      constructor; [|constructor].
      destruct Hmsg as [Hm|[_ Hend]]; [exact Hm|congruence]. }
  assert (H0 : P (started src he ce)).
  { split; [reflexivity|]. exists []. rewrite app_nil_r.
    split; [reflexivity|]. split; [constructor|].
    split; [apply nondecreasing_nil|]. split; [constructor|].
    intros _. constructor. }
  destruct (run_invariant P _ _ _ _ _ H0 Hstep H)
    as (st & -> & Hw & (HJ & ds & Hce & Hall & Hn & Hlast & _) & He & Hs).
  pose proof (line_tracks_at_end _ HJ Hw He) as Hend. rewrite Hs in Hend.
  exists ds. simpl. split; [exact Hce|].
  split; [|split; assumption].
  eapply Forall_impl; [|exact Hall]. unfold Q.
  intros d (? & ? & ? & ?). repeat split; try assumption. lia.
Qed.

Lemma diagnostics_shape_witness :
  exists r,
    run 4 ("@"%char :: LF :: [DQUOTE]) false [] = Some r /\
    exists ds,
      console_error r = [] ++ ds /\
      Forall (fun d =>
                d_where d = EmptyString /\
                1 <= d_line d /\ d_line d <= 2 /\
                (d_message d = UnexpectedCharacter \/
                 d_message d = UnterminatedString)) ds /\
      nondecreasing (map d_line ds) /\
      Forall (fun d => d_message d = UnexpectedCharacter) (removelast ds).
Proof.
  eexists. split; [vm_compute; reflexivity|].
  apply (diagnostics_shape 4 ("@"%char :: LF :: [DQUOTE]) false []).
  vm_compute. reflexivity.
Defined.

Lemma slices_weaken : forall src ts lo hi hi',
    slices src lo ts hi -> hi <= hi' -> slices src lo ts hi'.
Proof.
  induction ts as [|t ts IH]; intros lo hi hi' H Hle; simpl in *; [lia|].
  destruct H as (a & b & Ha & Hb & Hlex & Hrest).
  exists a, b. repeat split; try assumption. eapply IH; eassumption.
Qed.

Lemma slices_snoc : forall src ts lo hi t a b,
    slices src lo ts hi ->
    hi <= a -> a < b ->
    tk_lexeme t = substring src a b ->
    slices src lo (ts ++ [t]) b.
Proof.
  induction ts as [|t0 ts IH]; intros lo hi t a b H Ha Hb Hlex; simpl in *.
  - exists a, b. repeat split; try assumption; lia.
  - destruct H as (a0 & b0 & Ha0 & Hb0 & Hlex0 & Hrest).
    exists a0, b0. repeat split; try assumption. eapply IH; eassumption.
Qed.

Lemma slices_bounds : forall src ts lo hi,
    slices src lo ts hi -> lo <= hi.
Proof.
  induction ts as [|t ts IH]; intros lo hi H; simpl in *; [exact H|].
  destruct H as (a & b & Ha & Hb & _ & Hrest). apply IH in Hrest. lia.
Qed.

Lemma slices_nonempty : forall src ts lo hi,
    slices src lo ts hi -> hi <= length src ->
    Forall (fun t => tk_lexeme t <> []) ts.
Proof.
  induction ts as [|t ts IH]; intros lo hi H Hhi; [constructor|].
  simpl in H. destruct H as (a & b & Ha & Hb & Hlex & Hrest).
  pose proof (slices_bounds _ _ _ _ Hrest).
  constructor; [|eapply IH; eassumption].
  rewrite Hlex, substring_inside by lia.
  intros E. apply (f_equal (@length ascii)) in E.
  rewrite length_firstn, length_skipn in E. simpl in E. lia.
Qed.

(** X5. The lexemes of the tokens, the EOF token apart, are non-empty
    pieces of the input, in the order of the input and without overlap:
    each token starts where the one before it ended or later. *)
Theorem lexemes_are_slices : forall fuel src he ce r,
    run fuel src he ce = Some r ->
    slices src 0 (removelast (tokens r)) (length src) /\
    Forall (fun t => tk_lexeme t <> []) (removelast (tokens r)).
Proof.
  intros fuel src he ce r H.
  pose (P := fun st : State =>
               source st = src /\ slices src 0 (tokens st) (current st)).
  assert (Hstep : forall st r' ts ds,
             wf st -> P st -> isAtEnd st = false ->
             scanToken fuel (set_start (current st) st) = Some r' ->
             turn st r' ts ds -> P r').
  { intros st r' ts ds Hw (Hsrc & Hsl) He _
           [_ Hs Hc _ Ht _ _ Hone Hst _ _].
    unfold P. split; [congruence|]. rewrite Ht.
    destruct ts as [|t [|t' ts]]; [| |simpl in Hone; lia].
    - rewrite app_nil_r. eapply slices_weaken; [exact Hsl|lia].
    - inversion Hst as [|? ? [Hlex _] _]; subst.
      eapply slices_snoc; [exact Hsl|apply Nat.le_refl|exact Hc|exact Hlex]. }
  assert (H0 : P (started src he ce)).
  { split; [reflexivity|]. simpl. lia. }
  destruct (run_invariant P _ _ _ _ _ H0 Hstep H)
    as (st & -> & Hw & (Hsrc & Hsl) & He & _).
  destruct (wf_bounds _ Hw) as [_ Hb]. rewrite Hsrc in Hb.
  simpl. rewrite removelast_last.
  assert (Hall : slices src 0 (tokens st) (length src))
    by (eapply slices_weaken; eassumption).
  split; [exact Hall|]. eapply slices_nonempty; [exact Hall|lia].
Qed.

Lemma lexemes_are_slices_witness :
  exists r,
    run 6 (str "a + 1") false [] = Some r /\
    slices (str "a + 1") 0 (removelast (tokens r)) 5 /\
    Forall (fun t => tk_lexeme t <> []) (removelast (tokens r)).
Proof.
  eexists. split; [vm_compute; reflexivity|].
  apply (lexemes_are_slices 6 (str "a + 1") false []).
  vm_compute. reflexivity.
Defined.

(** X6. A text in which every character has a rule and no quote occurs is
    scanned without a diagnostic: the error stream and the error flag are
    left as they were. *)
Theorem clean_scan : forall fuel src he ce r,
    (forall a, In a src -> no_rule (Some a) = false /\ a <> DQUOTE) ->
    run fuel src he ce = Some r ->
    console_error r = ce /\ had_error r = he.
Proof.
  intros fuel src he ce r Hclean H.
  pose (P := fun st : State =>
               source st = src /\ console_error st = ce /\
               had_error st = he).
  assert (Hstep : forall st r' ts ds,
             wf st -> P st -> isAtEnd st = false ->
             scanToken fuel (set_start (current st) st) = Some r' ->
             turn st r' ts ds -> P r').
  { intros st r' ts ds Hw (Hsrc & Hce & Hhe) He _
           [_ Hs _ _ _ Hd Hf _ _ _ Hblame].
    assert (Hds : ds = []).
    { destruct ds as [|d ds]; [reflexivity|exfalso].
      apply isAtEnd_false in He.
      destruct (skipn_charAt _ _ He) as (a & Ha & _).
      rewrite Ha in Hblame.
      destruct (Hclean a) as [Hr Hq].
      { rewrite <- Hsrc. eapply nth_error_In. exact Ha. }
      destruct Hblame as [Hb|Hb]; [discriminate| |congruence].
      simpl in Hb. apply Ascii.eqb_eq in Hb. contradiction. }
    subst ds. unfold P. rewrite Hd, Hf, app_nil_r.
    split; [congruence|]. split; assumption. }
  assert (H0 : P (started src he ce)) by (repeat split).
  destruct (run_invariant P _ _ _ _ _ H0 Hstep H)
    as (st & -> & _ & (_ & Hce & Hhe) & _).
  split; assumption.
Qed.

Lemma clean_scan_witness :
  exists r,
    run 4 (str "a+1") false [] = Some r /\
    console_error r = [] /\ had_error r = false.
Proof.
  eexists. split; [vm_compute; reflexivity|].
  apply (clean_scan 4 (str "a+1") false []).
  - intros a [<-|[<-|[<-|[]]]]; split; (reflexivity || discriminate).
  - vm_compute. reflexivity.
Defined.

(** ** String literals *)

Lemma first_quote : forall l : jsstring,
    ~ In DQUOTE l \/
    exists body rest, l = body ++ DQUOTE :: rest /\ ~ In DQUOTE body.
Proof.
  induction l as [|a l IH]; [left; intros []|].
  destruct (ascii_dec a DQUOTE) as [->|Hne].
  - right. exists [], l. split; [reflexivity|intros []].
  - destruct IH as [Hno|(body & rest & -> & Hno)].
    + left. intros [H|H]; [congruence|contradiction].
    + right. exists (a :: body), rest. split; [reflexivity|].
      intros [H|H]; [congruence|contradiction].
Qed.

Lemma run_length_stop : forall p body x rest,
    (forall a, In a body -> p (Some a) = true) ->
    p (Some x) = false ->
    run_length p (body ++ x :: rest) = length body.
Proof.
  induction body as [|a body IH]; intros x rest Hb Hx; simpl.
  - now rewrite Hx.
  - rewrite (Hb a) by (left; reflexivity). f_equal.
    apply IH; [|exact Hx]. intros b Hin. apply Hb. right. exact Hin.
Qed.

Lemma firstn_app_exact : forall (A : Type) (l l' : list A),
    firstn (length l) (l ++ l') = l.
Proof.
  intros A l l'. rewrite firstn_app, Nat.sub_diag, firstn_all. simpl.
  apply app_nil_r.
Qed.

(** [string] on a literal that is closed: from the state in which the
    opening quote was just read. *)
Lemma string_closed : forall fuel st r body rest,
    wf st ->
    charAt (source st) (current st) = Some DQUOTE ->
    skipn (current st + 1) (source st) = body ++ DQUOTE :: rest ->
    ~ In DQUOTE body ->
    string_ fuel (entered st) = Some r ->
    outcome (entered st) r
      [mkToken (Kind STRING) (DQUOTE :: body ++ [DQUOTE]) (StringValue body)
               (line st + count_occ ascii_dec body LF)] [] /\
    current r = current st + length body + 2 /\
    line r = line st + count_occ ascii_dec body LF.
Proof.
  intros fuel st r body rest Hwf Hq Hsk Hno Hr.
  pose proof (charAt_Some_not_end _ _ Hq) as He.
  pose proof (entered_wf _ Hwf He) as Hw1.
  destruct (string_spec _ _ _ Hw1 Hr) as (_ & _ & Hln & Hif).
  change (current (entered st)) with (current st + 1) in *.
  change (source (entered st)) with (source st) in *.
  change (start (entered st)) with (current st) in *.
  change (line (entered st)) with (line st) in *.
  rewrite Hsk in *.
  rewrite (run_length_stop not_quote body DQUOTE rest) in *;
    try reflexivity.
  2:{ intros a Ha. apply not_quote_true. intros ->. contradiction. }
  2:{ intros a Ha. apply not_quote_true. intros ->. contradiction. }
  assert (Hlen : length (source st)
                 = current st + 1 + (length body + 1 + length rest)).
  { pose proof (f_equal (@length ascii) Hsk) as E.
    rewrite length_skipn, length_app in E. simpl in E.
    apply isAtEnd_false in He. lia. }
  assert (Hlt : (current st + 1 + length body <? length (source st)) = true)
    by (apply Nat.ltb_lt; lia).
  rewrite Hlt in Hif. destruct Hif as [Hc Ho].
  assert (Hnl : newlines (length body) (body ++ DQUOTE :: rest)
                = count_occ ascii_dec body LF).
  { unfold newlines. now rewrite firstn_app_exact. }
  rewrite Hnl in *.
  apply isAtEnd_false in He.
  destruct (skipn_charAt _ _ He) as (a & Ha & Hsk0).
  rewrite Hq in Ha. injection Ha as <-.
  replace (S (current st)) with (current st + 1) in Hsk0 by lia.
  rewrite Hsk in Hsk0.
  assert (Hlex : substring (source st) (current st)
                           (current st + 1 + length body + 1)
                 = DQUOTE :: body ++ [DQUOTE]).
  { rewrite substring_inside by lia. rewrite Hsk0.
    replace (current st + 1 + length body + 1 - current st)
      with (S (length body + 1)) by lia.
    simpl. f_equal.
    replace (length body + 1) with (length (body ++ [DQUOTE]))
      by (rewrite length_app; reflexivity).
    change (body ++ DQUOTE :: rest) with (body ++ [DQUOTE] ++ rest).
    rewrite app_assoc. apply firstn_app_exact. }
  assert (Hval : substring (source st) (current st + 1)
                           (current st + 1 + length body + 1 - 1)
                 = body).
  { rewrite substring_inside by lia. rewrite Hsk.
    replace (current st + 1 + length body + 1 - 1 - (current st + 1))
      with (length body) by lia.
    apply firstn_app_exact. }
  rewrite Hlex, Hval in Ho.
  split; [exact Ho|]. split; [lia|exact Hln].
Qed.

(** X7. A quote opens a string literal that ends at the next quote,
    whatever stands between them: newlines are counted, and a backslash
    escapes nothing.  One STRING token is pushed; its lexeme runs from quote
    to quote, its literal is the text between them and its line is the
    line of the closing quote. *)
Theorem string_literal : forall fuel src st body rest,
    length src < fuel ->
    loop_head fuel src st ->
    charAt src (current st) = Some DQUOTE ->
    skipn (current st + 1) src = body ++ DQUOTE :: rest ->
    ~ In DQUOTE body ->
    exists r,
      scanToken fuel (set_start (current st) st) = Some r /\
      tokens r
      = tokens st
        ++ [mkToken (Kind STRING) (DQUOTE :: body ++ [DQUOTE])
                    (StringValue body)
                    (line st + count_occ ascii_dec body LF)] /\
      console_error r = console_error st /\
      current r = current st + length body + 2 /\
      line r = line st + count_occ ascii_dec body LF.
Proof.
  intros fuel src st body rest Hf Hh Hq Hsk Hno.
  destruct (loop_head_wf _ _ _ Hh) as [Hwf Hsrc]. subst src.
  pose proof (charAt_Some_not_end _ _ Hq) as He.
  rewrite (scanToken_quote _ _ Hq).
  destruct (string_total fuel (entered st) (entered_wf _ Hwf He))
    as (r & Hr); [simpl; lia|].
  exists r. split; [exact Hr|].
  destruct (string_closed _ _ _ _ _ Hwf Hq Hsk Hno Hr)
    as ([_ _ Ht Hd _] & Hc & Hl).
  split; [exact Ht|]. split; [rewrite Hd; apply app_nil_r|].
  split; assumption.
Qed.

Lemma string_literal_witness :
  exists r,
    scanToken 5 (set_start 0
                   (mkState (DQUOTE :: "\"%char :: DQUOTE :: str "a")
                            [] 0 0 1 false [] [mkCursor 0 0 1])) = Some r /\
    tokens r
    = [mkToken (Kind STRING) [DQUOTE; "\"%char; DQUOTE]
               (StringValue ["\"%char]) 1] /\
    console_error r = [] /\
    current r = 3 /\
    line r = 1.
Proof.
  apply (string_literal 5
           (DQUOTE :: "\"%char :: DQUOTE :: str "a")
           (mkState (DQUOTE :: "\"%char :: DQUOTE :: str "a")
                    [] 0 0 1 false [] [mkCursor 0 0 1])
           ["\"%char] (str "a")).
  - simpl. lia.
  - apply loop_head_first.
  - reflexivity.
  - reflexivity.
  - simpl. intros [H|[]]. discriminate H.
Defined.

(** [string] on a literal that is left open. *)
Lemma string_open : forall fuel st r,
    wf st ->
    charAt (source st) (current st) = Some DQUOTE ->
    ~ In DQUOTE (skipn (current st + 1) (source st)) ->
    string_ fuel (entered st) = Some r ->
    outcome (entered st) r []
            [mkDiagnostic (line r) EmptyString UnterminatedString].
Proof.
  intros fuel st r Hwf Hq Hno Hr.
  pose proof (charAt_Some_not_end _ _ Hq) as He.
  pose proof (entered_wf _ Hwf He) as Hw1.
  destruct (string_spec _ _ _ Hw1 Hr) as (_ & _ & Hln & Hif).
  change (current (entered st)) with (current st + 1) in *.
  change (source (entered st)) with (source st) in *.
  rewrite (run_length_all not_quote) in *.
  2:{ intros a Ha. apply not_quote_true. intros ->. contradiction. }
  2:{ intros a Ha. apply not_quote_true. intros ->. contradiction. }
  rewrite length_skipn in *.
  apply isAtEnd_false in He.
  assert (Hge : (current st + 1 + (length (source st) - (current st + 1))
                 <? length (source st)) = false) by (apply Nat.ltb_ge; lia).
  rewrite Hge in Hif. destruct Hif as [_ Ho]. rewrite Hln. exact Ho.
Qed.

(** ** The literal of a token *)

Lemma parseFloat_digit : forall a l,
    isDigit (Some a) = true -> exists q, parseFloat (a :: l) = Decimal q.
Proof.
  intros a l H. unfold parseFloat. cbn [span_digits]. rewrite H.
  destruct (span_digits l) as [d r']. eexists. reflexivity.
Qed.

Lemma single_kind_plain : forall c t,
    single_kind c = Some t -> t <> STRING /\ t <> NUMBER.
Proof.
  intros c t. unfold single_kind.
  repeat match goal with
         | |- context [if ?b then _ else _] => destruct b
         end; intros H; inversion H; split; discriminate.
Qed.

Lemma double_kind_plain : forall c a b,
    double_kind c = Some (a, b) ->
    (a <> STRING /\ a <> NUMBER) /\ (b <> STRING /\ b <> NUMBER).
Proof.
  intros c a b. unfold double_kind.
  repeat match goal with
         | |- context [if ?b then _ else _] => destruct b
         end; intros H; inversion H; repeat split; discriminate.
Qed.

Lemma own_property_avoids : forall x table key,
    Forall (fun kv => snd kv <> x) table ->
    own_property table key <> Some x.
Proof.
  intros x. induction table as [|[k v] table IH]; intros key HF; simpl;
    [discriminate|].
  inversion HF; subst. destruct (String.eqb k key).
  - simpl in *. congruence.
  - apply IH. assumption.
Qed.

Lemma identifier_type_plain : forall text,
    identifier_type text <> Kind STRING /\
    identifier_type text <> Kind NUMBER.
Proof.
  intros text. unfold identifier_type, keywords_get.
  destruct (own_property keywords _) as [t|] eqn:E.
  - split; intros H; injection H as ->; revert E;
      apply own_property_avoids; unfold keywords;
      repeat constructor; discriminate.
  - destruct (existsb _ _); split; discriminate.
Qed.

Lemma fits_plain : forall v lex ln,
    v <> Kind STRING -> v <> Kind NUMBER ->
    literal_fits (mkToken v lex EmptyObject ln).
Proof.
  intros [t|name] lex ln Hs Hn; [|reflexivity].
  destruct t; try reflexivity; congruence.
Qed.

Lemma Kind_plain : forall t,
    t <> STRING /\ t <> NUMBER ->
    Kind t <> Kind STRING /\ Kind t <> Kind NUMBER.
Proof. intros t [H1 H2]. split; congruence. Qed.

Lemma char_is_Some : forall c k, char_is c k = true -> c = Some k.
Proof.
  intros [a|] k H; [|discriminate]. simpl in H.
  apply Ascii.eqb_eq in H. now subst.
Qed.

Lemma turn_literals : forall fuel st r,
    wf st ->
    isAtEnd st = false ->
    scanToken fuel (set_start (current st) st) = Some r ->
    Forall literal_fits (pushed st r).
Proof.
  intros fuel st r Hwf He H.
  pose proof (scanToken_entered _ _ _ H) as Hd.
  pose proof (entered_wf _ Hwf He) as Hwe.
  destruct (scanToken_step _ _ _ (set_start_wf _ Hwf) He H)
    as (Hwr & Hlr & _).
  change (pushed st r) with (pushed (entered st) r).
  remember (Some r) as res eqn:Hres.
  remember (charAt (source st) (current st)) as c eqn:Hc.
  destruct Hd.
  - injection Hres as <-.
    rewrite (pushed_outcome _ _ _ _ (outcome_addToken _ (Kind t) None)).
    constructor; [|constructor].
    apply fits_plain; apply (Kind_plain _ (single_kind_plain _ _ H0)).
  - injection Hres as <-.
    rewrite (pushed_outcome _ _ _ _
               (outcome_swept_l _ _ _ _ _
                  (moved_swept _ _ (match_moved "="%char _))
                  (outcome_addToken _ _ None))).
    destruct (double_kind_plain _ _ _ H0) as [Ha Hb].
    constructor; [|constructor].
    destruct (fst (match_ "=" (entered st)));
      apply fits_plain; apply (Kind_plain _); assumption.
  - destruct (advance_loop_spec _ _ comment_cond_peek _ _ _
                (match_wf _ _ Hwe) Hres) as (_ & Hm & _).
    rewrite (pushed_outcome _ _ _ _
               (moved_outcome _ _ (moved_trans _ _ _ (match_moved _ _) Hm))).
    constructor.
  - injection Hres as <-.
    rewrite (pushed_outcome _ _ _ _
               (outcome_swept_l _ _ _ _ _
                  (moved_swept _ _ (match_moved "/"%char _))
                  (outcome_addToken _ _ None))).
    constructor; [|constructor]. reflexivity.
  - injection Hres as <-.
    rewrite (pushed_outcome _ _ _ _
               (moved_outcome _ _ (moved_refl (entered st)))).
    constructor.
  - injection Hres as <-.
    change (set_line (line st + 1) (entered st))
      with (set_line (line (entered st) + 1) (entered st)).
    rewrite (pushed_outcome _ _ _ _
               (swept_outcome _ _ (set_line_swept (entered st)))).
    constructor.
  - apply char_is_Some in H0.
    assert (Hq : charAt (source st) (current st) = Some DQUOTE)
      by congruence.
    destruct (first_quote (skipn (current st + 1) (source st)))
      as [Hno|(body & rest & Hsk & Hno)].
    + rewrite (pushed_outcome _ _ _ _ (string_open _ _ _ Hwf Hq Hno Hres)).
      constructor.
    + destruct (string_closed _ _ _ _ _ Hwf Hq Hsk Hno Hres) as (Ho & _).
      rewrite (pushed_outcome _ _ _ _ Ho).
      constructor; [|constructor].
      exists body. repeat split. exact Hno.
  - destruct (number_spec _ _ _ Hwe Hres) as (_ & _ & _ & Hcur & Ho).
    rewrite (pushed_outcome _ _ _ _ Ho).
    constructor; [|constructor].
    change (current (entered st)) with (current st + 1) in *.
    change (source (entered st)) with (source st) in *.
    change (start (entered st)) with (current st) in *.
    destruct (wf_bounds _ Hwr) as [_ Hb].
    rewrite (later_source _ _ Hlr) in Hb. simpl in Hb.
    apply isAtEnd_false in He.
    destruct (skipn_charAt _ _ He) as (a & Ha & Hsk).
    assert (Hda : isDigit (Some a) = true) by congruence.
    set (n := number_length (skipn (current st + 1) (source st))) in *.
    assert (Htext : substring (source st) (current st) (current st + 1 + n)
                    = a :: firstn n (skipn (S (current st)) (source st))).
    { rewrite substring_inside by lia. rewrite Hsk.
      replace (current st + 1 + n - current st) with (S n) by lia.
      reflexivity. }
    rewrite Htext.
    destruct (parseFloat_digit a
                (firstn n (skipn (S (current st)) (source st))) Hda)
      as (q & Hq).
    unfold literal_fits. cbn [tk_type tk_lexeme tk_literal].
    exists q. rewrite Hq. split; reflexivity.
  - destruct (identifier_spec _ _ _ Hwe Hres) as (_ & _ & _ & _ & Ho).
    rewrite (pushed_outcome _ _ _ _ Ho).
    constructor; [|constructor].
    apply fits_plain; apply identifier_type_plain.
  - injection Hres as <-.
    rewrite (pushed_outcome _ _ _ _ (outcome_error _ _ _)).
    constructor.
Qed.

(** X8. In every token of a scan the literal goes with the type.  A STRING
    token has a lexeme of the form quote, text, quote, where the text holds
    no quote and is the literal.  A NUMBER token has the value of its
    lexeme as literal, and that value is a number, never NaN.  Every other
    token, the EOF token included, has the empty object. *)
Theorem literals_fit : forall fuel src he ce r,
    run fuel src he ce = Some r ->
    Forall literal_fits (tokens r).
Proof.
  intros fuel src he ce r H.
  pose (P := fun st : State => Forall literal_fits (tokens st)).
  assert (Hstep : forall st r' ts ds,
             wf st -> P st -> isAtEnd st = false ->
             scanToken fuel (set_start (current st) st) = Some r' ->
             turn st r' ts ds -> P r').
  { intros st r' ts ds Hw Hp He Hs Ht.
    pose proof (turn_literals _ _ _ Hw He Hs) as Hl.
    unfold pushed in Hl. rewrite (turn_tokens _ _ _ _ Ht) in *.
    rewrite skipn_app, Nat.sub_diag, skipn_all in Hl. simpl in Hl.
    unfold P. rewrite (turn_tokens _ _ _ _ Ht).
    apply Forall_app. split; assumption. }
  assert (H0 : P (started src he ce)) by constructor.
  destruct (run_invariant P _ _ _ _ _ H0 Hstep H)
    as (st & -> & _ & Hp & _).
  simpl. apply Forall_app. split; [exact Hp|].
  constructor; [reflexivity|constructor].
Qed.

Lemma literals_fit_witness :
  exists r,
    run 8 (DQUOTE :: "a"%char :: DQUOTE :: str " 1.5") false [] = Some r /\
    Forall literal_fits (tokens r).
Proof.
  eexists. split; [vm_compute; reflexivity|].
  apply (literals_fit 8 (DQUOTE :: "a"%char :: DQUOTE :: str " 1.5")
                      false []).
  vm_compute. reflexivity.
Defined.

(** ** Punctuation, operators and blanks *)

Lemma substring_char : forall (src : jsstring) c a,
    charAt src c = Some a -> substring src c (c + 1) = [a].
Proof.
  intros src c a H.
  assert (Hlt : c < length src).
  { apply nth_error_Some. unfold charAt in H. rewrite H. discriminate. }
  destruct (skipn_charAt _ _ Hlt) as (a' & Ha & Hs).
  rewrite H in Ha. injection Ha as <-.
  rewrite substring_inside by lia. rewrite Hs.
  replace (c + 1 - c) with 1 by lia. reflexivity.
Qed.

Lemma substring_two : forall (src : jsstring) c a b,
    charAt src c = Some a -> charAt src (c + 1) = Some b ->
    substring src c (c + 2) = [a; b].
Proof.
  intros src c a b H1 H2.
  assert (Hlt : c + 1 < length src).
  { apply nth_error_Some. unfold charAt in H2. rewrite H2. discriminate. }
  destruct (skipn_charAt src c) as (a' & Ha & Hs); [lia|].
  destruct (skipn_charAt src (S c)) as (b' & Hb & Hs'); [lia|].
  replace (S c) with (c + 1) in Hb by lia.
  rewrite H1 in Ha. injection Ha as <-.
  rewrite H2 in Hb. injection Hb as <-.
  rewrite substring_inside by lia. rewrite Hs, Hs'.
  replace (c + 2 - c) with 2 by lia. reflexivity.
Qed.

Lemma match_char : forall k st,
    match_ k st
    = if char_is (charAt (source st) (current st)) k
      then (true, set_current (current st + 1) st)
      else (false, st).
Proof.
  intros k st. unfold match_. destruct (isAtEnd st) eqn:He.
  - apply isAtEnd_true in He.
    assert (E : charAt (source st) (current st) = None)
      by (apply nth_error_None; exact He).
    rewrite E. reflexivity.
  - destruct (char_is _ k); reflexivity.
Qed.

Lemma scanToken_single : forall fuel st t,
    single_kind (charAt (source st) (current st)) = Some t ->
    scanToken fuel (set_start (current st) st)
    = Some (addToken (Kind t) None (entered st)).
Proof.
  intros fuel st t. unfold scanToken, entered, advance, single_kind.
  change (source (set_start (current st) st)) with (source st).
  change (current (set_start (current st) st)) with (current st).
  cbn [snd]. set (c := charAt (source st) (current st)).
  do 10 (match goal with
         | |- context [if char_is c ?k then _ else _] =>
             destruct (char_is c k);
             [intros H; injection H as <-; reflexivity|]
         end).
  discriminate.
Qed.

Lemma scanToken_double : forall fuel st k2 k1,
    double_kind (charAt (source st) (current st)) = Some (k2, k1) ->
    scanToken fuel (set_start (current st) st)
    = Some (addToken (Kind (if fst (match_ "=" (entered st))
                            then k2 else k1)) None
                     (snd (match_ "=" (entered st)))).
Proof.
  intros fuel st k2 k1 H.
  set (c := charAt (source st) (current st)) in *.
  unfold scanToken.
  change (advance (set_start (current st) st)) with (c, entered st).
  cbv iota beta.
  unfold double_kind in H.
  assert (Hs : forall k, char_is c k = true ->
                         k <> "!"%char -> k <> "="%char ->
                         k <> "<"%char -> k <> ">"%char -> False).
  { intros k Hk. apply char_is_Some in Hk. rewrite Hk in H.
    unfold char_is in H.
    intros N1 N2 N3 N4.
    apply Ascii.eqb_neq in N1, N2, N3, N4.
    rewrite N1, N2, N3, N4 in H. discriminate. }
  do 10 (match goal with
         | |- context [if char_is c ?k then _ else _] =>
             destruct (char_is c k) eqn:?;
             [exfalso; eapply Hs; [eassumption|discriminate..]|]
         end).
  do 4 (match goal with
        | |- context [if char_is c ?k then _ else _] =>
            destruct (char_is c k) eqn:?;
            [injection H as <- <-;
             destruct (match_ "=" (entered st)); reflexivity|]
        end).
  discriminate.
Qed.

(** X9. Each of the ten punctuation characters is a token on its own: one
    token of its kind is pushed, whose lexeme is that character and whose
    line is the current line; nothing is reported and the cursor moves by
    one. *)
Theorem punctuation_token : forall fuel src st a t,
    loop_head fuel src st ->
    charAt src (current st) = Some a ->
    single_kind (Some a) = Some t ->
    exists r,
      scanToken fuel (set_start (current st) st) = Some r /\
      loop_head fuel src r /\
      tokens r = tokens st ++ [mkToken (Kind t) [a] EmptyObject (line st)] /\
      console_error r = console_error st /\
      current r = current st + 1 /\
      line r = line st.
Proof.
  intros fuel src st a t Hh Ha Ht.
  destruct (loop_head_wf _ _ _ Hh) as [Hwf Hsrc]. subst src.
  pose proof (charAt_Some_not_end _ _ Ha) as He.
  rewrite <- Ha in Ht.
  pose proof (scanToken_single fuel _ _ Ht) as Hs.
  eexists. split; [exact Hs|].
  split; [eapply loop_head_next; eassumption|].
  split; [|repeat split].
  cbn [tokens addToken push entered snd advance set_current set_start assign
       source start current line].
  rewrite (substring_char _ _ _ Ha). reflexivity.
Qed.

Lemma punctuation_token_witness :
  exists r,
    scanToken 3 (set_start 0
                   (mkState (str "(a") [] 0 0 1 false [] [mkCursor 0 0 1]))
    = Some r /\
    loop_head 3 (str "(a") r /\
    tokens r = [mkToken (Kind LEFT_PAREN) (str "(") EmptyObject 1] /\
    console_error r = [] /\
    current r = 1 /\
    line r = 1.
Proof.
  apply (punctuation_token 3 (str "(a")
           (mkState (str "(a") [] 0 0 1 false [] [mkCursor 0 0 1])
           "("%char LEFT_PAREN).
  - apply loop_head_first.
  - reflexivity.
  - reflexivity.
Defined.

(** X10. The operators [!], [=], [<] and [>] take an equal sign that
    follows them at once, and nothing else: with it, one token of the
    two-character kind is pushed and the cursor moves by two; without it,
    also at the end of the input, one token of the one-character kind is
    pushed and the cursor moves by one. *)
Theorem operator_token : forall fuel src st a k2 k1,
    loop_head fuel src st ->
    charAt src (current st) = Some a ->
    double_kind (Some a) = Some (k2, k1) ->
    exists r,
      scanToken fuel (set_start (current st) st) = Some r /\
      loop_head fuel src r /\
      console_error r = console_error st /\
      line r = line st /\
      if char_is (charAt src (current st + 1)) "="
      then tokens r
           = tokens st
             ++ [mkToken (Kind k2) [a; "="%char] EmptyObject (line st)] /\
           current r = current st + 2
      else tokens r
           = tokens st ++ [mkToken (Kind k1) [a] EmptyObject (line st)] /\
           current r = current st + 1.
Proof.
  intros fuel src st a k2 k1 Hh Ha Hk.
  destruct (loop_head_wf _ _ _ Hh) as [Hwf Hsrc]. subst src.
  pose proof (charAt_Some_not_end _ _ Ha) as He.
  rewrite <- Ha in Hk.
  pose proof (scanToken_double fuel _ _ _ Hk) as Hs.
  eexists. split; [exact Hs|].
  split; [eapply loop_head_next; eassumption|].
  rewrite match_char.
  change (source (entered st)) with (source st).
  change (current (entered st)) with (current st + 1).
  destruct (char_is (charAt (source st) (current st + 1)) "=") eqn:E.
  - apply char_is_Some in E.
    cbn [fst snd tokens console_error line current addToken push entered
         advance set_current set_start assign source start].
    rewrite <- Nat.add_assoc. simpl (1 + 1).
    rewrite (substring_two _ _ _ _ Ha E). repeat split.
  - cbn [fst snd tokens console_error line current addToken push entered
         advance set_current set_start assign source start].
    rewrite (substring_char _ _ _ Ha). repeat split.
Qed.

Lemma operator_token_witness :
  exists r,
    scanToken 4 (set_start 0
                   (mkState (str "<=1") [] 0 0 1 false [] [mkCursor 0 0 1]))
    = Some r /\
    loop_head 4 (str "<=1") r /\
    console_error r = [] /\
    line r = 1 /\
    tokens r = [mkToken (Kind LESS_EQUAL) (str "<=") EmptyObject 1] /\
    current r = 2.
Proof.
  apply (operator_token 4 (str "<=1")
           (mkState (str "<=1") [] 0 0 1 false [] [mkCursor 0 0 1])
           "<"%char LESS_EQUAL LESS).
  - apply loop_head_first.
  - reflexivity.
  - reflexivity.
Defined.

Lemma scanToken_blank : forall fuel st,
    is_blank (charAt (source st) (current st)) = true ->
    scanToken fuel (set_start (current st) st) = Some (entered st).
Proof.
  intros fuel st H. unfold scanToken.
  change (advance (set_start (current st) st))
    with (charAt (source st) (current st), entered st).
  cbv iota beta. unfold is_blank in H.
  apply orb_prop in H. destruct H as [H|H];
    [apply orb_prop in H; destruct H as [H|H]|];
    apply char_is_Some in H; rewrite H; reflexivity.
Qed.

Lemma scanToken_slash : forall fuel st,
    charAt (source st) (current st) = Some "/"%char ->
    char_is (charAt (source st) (current st + 1)) "/" = false ->
    scanToken fuel (set_start (current st) st)
    = Some (addToken (Kind SLASH) None (entered st)).
Proof.
  intros fuel st H1 H2. unfold scanToken.
  change (advance (set_start (current st) st))
    with (charAt (source st) (current st), entered st).
  cbv iota beta. rewrite H1.
  remember (match_ "/"%char (entered st)) as M eqn:HM.
  remember (entered st) as st1 eqn:Hst1.
  simpl. subst M st1. rewrite match_char.
  change (source (entered st)) with (source st).
  change (current (entered st)) with (current st + 1).
  rewrite H2. reflexivity.
Qed.

(** X11. A space, a carriage return, a tab and a newline are consumed one
    at a time without a token and without a diagnostic; the newline adds
    one to the line counter and the other three leave it alone. *)
Theorem blank_or_newline : forall fuel src st a,
    loop_head fuel src st ->
    charAt src (current st) = Some a ->
    is_blank (Some a) = true \/ a = LF ->
    exists r,
      scanToken fuel (set_start (current st) st) = Some r /\
      loop_head fuel src r /\
      tokens r = tokens st /\
      console_error r = console_error st /\
      current r = current st + 1 /\
      line r = line st + (if char_is (Some a) LF then 1 else 0).
Proof.
  intros fuel src st a Hh Ha Hk.
  destruct (loop_head_wf _ _ _ Hh) as [Hwf Hsrc]. subst src.
  pose proof (charAt_Some_not_end _ _ Ha) as He.
  destruct Hk as [Hb| ->].
  - assert (Hnl : char_is (Some a) LF = false).
    { destruct (char_is (Some a) LF) eqn:E; [|reflexivity].
      apply char_is_LF in E. subst a. discriminate. }
    rewrite Hnl. rewrite <- Ha in Hb.
    pose proof (scanToken_blank fuel _ Hb) as Hs.
    eexists. split; [exact Hs|].
    split; [eapply loop_head_next; eassumption|].
    repeat split. simpl. lia.
  - pose proof (scanToken_newline fuel _ Ha) as Hs.
    eexists. split; [exact Hs|].
    split; [eapply loop_head_next; eassumption|].
    repeat split.
Qed.

Lemma blank_or_newline_witness :
  exists r,
    scanToken 3 (set_start 0
                   (mkState (LF :: str "a") [] 0 0 1 false []
                            [mkCursor 0 0 1]))
    = Some r /\
    loop_head 3 (LF :: str "a") r /\
    tokens r = [] /\
    console_error r = [] /\
    current r = 1 /\
    line r = 2.
Proof.
  apply (blank_or_newline 3 (LF :: str "a")
           (mkState (LF :: str "a") [] 0 0 1 false [] [mkCursor 0 0 1]) LF).
  - apply loop_head_first.
  - reflexivity.
  - right. reflexivity.
Defined.

(** X12. A slash that no second slash follows at once, also the last
    character of the input, is the SLASH token: one token is pushed, whose
    lexeme is the slash, and the cursor moves by one. *)
Theorem slash_token : forall fuel src st,
    loop_head fuel src st ->
    charAt src (current st) = Some "/"%char ->
    char_is (charAt src (current st + 1)) "/" = false ->
    exists r,
      scanToken fuel (set_start (current st) st) = Some r /\
      loop_head fuel src r /\
      tokens r
      = tokens st ++ [mkToken (Kind SLASH) ["/"%char] EmptyObject (line st)] /\
      console_error r = console_error st /\
      current r = current st + 1 /\
      line r = line st.
Proof.
  intros fuel src st Hh Ha Hn.
  destruct (loop_head_wf _ _ _ Hh) as [Hwf Hsrc]. subst src.
  pose proof (charAt_Some_not_end _ _ Ha) as He.
  pose proof (scanToken_slash fuel _ Ha Hn) as Hs.
  eexists. split; [exact Hs|].
  split; [eapply loop_head_next; eassumption|].
  split; [|repeat split].
  cbn [tokens addToken push entered snd advance set_current set_start assign
       source start current line].
  rewrite (substring_char _ _ _ Ha). reflexivity.
Qed.

Lemma slash_token_witness :
  exists r,
    scanToken 4 (set_start 0
                   (mkState (str "/ /") [] 0 0 1 false [] [mkCursor 0 0 1]))
    = Some r /\
    loop_head 4 (str "/ /") r /\
    tokens r = [mkToken (Kind SLASH) (str "/") EmptyObject 1] /\
    console_error r = [] /\
    current r = 1 /\
    line r = 1.
Proof.
  apply (slash_token 4 (str "/ /")
           (mkState (str "/ /") [] 0 0 1 false [] [mkCursor 0 0 1])).
  - apply loop_head_first.
  - reflexivity.
  - reflexivity.
Defined.

(** ** The keyword table *)

(** X13. No entry of the keyword table is shadowed by another one: the
    lookup of a reserved word finds its own kind.  Scanned alone, each of
    the sixteen reserved words gives one token of its kind, with the word as
    lexeme, and no diagnostic. *)
Theorem reserved_words : forall k t,
    In (k, t) keywords ->
    own_property keywords k = Some t /\
    exists r,
      scan_source (S (length (str k))) (str k) = Some r /\
      tokens r = [mkToken (Kind t) (str k) EmptyObject 1;
                  mkToken (Kind EOF) [] EmptyObject 1] /\
      console_error r = [].
Proof.
  intros k t H. unfold keywords in H. simpl in H.
  repeat (destruct H as [H|H];
          [injection H as <- <-; split; [reflexivity|];
           eexists; split; [vm_compute; reflexivity|split; reflexivity]|]).
  contradiction.
Qed.

Lemma reserved_words_witness :
  own_property keywords "while" = Some WHILE /\
  exists r,
    scan_source 6 (str "while") = Some r /\
    tokens r = [mkToken (Kind WHILE) (str "while") EmptyObject 1;
                mkToken (Kind EOF) [] EmptyObject 1] /\
    console_error r = [].
Proof.
  apply (reserved_words "while" WHILE).
  unfold keywords. simpl. tauto.
Defined.

(** ** The driver, continued *)

Lemma run_process_grows : forall src p p',
    run_process src p = Some p' ->
    stdout p' = stdout p /\
    scanned p' = scanned p ++ [src] /\
    exists st,
      run (S (length src)) src (p_had_error p) (p_console_error p) = Some st
      /\ p_had_error p' = had_error st
      /\ p_console_error p' = console_error st.
Proof.
  intros src p p' H. unfold run_process in H.
  destruct (run _ src _ _) as [st|] eqn:E; [|discriminate].
  injection H as <-. repeat split. exists st. repeat split.
Qed.

Lemma run_appends : forall fuel src he ce r,
    run fuel src he ce = Some r -> exists ds, console_error r = ce ++ ds.
Proof.
  intros fuel src he ce r H. unfold run, scanTokens in H.
  destruct (scan_spec _ _ _ (initial_wf src [] he ce) H)
    as (st & -> & _ & Hl & _).
  destruct (later_errors _ _ Hl) as (ds & Hds). exists ds. exact Hds.
Qed.

Lemma prompt_loop_spec : forall lines p,
    exists p' ds,
      prompt_loop lines p = (Returns, p') /\
      scanned p' = scanned p ++ until_empty lines /\
      stdout p'
      = stdout p
        ++ repeat prompt
             (Nat.min (length lines) (length (until_empty lines) + 1)) /\
      p_console_error p' = p_console_error p ++ ds /\
      p_had_error p'
      = match until_empty lines with
        | [] => p_had_error p
        | _ :: _ => false
        end.
Proof.
  induction lines as [|ln lines IH]; intros p.
  - exists p, []. simpl. rewrite !app_nil_r. repeat split.
  - simpl. destruct (length ln =? 0) eqn:E.
    + exists (stdout_write prompt p), [].
      cbn [stdout p_had_error p_console_error scanned stdout_write
           until_empty length Nat.add].
      rewrite !app_nil_r. repeat split.
      rewrite Nat.min_0_r. reflexivity.
    + destruct (run_process_total ln (stdout_write prompt p))
        as (st & Hrun & Hp).
      rewrite Hp.
      destruct (run_appends _ _ _ _ _ Hrun) as (ds1 & Hds1).
      destruct (IH (set_had_error false
                      (mkProcess (stdout (stdout_write prompt p))
                                 (had_error st) (console_error st)
                                 (scanned (stdout_write prompt p) ++ [ln]))))
        as (p' & ds2 & Hloop & Hsc & Hout & Hce & Hhe).
      exists p', (ds1 ++ ds2). split; [exact Hloop|].
      cbn [stdout p_had_error p_console_error scanned set_had_error
           stdout_write] in *.
      split; [rewrite Hsc, <- app_assoc; reflexivity|].
      split.
      { rewrite Hout, <- app_assoc. reflexivity. }
      split; [rewrite Hce, Hds1, app_assoc; reflexivity|].
      rewrite Hhe. destruct (until_empty lines); reflexivity.
Qed.

(** X14. Started without arguments, [main] runs the prompt.  The session
    never exits with an error status: it returns when the console gives an
    empty line or ends.  It writes the prompt once at the start and once
    after every line read, scans the lines before the first empty one, each
    on its own and in order, only appends to the error stream, and leaves
    the error flag cleared once a line was scanned. *)
Theorem interactive_session : forall exe script fs lines p,
    exists p' ds,
      main (process_argv exe script []) fs lines p = (Returns, p') /\
      scanned p' = scanned p ++ until_empty lines /\
      stdout p'
      = stdout p
        ++ repeat prompt
             (1 + Nat.min (length lines) (length (until_empty lines) + 1)) /\
      p_console_error p' = p_console_error p ++ ds /\
      p_had_error p'
      = match until_empty lines with
        | [] => p_had_error p
        | _ :: _ => false
        end.
Proof.
  intros exe script fs lines p.
  destruct (prompt_loop_spec lines (stdout_write prompt p))
    as (p' & ds & Hloop & Hsc & Hout & Hce & Hhe).
  exists p', ds. split; [exact Hloop|].
  cbn [stdout p_had_error p_console_error scanned stdout_write] in *.
  split; [exact Hsc|]. split; [|split; assumption].
  rewrite Hout, <- app_assoc. reflexivity.
Qed.

(** X15. [run_file] throws when the file cannot be read, and scans
    nothing.  Otherwise it scans the text of the file once and exits with
    status 65 exactly when the error flag was already set or the scan added
    a diagnostic; if not, it returns.  The flag is not cleared first. *)
Theorem batch_file : forall fs path p,
    match fs path with
    | None => run_file fs (Some path) p = (Throws, p)
    | Some text =>
        exists st,
          run (S (length text)) text (p_had_error p) (p_console_error p)
          = Some st /\
          run_file fs (Some path) p
          = (if p_had_error p
                || (length (p_console_error p) <? length (console_error st))
             then Exits 65 else Returns,
             mkProcess (stdout p) (had_error st) (console_error st)
                       (scanned p ++ [text]))
    end.
Proof.
  intros fs path p. unfold run_file.
  destruct (fs path) as [text|]; [|reflexivity].
  destruct (run_process_total text p) as (st & Hrun & Hp).
  exists st. split; [exact Hrun|]. rewrite Hp. cbn [p_had_error].
  unfold run, scanTokens in Hrun.
  pose proof (scan_flag _ _ _ (initial_wf text [] _ _) Hrun) as Hf.
  cbn [had_error console_error] in Hf. rewrite <- Hf.
  destruct (had_error st); reflexivity.
Qed.

(** ** A scan and the process in which it runs *)

(** X16. The scanner reads neither the error flag nor the error stream:
    the tokens of a scan are those of the scan of the same text in a fresh
    process, and its diagnostics are those of that scan, appended to the
    stream that it found. *)
Theorem run_independent : forall fuel fuel' src he ce r r0,
    run fuel src he ce = Some r ->
    scan_source fuel' src = Some r0 ->
    tokens r = tokens r0 /\
    console_error r = ce ++ console_error r0.
Proof.
  intros fuel fuel' src he ce r r0 H H0.
  destruct (scan_source_loop _ _ _ H0)
    as (st0 & E0 & -> & Hw0 & He0 & Hs0 & Hl0).
  assert (Hh : heads [] src [] 0 [] ce (initial src) (started src he ce)).
  { split; try reflexivity.
    - apply set_start_wf, initial_wf.
    - simpl. now rewrite app_nil_r.
    - simpl. now rewrite app_nil_r. }
  destruct (heads_follow [] src [] 0 [] ce (or_introl eq_refl)
              fuel' fuel' _ _ _ Hh E0 (or_introl eq_refl))
    as (r2 & Hh2 & Hfollow).
  assert (He2 : isAtEnd r2 = true).
  { destruct (spliced_edge _ _ _ _ _ _ (or_introl eq_refl) _ _ Hh2 He0)
      as (_ & [(_ & He & _)|((S' & HS') & _)]); [exact He|discriminate]. }
  destruct Hh2 as [_ _ _ Ht2 Hd2 _ _ Hl2].
  cbn [source tokens console_error current line set_start assign] in *.
  rewrite map_shift_token_0 in Ht2. rewrite map_shift_diagnostic_0 in Hd2.
  destruct (Hfollow 1 r2) as (m & Hm).
  { simpl. unfold scan_cond. rewrite He2. reflexivity. }
  set (N := Nat.max m (Nat.max fuel fuel')).
  assert (HN : scan N (started src he ce)
               = Some (push (EOF_token (line r2)) r2)).
  { unfold scan.
    rewrite (while_mono2 scan_cond (scan_body fuel') (scan_body N))
      with (fuel := m) (r := r2);
      [reflexivity| |exact Hm|apply Nat.le_max_l].
    intros s s' Hs. unfold scan_body in *.
    eapply scanToken_mono; [exact Hs|]. unfold N. lia. }
  unfold run, scanTokens in H. fold (started src he ce) in H.
  apply scan_mono with (fuel' := N) in H; [|unfold N; lia].
  rewrite H in HN. injection HN as ->.
  cbn [tokens console_error push]. rewrite Ht2, Hd2, Hl2.
  split; reflexivity.
Qed.

Lemma run_independent_witness :
  exists r r0,
    run 3 (str "@a") true [mkDiagnostic 7 EmptyString UnexpectedCharacter]
    = Some r /\
    scan_source 3 (str "@a") = Some r0 /\
    tokens r = tokens r0 /\
    console_error r
    = [mkDiagnostic 7 EmptyString UnexpectedCharacter] ++ console_error r0.
Proof.
  eexists. eexists.
  split; [vm_compute; reflexivity|]. split; [vm_compute; reflexivity|].
  apply (run_independent 3 3 (str "@a") true
           [mkDiagnostic 7 EmptyString UnexpectedCharacter]);
    vm_compute; reflexivity.
Defined.

(** ** Lexemes and lines *)




